(** * Spy School Decryption Engine: the step-wise Caesar decoder

    A shallow embedding of the cipher core, the step sequencer and the CSV
    export of [script.js] and of its sibling version, with the properties
    the design document states about them.

    Conventions of the embedding.
    - A JavaScript string is the list of its UTF-16 code units ([jsstring]);
      [str "..."] writes a literal.
    - The numbers the engine handles are finite integers; they are embedded
      as [Z], an integer standing for the double nearest to it, as the host
      reads a literal ([round_double]).  Where the code subtracts a key the
      result is rounded as the host rounds it ([jssub]); [NaN] is a separate
      constructor of [number] where the code can meet it.
    - [null] and a missing DOM element are [None].
    - An operation of the sequencer returns [option]: [None] stands for the
      paths on which the host would raise a TypeError or splice [undefined]
      into a string; they are shown to be unreachable.
    - DOM rendering ([UIController.reset], [notifyUI], [updatePlayButton])
      writes to the page only and is not part of the state. *)

From Stdlib Require Import String Ascii DecimalString.
From Stdlib Require Import ZArith List Bool Lia.
Import ListNotations.

Local Open Scope Z_scope.

(** ** The host: strings, arrays, numbers *)

Module Host.

Definition jsstring := list N.

Definition str (s : string) : jsstring :=
  map N_of_ascii (list_ascii_of_string s).

Fixpoint jsstring_eqb (a b : jsstring) : bool :=
  match a, b with
  | [], [] => true
  | x :: a', y :: b' => N.eqb x y && jsstring_eqb a' b'
  | _, _ => false
  end.

(** [n % m] of the host: the remainder takes the sign of the dividend. *)
Definition jsrem (n m : Z) : Z := Z.rem n m.

(** 2^53: up to it in magnitude every integer is a double. *)
Definition two53 : Z := 9007199254740992.

(** The double nearest to an integer, ties to the even significand: beyond
    2^53 the integer is cut to 53 significant bits. *)
Definition round_double (z : Z) : Z :=
  let a := Z.abs z in
  if a <=? two53 then z
  else
    let e := Z.log2 a - 52 in
    let q := a / 2 ^ e in
    let r := a mod 2 ^ e in
    let half := 2 ^ (e - 1) in
    let m := if r <? half then q
             else if half <? r then q + 1
             else if Z.even q then q else q + 1 in
    Z.sgn z * (m * 2 ^ e).

(** [a - b] of the host on two integers, each read as the double nearest
    to it: the exact difference of the two doubles, rounded. *)
Definition jssub (a b : Z) : Z := round_double (round_double a - round_double b).

(** [function clamp(n, min, max) { return Math.max(min, Math.min(max, n)); }] *)
Definition clamp (n min max : Z) : Z := Z.max min (Z.min max n).

(** [a[i]]: [None] is [undefined]. *)
Definition array_get {A : Type} (a : list A) (i : Z) : option A :=
  if i <? 0 then None else nth_error a (Z.to_nat i).

(** [a.indexOf(x)] on an array of strings: first position, or [-1]. *)
Fixpoint indexOf_from (a : list jsstring) (x : jsstring) (i : Z) : Z :=
  match a with
  | [] => -1
  | y :: a' => if jsstring_eqb y x then i else indexOf_from a' x (i + 1)
  end.

Definition indexOf (a : list jsstring) (x : jsstring) : Z := indexOf_from a x 0.

(** [/[A-Z]/.test(c)] on a one-unit string. *)
Definition test_AZ (c : N) : bool := (65 <=? c)%N && (c <=? 90)%N.

Definition in_range (lo hi c : N) : bool := (lo <=? c)%N && (c <=? hi)%N.

(** [c.toLowerCase()] on a one-unit string.  The table covers the Basic
    Latin and Latin-1 blocks, and U+212A KELVIN SIGN, the one code unit of
    another block whose lower case is a letter of [a..z]; the other code
    units are left in place (the engine only looks the result up in the
    alphabet). *)
Definition toLowerCase (c : N) : jsstring :=
  if in_range 65 90 c then [(c + 32)%N]
  else if in_range 192 214 c || in_range 216 222 c then [(c + 32)%N]
  else if (c =? 8490)%N then [107%N]
  else [c].

(** [c.toUpperCase()] on a one-unit string, with the same coverage:
    U+00DF gives "SS", U+00B5 and U+00FF leave Latin-1, U+0131 and U+017F
    reach [I] and [S]. *)
Definition toUpperCase (c : N) : jsstring :=
  if in_range 97 122 c then [(c - 32)%N]
  else if (c =? 181)%N then [924%N]
  else if (c =? 223)%N then [83%N; 83%N]
  else if in_range 224 246 c || in_range 248 254 c then [(c - 32)%N]
  else if (c =? 255)%N then [376%N]
  else if (c =? 305)%N then [73%N]
  else if (c =? 383)%N then [83%N]
  else [c].

(** [s.toUpperCase()] on a string, unit by unit. *)
Definition string_toUpperCase (s : jsstring) : jsstring := flat_map toUpperCase s.

(** [s.replace] with the global pattern that matches the double-quote
    character (code unit 34) and a replacement of two of them. *)
Definition double_quotes (s : jsstring) : jsstring :=
  flat_map (fun c => if (c =? 34)%N then [34%N; 34%N] else [c]) s.

(** A number that may be [NaN] (what [parseInt] returns). *)
Inductive number := NaN | Int (z : Z).

(** 10^21: from it on the host prints a number in exponent form. *)
Definition ten21 : Z := 1000000000000000000000.

(** The number of decimal digits of a positive integer. *)
Fixpoint count_digits (fuel : nat) (z : Z) : Z :=
  match fuel with
  | O => 1
  | S fuel' => if z <? 10 then 1 else 1 + count_digits fuel' (z / 10)
  end.

Definition digits (z : Z) : Z := count_digits (Z.to_nat (Z.log2 z)) z.

(** The shortest decimal that reads back as the double [z] (positive, above
    2^53): [(s, n)] with [s] of as few digits [k] as possible such that
    [s * 10^(n-k)] rounds to [z], the closest to [z] among those.  [lo] and
    [hi] bound the integers that round to [z], the bounds included when the
    significand of [z] is even. *)
Fixpoint shortest_from (fuel : nat) (k : Z) (z lo hi : Z) (closed : bool) (D : Z)
  : Z * Z :=
  let scale := 10 ^ (D - k) in
  let a := z / scale in
  let inside y := if closed then (lo <=? y) && (y <=? hi)
                  else (lo <? y) && (y <? hi) in
  let o1 := inside (a * scale) in
  let o2 := inside ((a + 1) * scale) in
  let pick s := if s =? 10 ^ k then (1, D + 1) else (s, D) in
  match fuel with
  | O => (a, D)
  | S fuel' =>
      if o1 && o2 then
        let d1 := z - a * scale in
        let d2 := (a + 1) * scale - z in
        pick (if d1 <? d2 then a
              else if d2 <? d1 then a + 1
              else if Z.even a then a else a + 1)
      else if o1 then pick a
      else if o2 then pick (a + 1)
      else shortest_from fuel' (k + 1) z lo hi closed D
  end.

Definition shortest (z : Z) : Z * Z :=
  let e := Z.log2 z - 52 in
  let m := z / 2 ^ e in
  let up := 2 ^ (e - 1) in
  let down := if m =? 2 ^ 52 then 2 ^ (e - 2) else up in
  shortest_from 17 1 z (z - down) (z + up) (Z.even m) (digits z).

Definition decimal (z : Z) : jsstring := str (NilZero.string_of_int (Z.to_int z)).

(** [String(n)] of an integer, as a template literal or [join] prints it:
    its digits up to 2^53; beyond, the shortest digits that read back as the
    number, followed by zeros while the number has at most 21 digits, and
    with a point after the first digit and an exponent from 10^21 on. *)
Definition string_of_Z (z0 : Z) : jsstring :=
  let z := round_double z0 in
  if Z.abs z <=? two53 then decimal z
  else
    let (s, n) := shortest (Z.abs z) in
    let ds := decimal s in
    (if z <? 0 then [45%N] else [])
      ++ (if n <=? 21 then ds ++ repeat 48%N (Z.to_nat (n - digits s))
          else
            match ds with
            | [] => []
            | [d] => [d]
            | d :: rest => d :: 46%N :: rest
            end ++ [101%N; 43%N] ++ decimal (n - 1)).

(** [parseInt(n, 10)] on a number: it parses [String(n)].  Below 10^21 the
    digits printed read back as the number itself; from 10^21 on the point or
    the exponent stops the parse after the first digit. *)
Definition parseInt10 (n : number) : number :=
  match n with
  | NaN => NaN
  | Int z0 =>
      let z := round_double z0 in
      if Z.abs z <? ten21 then Int z
      else
        let (s, _) := shortest (Z.abs z) in
        Int (Z.sgn z * (s / 10 ^ (digits s - 1)))
  end.

End Host.
Import Host.

(** ** script.js *)

Module Script.

(** [CONFIG] *)
Definition ALPHABET : list jsstring :=
  map (fun c => [c]) (str "abcdefghijklmnopqrstuvwxyz").
Definition DEFAULT_KEY : Z := 3.
Definition SPEED_LEVELS : list Z := [2000; 1500; 1000; 600; 300].
Definition len_levels : Z := Z.of_nat (length SPEED_LEVELS).

Record DecodeResult := mkResult {
  isSpecial : bool;
  char : jsstring;
  originalIndex : Z;
  newIndex : Z;
  rawCalculation : option Z
}.

(** [CipherEngine.calculateNewPosition] *)
Definition calculateNewPosition (position key : Z) : Z :=
  jsrem (jsrem (jssub position key) 26 + 26) 26.

(** [CipherEngine.decryptChar(letter, key, preserveCase = true)], [letter]
    a one-unit string.  [None]: [CONFIG.ALPHABET[newIndex]] is [undefined]. *)
Definition decryptChar (letter : N) (key : Z) (preserveCase : bool)
  : option DecodeResult :=
  let isUpper := test_AZ letter in
  let lowerLetter := toLowerCase letter in
  let index := indexOf ALPHABET lowerLetter in
  if index =? -1 then
    Some (mkResult true [letter] (-1) (-1) None)
  else
    let rawCalc := jssub index key in
    let newIndex := calculateNewPosition index key in
    match array_get ALPHABET newIndex with
    | None => None
    | Some newChar =>
        let newChar :=
          if preserveCase && isUpper then string_toUpperCase newChar else newChar in
        Some (mkResult false newChar index newIndex (Some rawCalc))
    end.

(** *** ClassSync: one stored attempt and its CSV row *)

(** An entry of the class log as [JSON.parse] returns it.  [historyJSON] is
    [JSON.stringify(r.history)], the text under which the history sits in
    the store. *)
Record Attempt := mkAttempt {
  timestamp : jsstring;
  studentId : jsstring;
  encrypted : jsstring;
  attemptKey : Z;
  finalDecrypted : jsstring;
  historyJSON : jsstring
}.

(** [a.join(sep)] on an array of strings. *)
Fixpoint join (sep : jsstring) (a : list jsstring) : jsstring :=
  match a with
  | [] => []
  | [x] => x
  | x :: a' => x ++ sep ++ join sep a'
  end.

Definition quote : jsstring := [34%N].

(** The array pushed for one entry in [exportClassCSV]. *)
Definition csv_fields (r : Attempt) : list jsstring :=
  [ timestamp r; studentId r; quote ++ encrypted r ++ quote;
    string_of_Z (attemptKey r); quote ++ finalDecrypted r ++ quote;
    quote ++ double_quotes (historyJSON r) ++ quote ].

Definition csv_header : list jsstring :=
  [ str "timestamp"; str "studentId"; str "encrypted"; str "key";
    str "finalDecrypted"; str "historyJSON" ].

(** [ClassSync.exportClassCSV], from the parsed log to the text handed to
    the Blob; [None] is the alert that no attempt was found. *)
Definition exportClassCSV (data : list Attempt) : option jsstring :=
  match data with
  | [] => None
  | _ =>
      let rows := csv_header :: map csv_fields data in
      Some (join [10%N] (map (join (str ",")) rows))
  end.

(** *** LoopEngine *)

Record Snapshot := mkSnapshot {
  iteration : Z;
  inputChar : N;
  snapshotKey : Z;
  result : DecodeResult;
  accumulated : jsstring
}.

Record State := mkState {
  encryptedText : jsstring;
  key : Z;
  currentIndex : Z;
  history : list Snapshot;
  isPlaying : bool;
  timer : option nat;
  accumulatedText : jsstring;
  waitingForReveal : bool
}.

(** A live interval of the host: its handle, the state object its callback
    closed over (the position of that object in the sequence of state
    objects created so far) and its period in milliseconds. *)
Record Interval := mkInterval {
  handle : nat;
  closure : nat;
  delay : Z
}.

(** What the engine reads from the page: the two toggles ([None]: the
    element is missing) and the parsed value of the speed slider. *)
Record Dom := mkDom {
  preserveCaseToggle : option bool;
  thinkModeToggle : option bool;
  speedSlider : option number
}.

(** The engine and the part of the host it acts on.  [state] is the object
    [LoopEngine.state] points to, [retired] the objects it pointed to
    before (oldest first; [init] replaces the object), [intervals] the
    timers [setInterval] created and [clearInterval] has not removed,
    [missionComplete] the number of calls of
    [UIController.showMissionComplete]. *)
Record World := mkWorld {
  state : State;
  retired : list State;
  intervals : list Interval;
  nextHandle : nat;
  dom : Dom;
  missionComplete : nat
}.

Definition with_state (w : World) (s : State) : World :=
  mkWorld s (retired w) (intervals w) (nextHandle w) (dom w) (missionComplete w).

(** [clearInterval(h)] *)
Definition clearInterval (h : nat) (l : list Interval) : list Interval :=
  filter (fun t => negb (Nat.eqb (handle t) h)) l.

(** [LoopEngine.pause] *)
Definition pause (w : World) : World :=
  let s := state w in
  let live :=
    match timer s with
    | Some h => if Nat.eqb h 0 then intervals w else clearInterval h (intervals w)
    | None => intervals w
    end in
  mkWorld
    (mkState (encryptedText s) (key s) (currentIndex s) (history s)
             false None (accumulatedText s) (waitingForReveal s))
    (retired w) live (nextHandle w) (dom w) (missionComplete w).

(** [parseInt(key, 10) || CONFIG.DEFAULT_KEY] on a number: [NaN] and [0]
    are falsy. *)
Definition key_or_default (k : number) : Z :=
  match parseInt10 k with
  | NaN => DEFAULT_KEY
  | Int z => if z =? 0 then DEFAULT_KEY else z
  end.

(** [LoopEngine.init] *)
Definition init (text : jsstring) (k : number) (w : World) : World :=
  let w1 := pause w in
  mkWorld
    (mkState text (clamp (key_or_default k) 0 25) (-1) [] false None [] false)
    (retired w1 ++ [state w1]) (intervals w1) (nextHandle w1) (dom w1)
    (missionComplete w1).

Definition len (s : jsstring) : Z := Z.of_nat (length s).

Definition showMissionComplete (w : World) : World :=
  mkWorld (state w) (retired w) (intervals w) (nextHandle w) (dom w)
          (S (missionComplete w)).

Definition checked (default : bool) (toggle : option bool) : bool :=
  match toggle with Some b => b | None => default end.

(** [LoopEngine.nextStep] *)
Definition nextStep (w : World) : option World :=
  let s := state w in
  if currentIndex s >=? len (encryptedText s) - 1 then
    let w1 := pause w in
    Some (if currentIndex s =? len (encryptedText s) - 1
          then showMissionComplete w1 else w1)
  else
    let i := currentIndex s + 1 in
    match array_get (encryptedText s) i with
    | None => None
    | Some c =>
        let preserveCase := checked true (preserveCaseToggle (dom w)) in
        match decryptChar c (key s) preserveCase with
        | None => None
        | Some r =>
            let acc := accumulatedText s ++ char r in
            let snapshot := mkSnapshot i c (key s) r acc in
            let thinkOn := checked false (thinkModeToggle (dom w)) in
            let w' := with_state w
              (mkState (encryptedText s) (key s) i (history s ++ [snapshot])
                       (isPlaying s) (timer s) acc thinkOn) in
            Some (if thinkOn && isPlaying s then pause w' else w')
        end
    end.

(** [LoopEngine.prevStep] *)
Definition prevStep (w : World) : World :=
  let w1 := pause w in
  let s := state w1 in
  if currentIndex s <? 0 then w1
  else
    let h := removelast (history s) in
    let acc :=
      match h with
      | [] => []
      | x :: h' => accumulated (last h' x)
      end in
    with_state w1
      (mkState (encryptedText s) (key s) (currentIndex s - 1) h
               (isPlaying s) (timer s) acc false).

(** The period [play] resolves from the slider. *)
Definition speed_of (slider : option number) : Z :=
  let val := match slider with
             | Some (Int v) => v
             | Some NaN => 3
             | None => 3
             end in
  let speedIdx := clamp (val - 1) 0 (len_levels - 1) in
  match array_get SPEED_LEVELS speedIdx with
  | Some 0 | None => 1000
  | Some ms => ms
  end.

(** [LoopEngine.play] *)
Definition play (w : World) : World :=
  let s := state w in
  if currentIndex s >=? len (encryptedText s) - 1 then w
  else
    let h := nextHandle w in
    mkWorld
      (mkState (encryptedText s) (key s) (currentIndex s) (history s)
               true (Some h) (accumulatedText s) (waitingForReveal s))
      (retired w)
      (intervals w ++ [mkInterval h (length (retired w)) (speed_of (speedSlider (dom w)))])
      (S h) (dom w) (missionComplete w).

(** [LoopEngine.reset] *)
Definition reset (w : World) : World :=
  init (encryptedText (state w)) (Int (key (state w))) w.

(** [LoopEngine.revealPrediction] and [LoopEngine.skipPrediction] *)
Definition revealPrediction (w : World) : World :=
  let s := state w in
  with_state w
    (mkState (encryptedText s) (key s) (currentIndex s) (history s)
             (isPlaying s) (timer s) (accumulatedText s) false).

Definition skipPrediction (w : World) : World := revealPrediction w.

(** The state object a callback closed over. *)
Definition closed_over (w : World) (t : Interval) : State :=
  nth (closure t) (retired w) (state w).

(** The callback [play] hands to [setInterval], run for interval [t]. *)
Definition tick (t : Interval) (w : World) : option World :=
  if waitingForReveal (closed_over w t) then Some (pause w) else nextStep w.

(** What can happen to a running page: a call of an entry point of the
    engine, the firing of a live interval, a change of the controls. *)
Inductive event :=
  | Init (text : jsstring) (k : number)
  | NextStep
  | PrevStep
  | Play
  | Pause
  | Reset
  | RevealPrediction
  | SkipPrediction
  | Tick (h : nat)
  | SetDom (d : Dom).

Definition step (e : event) (w : World) : option World :=
  match e with
  | Init text k => Some (init text k w)
  | NextStep => nextStep w
  | PrevStep => Some (prevStep w)
  | Play => Some (play w)
  | Pause => Some (pause w)
  | Reset => Some (reset w)
  | RevealPrediction => Some (revealPrediction w)
  | SkipPrediction => Some (skipPrediction w)
  | Tick h =>
      match find (fun t => Nat.eqb (handle t) h) (intervals w) with
      | Some t => tick t w
      | None => Some w
      end
  | SetDom d =>
      Some (mkWorld (state w) (retired w) (intervals w) (nextHandle w) d
                    (missionComplete w))
  end.

Fixpoint run (es : list event) (w : World) : option World :=
  match es with
  | [] => Some w
  | e :: es' =>
      match step e w with
      | Some w' => run es' w'
      | None => None
      end
  end.

(** The page as loaded: the literal [state] of [LoopEngine], no timer. *)
Definition boot (d : Dom) : World :=
  mkWorld (mkState [] DEFAULT_KEY (-1) [] false None [] false) [] [] 1 d 0.

End Script.

(** ** The sibling version of the engine (V2.0 header) *)

Module Sibling.

Definition ALPHABET : list jsstring :=
  map (fun c => [c]) (str "abcdefghijklmnopqrstuvwxyz").

Definition calculateNewPosition (position key : Z) : Z :=
  jsrem (jsrem (jssub position key) 26 + 26) 26.

(** [CipherEngine.decryptChar(letter, key)]; the result has the same five
    fields, so the record of [Script] is reused. *)
Definition decryptChar (letter : N) (key : Z) : option Script.DecodeResult :=
  let isUpper := jsstring_eqb [letter] (toUpperCase letter) && test_AZ letter in
  let lowerLetter := toLowerCase letter in
  let index := indexOf ALPHABET lowerLetter in
  if index =? -1 then
    Some (Script.mkResult true [letter] (-1) (-1) None)
  else
    let rawCalc := jssub index key in
    let newIndex := calculateNewPosition index key in
    match array_get ALPHABET newIndex with
    | None => None
    | Some newChar =>
        let newChar := if isUpper then string_toUpperCase newChar else newChar in
        Some (Script.mkResult false newChar index newIndex (Some rawCalc))
    end.

(** *** ClassSync *)

(** An entry of the class log; [historySnapshot] is stored with it and not
    read by the export. *)
Record Attempt := mkAttempt {
  timestamp : jsstring;
  studentId : jsstring;
  encrypted : jsstring;
  attemptKey : Z;
  finalDecrypted : jsstring
}.

Definition quote : jsstring := [34%N].
Definition comma : jsstring := [44%N].

(** The template literal pushed for one entry in [exportClassCSV]. *)
Definition csv_row (r : Attempt) : jsstring :=
  let cleanEnc := double_quotes (encrypted r) in
  let cleanDec := double_quotes (finalDecrypted r) in
  timestamp r ++ comma ++ quote ++ studentId r ++ quote ++ comma
    ++ quote ++ cleanEnc ++ quote ++ comma
    ++ string_of_Z (attemptKey r) ++ comma
    ++ quote ++ cleanDec ++ quote.

Definition csv_header : jsstring :=
  Script.join comma
    [ str "Timestamp"; str "Student ID"; str "Encrypted Text"; str "Key";
      str "Decrypted Result" ].

(** [ClassSync.exportClassCSV] on the parsed log of the current class;
    [None] is the alert that no mission data was found. *)
Definition exportClassCSV (data : list Attempt) : option jsstring :=
  match data with
  | [] => None
  | _ => Some (Script.join [10%N] (csv_header :: map csv_row data))
  end.

(** *** LoopEngine *)

Record Snapshot := mkSnapshot {
  iteration : Z;
  inputChar : N;
  snapshotKey : Z;
  result : Script.DecodeResult;
  accumulated : jsstring
}.

Record State := mkState {
  encryptedText : jsstring;
  key : Z;
  currentIndex : Z;
  history : list Snapshot;
  isPlaying : bool;
  timer : option nat;
  accumulatedText : jsstring
}.

(** [intervals]: handle and period of the live timers; [thinkModeToggle]:
    what [$id('thinkModeToggle')?.checked] reads; [speedSlider]: the parsed
    value of the slider. *)
Record World := mkWorld {
  state : State;
  intervals : list (nat * Z);
  nextHandle : nat;
  thinkModeToggle : option bool;
  speedSlider : option number;
  missionComplete : nat
}.

Definition with_state (w : World) (s : State) : World :=
  mkWorld s (intervals w) (nextHandle w) (thinkModeToggle w) (speedSlider w)
          (missionComplete w).

Definition clearInterval (h : nat) (l : list (nat * Z)) : list (nat * Z) :=
  filter (fun t => negb (Nat.eqb (fst t) h)) l.

(** [LoopEngine.pause]: the handle stays in [timer]. *)
Definition pause (w : World) : World :=
  let s := state w in
  let live :=
    match timer s with
    | Some h => if Nat.eqb h 0 then intervals w else clearInterval h (intervals w)
    | None => intervals w
    end in
  mkWorld
    (mkState (encryptedText s) (key s) (currentIndex s) (history s)
             false (timer s) (accumulatedText s))
    live (nextHandle w) (thinkModeToggle w) (speedSlider w) (missionComplete w).

(** [LoopEngine.init]: the key, a finite integer, is stored as given. *)
Definition init (text : jsstring) (k : Z) (w : World) : World :=
  let w1 := pause w in
  with_state w1 (mkState text k (-1) [] false None []).

Definition showMissionComplete (w : World) : World :=
  mkWorld (state w) (intervals w) (nextHandle w) (thinkModeToggle w)
          (speedSlider w) (S (missionComplete w)).

(** [LoopEngine.nextStep] *)
Definition nextStep (w : World) : option World :=
  let s := state w in
  if currentIndex s >=? Script.len (encryptedText s) - 1 then
    let w1 := pause w in
    Some (if currentIndex s =? Script.len (encryptedText s) - 1
          then showMissionComplete w1 else w1)
  else
    let i := currentIndex s + 1 in
    match array_get (encryptedText s) i with
    | None => None
    | Some c =>
        match decryptChar c (key s) with
        | None => None
        | Some r =>
            let acc := accumulatedText s ++ Script.char r in
            let snapshot := mkSnapshot i c (key s) r acc in
            let w' := with_state w
              (mkState (encryptedText s) (key s) i (history s ++ [snapshot])
                       (isPlaying s) (timer s) acc) in
            let thinkMode := Script.checked false (thinkModeToggle w) in
            Some (if thinkMode && isPlaying s then pause w' else w')
        end
    end.

(** [LoopEngine.prevStep] *)
Definition prevStep (w : World) : World :=
  let w1 := pause w in
  let s := state w1 in
  if currentIndex s <? 0 then w1
  else
    let h := removelast (history s) in
    let acc :=
      match h with
      | [] => []
      | x :: h' => accumulated (last h' x)
      end in
    with_state w1
      (mkState (encryptedText s) (key s) (currentIndex s - 1) h
               (isPlaying s) (timer s) acc).

Definition SPEED_LEVELS : list Z := [2000; 1500; 1000; 500; 200].

Definition speed_of (slider : option number) : Z :=
  let speedIdx :=
    match slider with
    | Some (Int v) => clamp v 1 (Z.of_nat (length SPEED_LEVELS)) - 1
    | Some NaN => clamp 3 1 (Z.of_nat (length SPEED_LEVELS)) - 1
    | None => 2
    end in
  match array_get SPEED_LEVELS speedIdx with
  | Some 0 | None => 1000
  | Some ms => ms
  end.

(** [LoopEngine.play] *)
Definition play (w : World) : World :=
  let s := state w in
  if currentIndex s >=? Script.len (encryptedText s) - 1 then w
  else
    let h := nextHandle w in
    mkWorld
      (mkState (encryptedText s) (key s) (currentIndex s) (history s)
               true (Some h) (accumulatedText s))
      (intervals w ++ [(h, speed_of (speedSlider w))])
      (S h) (thinkModeToggle w) (speedSlider w) (missionComplete w).

Inductive event :=
  | Init (text : jsstring) (k : Z)
  | NextStep
  | PrevStep
  | Play
  | Pause
  | Tick (h : nat).

(** The interval callback is [LoopEngine.nextStep] itself. *)
Definition step (e : event) (w : World) : option World :=
  match e with
  | Init text k => Some (init text k w)
  | NextStep => nextStep w
  | PrevStep => Some (prevStep w)
  | Play => Some (play w)
  | Pause => Some (pause w)
  | Tick h =>
      if existsb (fun t => Nat.eqb (fst t) h) (intervals w)
      then nextStep w else Some w
  end.

Fixpoint run (es : list event) (w : World) : option World :=
  match es with
  | [] => Some w
  | e :: es' =>
      match step e w with
      | Some w' => run es' w'
      | None => None
      end
  end.

Definition boot (think : option bool) (slider : option number) : World :=
  mkWorld (mkState [] 3 (-1) [] false None []) [] 1 think slider 0.

End Sibling.


(** ** Vocabulary of the stated properties *)

Module Props.
Import Script.

(** A letter of the alphabet, in either case. *)
Definition is_letter (c : N) : bool := in_range 97 122 c || in_range 65 90 c.

(** The accumulated output a history stands for: that of its last snapshot,
    or the empty string. *)
Definition output_of (h : list Snapshot) : jsstring :=
  match h with
  | [] => []
  | x :: h' => accumulated (last h' x)
  end.

(** Cursor, history and accumulated output agree. *)
Definition consistent (s : State) : Prop :=
  -1 <= currentIndex s <= len (encryptedText s) - 1 /\
  Z.of_nat (length (history s)) = currentIndex s + 1 /\
  accumulatedText s = output_of (history s) /\
  0 <= key s <= 25.

(** The live intervals are exactly what [state.timer] records. *)
Definition timers_tracked (w : World) : Prop :=
  nextHandle w <> 0%nat /\
  match timer (state w) with
  | Some h =>
      isPlaying (state w) = true /\ h <> 0%nat /\ (h < nextHandle w)%nat /\
      exists ms, intervals w = [mkInterval h (length (retired w)) ms]
  | None => isPlaying (state w) = false /\ intervals w = []
  end.

(** Along the run of [es] from [w], [play] is only called while
    [isPlaying] is false (the keyboard handler's guard). *)
Fixpoint play_guarded (es : list event) (w : World) : bool :=
  match es with
  | [] => true
  | e :: es' =>
      match e with
      | Play => negb (isPlaying (state w))
      | _ => true
      end &&
      match step e w with
      | Some w' => play_guarded es' w'
      | None => true
      end
  end.

(** A page without the optional controls. *)
Definition bare : Dom := mkDom None None None.

(** Reading one quoted field the way a CSV reader does: after the opening
    quote, two quotes in a row stand for one, a single quote closes the
    field.  Returns the field and the text left after the closing quote. *)
Fixpoint read_quoted_body (s : jsstring) : option (jsstring * jsstring) :=
  match s with
  | [] => None
  | c :: s' =>
      if (c =? 34)%N then
        match s' with
        | d :: s'' =>
            if (d =? 34)%N then
              match read_quoted_body s'' with
              | Some (f, rest) => Some (34%N :: f, rest)
              | None => None
              end
            else Some ([], s')
        | [] => Some ([], [])
        end
      else
        match read_quoted_body s' with
        | Some (f, rest) => Some (c :: f, rest)
        | None => None
        end
  end.

Definition read_quoted_field (s : jsstring) : option (jsstring * jsstring) :=
  match s with
  | c :: s' => if (c =? 34)%N then read_quoted_body s' else None
  | [] => None
  end.

End Props.
Import Props.

(** ** Listeners and persistence around the engines *)

(** [script.js], [UIController.attachListeners]: the keyboard listener and
    the start-mission button. *)
Module ScriptUI.
Import Script.

(** The [keydown] listener on [e.key]: three tests in a row. *)
Definition keydown (k : jsstring) (w : World) : option World :=
  match (if jsstring_eqb k (str "ArrowRight") then nextStep w else Some w) with
  | None => None
  | Some w1 =>
      let w2 := if jsstring_eqb k (str "ArrowLeft") then prevStep w1 else w1 in
      Some (if jsstring_eqb k (str " ") || jsstring_eqb k (str "Spacebar")
            then (if isPlaying (state w2) then pause w2 else play w2)
            else w2)
  end.

(** The click listener of [btnStartMission]: [encrypted] is the value of
    the text input ([None]: no such element), [k] what [parseInt] made of the
    key input. *)
Definition startMission (encrypted : option jsstring) (k : option number)
  (w : World) : World :=
  let text := match encrypted with Some v => v | None => str "khoor zruog" end in
  let key := match k with Some n => n | None => Int DEFAULT_KEY end in
  init text key w.

(** What reaches the engine from a page driven by keyboard: key presses,
    the start button, the firing of a live interval, a change of the
    controls. *)
Inductive input :=
  | KeyDown (k : jsstring)
  | StartMission (encrypted : option jsstring) (k : option number)
  | Fires (h : nat)
  | Controls (d : Dom).

Definition handle_input (i : input) (w : World) : option World :=
  match i with
  | KeyDown k => keydown k w
  | StartMission encrypted k => Some (startMission encrypted k w)
  | Fires h => step (Tick h) w
  | Controls d => step (SetDom d) w
  end.

Fixpoint drive (ins : list input) (w : World) : option World :=
  match ins with
  | [] => Some w
  | i :: ins' =>
      match handle_input i w with
      | Some w' => drive ins' w'
      | None => None
      end
  end.

End ScriptUI.

(** The sibling version: [ClassSync] on [localStorage]. *)
Module SiblingSync.

(** What a key of [localStorage] holds: the JSON text of a class log,
    written as the log it parses to, or a plain text, which is not JSON (the
    empty text apart, nothing here parses it unless it sits under the key of
    a class, where [JSON.parse] raises on it). *)
Inductive item :=
  | Text (s : jsstring)
  | Log (entries : list Sibling.Attempt).

(** [ClassSync] and the storage it works on.  [denied]: every access to
    [localStorage] raises.  [warnings]: how many times [saveAttempt] alerted
    that it could not save.  Whether the storage takes a write (or raises,
    for lack of room) is not decided by this state: it is an argument,
    [accepts], of the operations that write. *)
Record Sync := mkSync {
  currentClassId : jsstring;
  currentStudentId : jsstring;
  storage : list (jsstring * item);
  denied : bool;
  warnings : nat
}.

Fixpoint getItem (k : jsstring) (l : list (jsstring * item)) : option item :=
  match l with
  | [] => None
  | (k', v) :: l' => if jsstring_eqb k' k then Some v else getItem k l'
  end.

Definition setItem (k : jsstring) (v : item) (l : list (jsstring * item))
  : list (jsstring * item) :=
  (k, v) :: filter (fun e => negb (jsstring_eqb (fst e) k)) l.

(** [x || d] on strings: the empty string is falsy. *)
Definition or_string (x d : jsstring) : jsstring :=
  match x with [] => d | _ => x end.

(** [ClassSync.storageKey] *)
Definition storageKey (classId : jsstring) : jsstring :=
  str "spyclass_" ++ or_string classId (str "default").

(** [ClassSync.setIdentity]; a failing write is ignored. *)
Definition setIdentity (classId studentId : jsstring) (accepts : bool) (s : Sync)
  : Sync :=
  let c := or_string classId (str "default") in
  let st := or_string studentId (str "agent_007") in
  mkSync c st
    (if denied s || negb accepts then storage s
     else setItem (str "lastClassId") (Text c) (storage s))
    (denied s) (warnings s).

(** [JSON.parse(localStorage.getItem(key) || '[]')].  [None]: the key holds
    a text that is not JSON, and [JSON.parse] raises. *)
Definition read_log (k : jsstring) (l : list (jsstring * item))
  : option (list Sibling.Attempt) :=
  match getItem k l with
  | None => Some []
  | Some (Log entries) => Some entries
  | Some (Text []) => Some []
  | Some (Text _) => None
  end.

(** What [UIController.showMissionComplete] hands to [saveAttempt]. *)
Record AttemptData := mkAttemptData {
  encrypted : jsstring;
  key : Z;
  finalDecrypted : jsstring
}.

Definition attemptData (s : Sibling.State) : AttemptData :=
  mkAttemptData (Sibling.encryptedText s) (Sibling.key s) (Sibling.accumulatedText s).

(** The [catch] of [saveAttempt]: the alert, and nothing stored. *)
Definition warned (s : Sync) : Sync :=
  mkSync (currentClassId s) (currentStudentId s) (storage s) (denied s)
         (S (warnings s)).

(** [ClassSync.saveAttempt] at the instant [now] (the ISO text of the
    clock).  Whatever raises inside is caught: with storage denied, the log
    unreadable or the write refused, nothing is stored, the warning is
    alerted and the call returns. *)
Definition saveAttempt (now : jsstring) (accepts : bool) (a : AttemptData) (s : Sync)
  : Sync :=
  if denied s then warned s
  else
    let k := storageKey (currentClassId s) in
    match read_log k (storage s) with
    | None => warned s
    | Some data =>
        let entry := Sibling.mkAttempt now (currentStudentId s) (encrypted a)
                       (key a) (finalDecrypted a) in
        if accepts then
          mkSync (currentClassId s) (currentStudentId s)
                 (setItem k (Log (data ++ [entry])) (storage s)) (denied s)
                 (warnings s)
        else warned s
    end.

Inductive outcome :=
  | Raises
  | NoData
  | Download (csv : jsstring).

(** [ClassSync.exportClassCSV], storage included; no handler around it. *)
Definition exportClassCSV (s : Sync) : outcome :=
  if denied s then Raises
  else
    match read_log (storageKey (currentClassId s)) (storage s) with
    | None => Raises
    | Some data =>
        match Sibling.exportClassCSV data with
        | None => NoData
        | Some csv => Download csv
        end
    end.

(** [ClassSync] as the script defines it, on an empty storage. *)
Definition fresh : Sync := mkSync (str "default") (str "unknown") [] false 0.

Inductive call :=
  | SetIdentity (classId studentId : jsstring) (accepts : bool)
  | SaveAttempt (now : jsstring) (accepts : bool) (a : AttemptData).

Definition perform (c : call) (s : Sync) : Sync :=
  match c with
  | SetIdentity classId studentId accepts => setIdentity classId studentId accepts s
  | SaveAttempt now accepts a => saveAttempt now accepts a s
  end.

Fixpoint perform_all (cs : list call) (s : Sync) : Sync :=
  match cs with
  | [] => s
  | c :: cs' => perform_all cs' (perform c s)
  end.

End SiblingSync.

(** The sibling version: the listener of the speed slider. *)
Module SiblingUI.
Import Sibling.

(** The [input] listener of the slider, after the slider took the value
    [v]: a running playback is restarted at the new speed. *)
Definition speedInput (v : option number) (w : World) : World :=
  let w0 := mkWorld (state w) (intervals w) (nextHandle w) (thinkModeToggle w) v
                    (missionComplete w) in
  if isPlaying (state w0) then play (pause w0) else w0.

(** The keyboard listener's branch for the space bar. *)
Definition togglePlay (w : World) : World :=
  if isPlaying (state w) then pause w else play w.

Inductive input :=
  | Engine (e : event)
  | SpeedInput (v : option number)
  | Space
  | ThinkToggle (t : option bool).

Definition handle_input (i : input) (w : World) : option World :=
  match i with
  | Engine e => step e w
  | SpeedInput v => Some (speedInput v w)
  | Space => Some (togglePlay w)
  | ThinkToggle t =>
      Some (mkWorld (state w) (intervals w) (nextHandle w) t (speedSlider w)
                    (missionComplete w))
  end.

Fixpoint drive (ins : list input) (w : World) : option World :=
  match ins with
  | [] => Some w
  | i :: ins' =>
      match handle_input i w with
      | Some w' => drive ins' w'
      | None => None
      end
  end.

(** Along the inputs, [play] itself is only called while nothing plays. *)
Fixpoint play_guarded (ins : list input) (w : World) : bool :=
  match ins with
  | [] => true
  | i :: ins' =>
      match i with
      | Engine Play => negb (isPlaying (state w))
      | _ => true
      end &&
      match handle_input i w with
      | Some w' => play_guarded ins' w'
      | None => true
      end
  end.

End SiblingUI.

(** The sibling version: the engine together with the class log, which
    [UIController.showMissionComplete] writes to. *)
Module SiblingPage.
Import Sibling.

(** [UIController.showMissionComplete] at the instant [now]: the attempt is
    saved first, from the state as it is. *)
Definition showMissionComplete (now : jsstring) (accepts : bool) (w : World)
  (s : SiblingSync.Sync) : World * SiblingSync.Sync :=
  (Sibling.showMissionComplete w,
   SiblingSync.saveAttempt now accepts (SiblingSync.attemptData (state w)) s).

(** [LoopEngine.nextStep] with the log: the branch at or past the last index
    in full, the advancing branch as in [Sibling.nextStep]. *)
Definition nextStep (now : jsstring) (accepts : bool) (w : World)
  (s : SiblingSync.Sync) : option (World * SiblingSync.Sync) :=
  let st := state w in
  if currentIndex st >=? Script.len (encryptedText st) - 1 then
    let w1 := pause w in
    if currentIndex st =? Script.len (encryptedText st) - 1
    then Some (showMissionComplete now accepts w1 s)
    else Some (w1, s)
  else
    match Sibling.nextStep w with
    | Some w' => Some (w', s)
    | None => None
    end.

End SiblingPage.

(** ** Vocabulary of the further properties *)

Module Props2.

(** The decoding of a whole text, one unit at a time. *)
Definition decoded (key : Z) (preserveCase : bool) (text : jsstring) : jsstring :=
  flat_map (fun c => match Script.decryptChar c key preserveCase with
                     | Some r => Script.char r
                     | None => []
                     end) text.

(** The snapshots of the symbols from position [i] on, given the output
    accumulated before them. *)
Fixpoint snapshots (key : Z) (preserveCase : bool) (i : Z) (acc : jsstring)
  (text : jsstring) : list Script.Snapshot :=
  match text with
  | [] => []
  | c :: text' =>
      match Script.decryptChar c key preserveCase with
      | Some r =>
          Script.mkSnapshot i c key r (acc ++ Script.char r)
            :: snapshots key preserveCase (i + 1) (acc ++ Script.char r) text'
      | None => []
      end
  end.

Definition sibling_output_of (h : list Sibling.Snapshot) : jsstring :=
  match h with
  | [] => []
  | x :: h' => Sibling.accumulated (last h' x)
  end.

Definition sibling_consistent (s : Sibling.State) : Prop :=
  -1 <= Sibling.currentIndex s <= Script.len (Sibling.encryptedText s) - 1 /\
  Z.of_nat (length (Sibling.history s)) = Sibling.currentIndex s + 1 /\
  Sibling.accumulatedText s = sibling_output_of (Sibling.history s).

(** In the sibling version [pause] leaves the handle in [state.timer]; what
    is live follows [isPlaying]. *)
Definition sibling_tracked (w : Sibling.World) : Prop :=
  Sibling.nextHandle w <> 0%nat /\
  if Sibling.isPlaying (Sibling.state w) then
    exists h, Sibling.timer (Sibling.state w) = Some h /\ h <> 0%nat /\
              (h < Sibling.nextHandle w)%nat /\
              Sibling.intervals w = [(h, Sibling.speed_of (Sibling.speedSlider w))]
  else Sibling.intervals w = [].

(** History and output are those of the prefix consumed so far, decoded
    with the stored key and the case setting [pc]. *)
Definition follows_text (pc : bool) (s : Script.State) : Prop :=
  Script.history s =
    snapshots (Script.key s) pc 0 []
      (firstn (Z.to_nat (Script.currentIndex s + 1)) (Script.encryptedText s)) /\
  Script.accumulatedText s =
    decoded (Script.key s) pc (firstn (Z.to_nat (Script.currentIndex s + 1)) (Script.encryptedText s)).

(** Playback under way with nothing to wait for. *)
Definition autoplaying (h : nat) (w : Script.World) : Prop :=
  consistent (Script.state w) /\ timers_tracked w /\
  Script.timer (Script.state w) = Some h /\
  Script.waitingForReveal (Script.state w) = false /\
  Script.checked false (Script.thinkModeToggle (Script.dom w)) = false.

(** No event of the list changes the controls of the page. *)
Definition controls_fixed (es : list Script.event) : bool :=
  forallb (fun e => match e with Script.SetDom _ => false | _ => true end) es.

(** The sibling engine's history records, snapshot by snapshot, the
    decoding of the prefixes of the ciphertext. *)
Definition sibling_follows (s : Sibling.State) : Prop :=
  map Sibling.accumulated (Sibling.history s) =
    map (fun j => decoded (Sibling.key s) true (firstn (S j) (Sibling.encryptedText s)))
        (seq 0 (length (Sibling.history s))).

Definition sibling_sound (w : Sibling.World) : Prop :=
  sibling_consistent (Sibling.state w) /\ sibling_follows (Sibling.state w) /\
  sibling_tracked w.

(** Every class key of the storage holds a log. *)
Definition logs_readable (l : list (jsstring * SiblingSync.item)) : Prop :=
  forall c, exists entries,
    SiblingSync.read_log (SiblingSync.storageKey c) l = Some entries.

(** A run and a storage to try the properties on: the sibling engine after
    [init] with [Ab c] and the key 29 and four steps, and a storage after an
    identity was set, an attempt saved and a write refused. *)
Definition demo_inputs : list SiblingUI.input :=
  [SiblingUI.Engine (Sibling.Init (str "Ab c") 29);
   SiblingUI.Engine Sibling.NextStep; SiblingUI.Engine Sibling.NextStep;
   SiblingUI.Engine Sibling.NextStep; SiblingUI.Engine Sibling.NextStep].

Definition demo_world : Sibling.World :=
  Eval vm_compute in
    match SiblingUI.drive demo_inputs (Sibling.boot None None) with
    | Some w => w
    | None => Sibling.boot None None
    end.

Definition demo_calls : list SiblingSync.call :=
  [SiblingSync.SetIdentity (str "7b") (str "ada") true;
   SiblingSync.SaveAttempt (str "2026-01-01T00:00:00.000Z") true
     (SiblingSync.mkAttemptData (str "khoor") 3 (str "hello"));
   SiblingSync.SaveAttempt (str "2026-01-01T00:05:00.000Z") false
     (SiblingSync.mkAttemptData (str "zruog") 3 (str "world"))].

Definition demo_sync : SiblingSync.Sync :=
  Eval vm_compute in SiblingSync.perform_all demo_calls SiblingSync.fresh.

End Props2.
Import Props2.

(** * Properties *)

Import Script.

(** ** Host arithmetic and arrays *)

Lemma jsstring_eqb_eq (a b : jsstring) : jsstring_eqb a b = true <-> a = b.
Proof.
  revert b; induction a as [|x a IH]; intros [|y b]; simpl;
    try (split; [discriminate | congruence]); try tauto.
  rewrite andb_true_iff, N.eqb_eq, IH. split.
  - intros [-> ->]; reflexivity.
  - intros H; injection H; auto.
Qed.

(** Up to 2^53 in magnitude an integer is its own double. *)
Lemma round_double_exact (z : Z) : Z.abs z <= two53 -> round_double z = z.
Proof.
  intros H. unfold round_double. now destruct (Z.leb_spec (Z.abs z) two53); [|lia].
Qed.

Lemma jssub_exact (a b : Z) :
  Z.abs a <= two53 -> Z.abs b <= two53 -> Z.abs (a - b) <= two53 ->
  jssub a b = a - b.
Proof.
  intros Ha Hb H. unfold jssub.
  now rewrite (round_double_exact a Ha), (round_double_exact b Hb), round_double_exact.
Qed.

(** Beyond 2^53 the double keeps the sign and stays beyond 2^53. *)
Lemma round_double_big (z : Z) :
  two53 < Z.abs z -> two53 <= Z.sgn z * round_double z.
Proof.
  intros H. unfold round_double.
  destruct (Z.leb_spec (Z.abs z) two53) as [|_]; [lia|].
  set (a := Z.abs z) in *.
  assert (Hl : 53 <= Z.log2 a).
  { change 53 with (Z.log2 two53). apply Z.log2_le_mono. lia. }
  set (e := Z.log2 a - 52).
  assert (He : 1 <= e) by (unfold e; lia).
  assert (Hp : 0 < 2 ^ e) by (apply Z.pow_pos_nonneg; lia).
  assert (Hq : 2 ^ 52 <= a / 2 ^ e).
  { apply Z.div_le_lower_bound; [exact Hp|].
    rewrite <- Z.pow_add_r by lia. replace (e + 52) with (Z.log2 a) by (unfold e; lia).
    apply Z.log2_spec. unfold two53 in H. lia. }
  set (q := a / 2 ^ e) in *.
  set (m := if a mod 2 ^ e <? 2 ^ (e - 1) then q
            else if 2 ^ (e - 1) <? a mod 2 ^ e then q + 1
            else if Z.even q then q else q + 1).
  assert (Hm : q <= m).
  { unfold m. destruct (a mod 2 ^ e <? 2 ^ (e - 1)); [lia|].
    destruct (2 ^ (e - 1) <? a mod 2 ^ e); [lia|]. destruct (Z.even q); lia. }
  assert (H2 : 2 <= 2 ^ e).
  { change 2 with (2 ^ 1) at 1. apply Z.pow_le_mono_r; lia. }
  assert (Hme : two53 <= m * 2 ^ e).
  { unfold two53. change 9007199254740992 with (2 ^ 52 * 2). nia. }
  replace (Z.sgn z * (Z.sgn z * (m * 2 ^ e))) with (m * 2 ^ e); [exact Hme|].
  destruct (Z.sgn_spec z) as [[? ->]|[[? ->]|[? ->]]]; unfold a, two53 in *; lia.
Qed.

Lemma clamp_round_double (z : Z) : clamp (round_double z) 0 25 = clamp z 0 25.
Proof.
  destruct (Z.le_gt_cases (Z.abs z) two53) as [H|H].
  - now rewrite round_double_exact.
  - pose proof (round_double_big z ltac:(lia)) as Hb. unfold clamp, two53 in *.
    destruct (Z.sgn_spec z) as [[? E]|[[? E]|[? E]]]; rewrite E in Hb; lia.
Qed.

Lemma round_double_zero (z : Z) : (round_double z =? 0) = (z =? 0).
Proof.
  destruct (Z.le_gt_cases (Z.abs z) two53) as [H|H].
  - now rewrite round_double_exact.
  - pose proof (round_double_big z ltac:(lia)) as Hb. unfold two53 in *.
    destruct (Z.eqb_spec (round_double z) 0) as [E|E];
      destruct (Z.eqb_spec z 0); try reflexivity; try rewrite E in Hb; lia.
Qed.

(** The double remainder is the mathematical residue of the difference the
    host computed, whatever its sign. *)
Lemma calculateNewPosition_mod (position key : Z) :
  calculateNewPosition position key = jssub position key mod 26.
Proof.
  unfold calculateNewPosition, jsrem.
  set (d := jssub position key).
  assert (Hb : -26 < Z.rem d 26 < 26).
  { pose proof (Z.rem_bound_abs d 26 ltac:(lia)); lia. }
  rewrite Z.rem_mod_nonneg by lia.
  pose proof (Z.quot_rem' d 26) as Hq.
  rewrite Hq at 2.
  replace (26 * (d ÷ 26) + Z.rem d 26)
    with (Z.rem d 26 + 26 + (d ÷ 26 - 1) * 26) by lia.
  now rewrite Z_mod_plus_full.
Qed.

(** On exact differences the new position is the residue of the
    difference. *)
Lemma calculateNewPosition_exact (position key : Z) :
  Z.abs position <= two53 -> Z.abs key <= two53 ->
  Z.abs (position - key) <= two53 ->
  calculateNewPosition position key = (position - key) mod 26.
Proof.
  intros Hp Hk H. now rewrite calculateNewPosition_mod, jssub_exact.
Qed.

Lemma calculateNewPosition_range (position key : Z) :
  0 <= calculateNewPosition position key <= 25.
Proof.
  rewrite calculateNewPosition_mod.
  pose proof (Z.mod_pos_bound (jssub position key) 26 ltac:(lia)); lia.
Qed.

Lemma indexOf_from_found (a : list jsstring) (x : jsstring) (s i : Z) :
  indexOf_from a x s = i -> i <> -1 -> 0 <= s ->
  s <= i < s + Z.of_nat (length a) /\ nth_error a (Z.to_nat (i - s)) = Some x.
Proof.
  revert s; induction a as [|y a IH]; simpl; intros s Hi Hne Hs.
  - congruence.
  - destruct (jsstring_eqb y x) eqn:E.
    + apply jsstring_eqb_eq in E. subst. split; [lia|].
      now rewrite Z.sub_diag.
    + destruct (IH (s + 1) Hi Hne ltac:(lia)) as [Hr Hn]. split; [lia|].
      replace (Z.to_nat (i - s)) with (S (Z.to_nat (i - (s + 1)))) by lia.
      exact Hn.
Qed.

Lemma indexOf_found (a : list jsstring) (x : jsstring) :
  indexOf a x <> -1 ->
  0 <= indexOf a x < Z.of_nat (length a) /\ array_get a (indexOf a x) = Some x.
Proof.
  intros Hne. unfold indexOf in *.
  destruct (indexOf_from_found a x 0 _ eq_refl Hne ltac:(lia)) as [Hr Hn].
  split; [lia|]. unfold array_get.
  destruct (Z.ltb_spec (indexOf_from a x 0) 0); [lia|].
  now rewrite Z.sub_0_r in Hn.
Qed.

(** The alphabet holds the letter of code unit [97 + n] at position [n]. *)
Lemma ALPHABET_get (n : Z) :
  0 <= n <= 25 -> array_get ALPHABET n = Some [Z.to_N (97 + n)].
Proof.
  intros H.
  assert (Hn : In n [0;1;2;3;4;5;6;7;8;9;10;11;12;13;14;15;16;17;18;19;20;
                     21;22;23;24;25]) by (simpl; lia).
  simpl in Hn.
  repeat (destruct Hn as [<-|Hn]; [reflexivity|]). contradiction.
Qed.

Lemma upper_of_letter (n : Z) :
  0 <= n <= 25 -> string_toUpperCase [Z.to_N (97 + n)] = [Z.to_N (65 + n)].
Proof.
  intros H.
  assert (Hn : In n [0;1;2;3;4;5;6;7;8;9;10;11;12;13;14;15;16;17;18;19;20;
                     21;22;23;24;25]) by (simpl; lia).
  simpl in Hn.
  repeat (destruct Hn as [<-|Hn]; [reflexivity|]). contradiction.
Qed.

(** ** CipherEngine *)

(** What [decryptChar] returns on a unit whose lower case is in the
    alphabet, in terms of the residue. *)
Lemma decryptChar_found (c : N) (key : Z) (preserveCase : bool) :
  indexOf ALPHABET (toLowerCase c) <> -1 ->
  decryptChar c key preserveCase =
    Some (mkResult false
            (if preserveCase && test_AZ c
             then [Z.to_N (65 + calculateNewPosition (indexOf ALPHABET (toLowerCase c)) key)]
             else [Z.to_N (97 + calculateNewPosition (indexOf ALPHABET (toLowerCase c)) key)])
            (indexOf ALPHABET (toLowerCase c))
            (calculateNewPosition (indexOf ALPHABET (toLowerCase c)) key)
            (Some (jssub (indexOf ALPHABET (toLowerCase c)) key))).
Proof.
  intros Hne. unfold decryptChar.
  destruct (Z.eqb_spec (indexOf ALPHABET (toLowerCase c)) (-1)) as [E|_];
    [contradiction|].
  pose proof (calculateNewPosition_range (indexOf ALPHABET (toLowerCase c)) key) as Hr.
  rewrite (ALPHABET_get _ Hr).
  destruct (preserveCase && test_AZ c); [|reflexivity].
  now rewrite (upper_of_letter _ Hr).
Qed.

Lemma decryptChar_special (c : N) (key : Z) (preserveCase : bool) :
  indexOf ALPHABET (toLowerCase c) = -1 ->
  decryptChar c key preserveCase = Some (mkResult true [c] (-1) (-1) None).
Proof.
  intros E. unfold decryptChar. now rewrite E.
Qed.

(** [decryptChar] never leaves the alphabet: it is total. *)
Lemma decryptChar_total (c : N) (key : Z) (preserveCase : bool) :
  exists r, decryptChar c key preserveCase = Some r.
Proof.
  destruct (Z.eq_dec (indexOf ALPHABET (toLowerCase c)) (-1)) as [E|E].
  - rewrite (decryptChar_special _ _ _ E); eauto.
  - rewrite (decryptChar_found _ _ _ E); eauto.
Qed.

(** The upper-case test of the sibling version reduces to the range test. *)
Lemma sibling_isUpper (c : N) :
  jsstring_eqb [c] (toUpperCase c) && test_AZ c = test_AZ c.
Proof.
  destruct (test_AZ c) eqn:E; [|apply andb_false_r].
  rewrite andb_true_r. apply jsstring_eqb_eq.
  unfold test_AZ in E. apply andb_true_iff in E as [H1 H2].
  apply N.leb_le in H1, H2.
  unfold toUpperCase, in_range.
  repeat match goal with
  | |- context [(?a <=? ?b)%N] => destruct (N.leb_spec a b); try lia
  | |- context [(?a =? ?b)%N] => destruct (N.eqb_spec a b); try lia
  end; reflexivity.
Qed.

Lemma sibling_decryptChar_eq (c : N) (key : Z) :
  Sibling.decryptChar c key = decryptChar c key true.
Proof.
  unfold Sibling.decryptChar, decryptChar.
  rewrite sibling_isUpper. reflexivity.
Qed.

(** C1. For a unit whose case-folded form is in the alphabet and any
    integer key, [decryptChar] (of either version) reports the position [i]
    of the folded letter, the raw shift [i - key] as the host computes it
    (the exact difference for every key up to 2^53 - 25 in magnitude, its
    nearest double beyond) and the new index
    [((rawShift % 26) + 26) % 26], which lies in [0,25] and is the residue of
    the raw shift modulo 26; the character returned is the alphabet letter at
    the new index, in upper case when [preserveCase] is set and the input
    matched [A-Z]. *)
Theorem decryptChar_letter (c : N) (key : Z) (preserveCase : bool) :
  indexOf ALPHABET (toLowerCase c) <> -1 ->
  exists i rawShift newIndex letter,
    i = indexOf ALPHABET (toLowerCase c) /\
    0 <= i <= 25 /\ array_get ALPHABET i = Some (toLowerCase c) /\
    rawShift = jssub i key /\
    (Z.abs key <= two53 - 25 -> rawShift = i - key) /\
    newIndex = jsrem (jsrem rawShift 26 + 26) 26 /\
    0 <= newIndex <= 25 /\ newIndex = rawShift mod 26 /\
    array_get ALPHABET newIndex = Some letter /\
    decryptChar c key preserveCase =
      Some (mkResult false
              (if preserveCase && test_AZ c then string_toUpperCase letter
               else letter)
              i newIndex (Some rawShift)) /\
    Sibling.decryptChar c key =
      Some (mkResult false
              (if test_AZ c then string_toUpperCase letter else letter)
              i newIndex (Some rawShift)).
Proof.
  intros Hne.
  destruct (indexOf_found ALPHABET _ Hne) as [Hi Hget]. simpl in Hi.
  pose proof (calculateNewPosition_range (indexOf ALPHABET (toLowerCase c)) key) as Hr.
  exists (indexOf ALPHABET (toLowerCase c)),
         (jssub (indexOf ALPHABET (toLowerCase c)) key),
         (calculateNewPosition (indexOf ALPHABET (toLowerCase c)) key),
         [Z.to_N (97 + calculateNewPosition (indexOf ALPHABET (toLowerCase c)) key)].
  split; [reflexivity|]. split; [lia|]. split; [exact Hget|].
  split; [reflexivity|].
  split; [intros Hk; apply jssub_exact; unfold two53 in *; lia|].
  split; [reflexivity|]. split; [exact Hr|].
  split; [apply calculateNewPosition_mod|].
  split; [now apply ALPHABET_get|].
  split.
  - rewrite (upper_of_letter _ Hr). now apply decryptChar_found.
  - rewrite sibling_decryptChar_eq, (upper_of_letter _ Hr).
    now rewrite (decryptChar_found c key true Hne).
Qed.

Lemma decryptChar_letter_witness :
  indexOf ALPHABET (toLowerCase 75) <> -1 /\
  exists i rawShift newIndex letter,
    i = indexOf ALPHABET (toLowerCase 75) /\
    0 <= i <= 25 /\ array_get ALPHABET i = Some (toLowerCase 75) /\
    rawShift = jssub i (-30) /\
    (Z.abs (-30) <= two53 - 25 -> rawShift = i - (-30)) /\
    newIndex = jsrem (jsrem rawShift 26 + 26) 26 /\
    0 <= newIndex <= 25 /\ newIndex = rawShift mod 26 /\
    array_get ALPHABET newIndex = Some letter /\
    decryptChar 75 (-30) true =
      Some (mkResult false
              (if true && test_AZ 75 then string_toUpperCase letter else letter)
              i newIndex (Some rawShift)) /\
    Sibling.decryptChar 75 (-30) =
      Some (mkResult false
              (if test_AZ 75 then string_toUpperCase letter else letter)
              i newIndex (Some rawShift)).
Proof.
  assert (H : indexOf ALPHABET (toLowerCase 75) <> -1)
    by (vm_compute; discriminate).
  split; [exact H | exact (decryptChar_letter 75 (-30) true H)].
Defined.

(** Beyond 2^53 the raw shift is the rounded difference: the letter [b]
    under the key 2^53 + 2 has the raw shift -2^53 and decodes to [u], and
    the letter [c] under the key -(2^53 - 1) has the raw shift 2^53; the key
    2^53 + 1 is held as 2^53; under the key 2^60 the letters [a] and [b]
    both decode to [m]. *)
Example decryptChar_large_keys :
  decryptChar 98 9007199254740994 true
    = Some (mkResult false (str "u") 1 20 (Some (-9007199254740992))) /\
  option_map rawCalculation (decryptChar 99 (-9007199254740991) true)
    = Some (Some 9007199254740992) /\
  option_map rawCalculation (decryptChar 98 9007199254740993 true)
    = Some (Some (-9007199254740991)) /\
  option_map char (decryptChar 97 1152921504606846976 true) = Some (str "m") /\
  option_map char (decryptChar 98 1152921504606846976 true) = Some (str "m") /\
  option_map char (decryptChar 98 14 true) = Some (str "n").
Proof. repeat split; vm_compute; reflexivity. Qed.

(** C7. A unit whose case-folded form is not in the alphabet comes back
    verbatim, flagged special, with both indices [-1] and a null raw shift,
    for every key and in both versions of the engine; [Some] says that
    nothing is raised. *)
Theorem decryptChar_passthrough (c : N) (key : Z) (preserveCase : bool) :
  indexOf ALPHABET (toLowerCase c) = -1 ->
  decryptChar c key preserveCase = Some (mkResult true [c] (-1) (-1) None) /\
  Sibling.decryptChar c key = Some (mkResult true [c] (-1) (-1) None).
Proof.
  intros E. rewrite sibling_decryptChar_eq.
  split; now apply decryptChar_special.
Qed.

Lemma decryptChar_passthrough_witness :
  indexOf ALPHABET (toLowerCase 32) = -1 /\
  decryptChar 32 3 false = Some (mkResult true [32%N] (-1) (-1) None) /\
  Sibling.decryptChar 32 3 = Some (mkResult true [32%N] (-1) (-1) None).
Proof.
  split; [reflexivity | exact (decryptChar_passthrough 32 3 false eq_refl)].
Defined.

(** C10. On every code unit and key the decoder of [script.js], called with
    its default [preserveCase = true], and the decoder of the sibling
    version return the same result, field by field. *)
Theorem decryptChar_versions_agree (c : N) (key : Z) :
  match decryptChar c key true, Sibling.decryptChar c key with
  | Some r, Some r' =>
      isSpecial r = isSpecial r' /\ char r = char r' /\
      originalIndex r = originalIndex r' /\ newIndex r = newIndex r' /\
      rawCalculation r = rawCalculation r'
  | _, _ => False
  end.
Proof.
  rewrite sibling_decryptChar_eq.
  destruct (decryptChar_total c key true) as [r ->]. tauto.
Qed.

(** ** Round trip under the complementary key *)

Ltac each_index H :=
  match type of H with
  | 0 <= ?n <= 25 =>
      let Hn := fresh "Hn" in
      assert (Hn : In n [0;1;2;3;4;5;6;7;8;9;10;11;12;13;14;15;16;17;18;19;
                         20;21;22;23;24;25]) by (simpl; lia);
      simpl in Hn;
      repeat (destruct Hn as [<-|Hn]; [reflexivity|]); contradiction
  end.

Lemma index_of_lower (n : Z) :
  0 <= n <= 25 -> indexOf ALPHABET (toLowerCase (Z.to_N (97 + n))) = n.
Proof. intros H; each_index H. Qed.

Lemma index_of_upper (n : Z) :
  0 <= n <= 25 -> indexOf ALPHABET (toLowerCase (Z.to_N (65 + n))) = n.
Proof. intros H; each_index H. Qed.

Lemma test_AZ_lower (n : Z) : 0 <= n <= 25 -> test_AZ (Z.to_N (97 + n)) = false.
Proof. intros H; each_index H. Qed.

Lemma test_AZ_upper (n : Z) : 0 <= n <= 25 -> test_AZ (Z.to_N (65 + n)) = true.
Proof. intros H; each_index H. Qed.

Lemma complementary_index (i k : Z) :
  0 <= i <= 25 -> 0 <= k <= 25 ->
  calculateNewPosition (calculateNewPosition i k) (jsrem (26 - k) 26) = i.
Proof.
  intros Hi Hk. unfold jsrem at 1. rewrite Z.rem_mod_nonneg by lia.
  pose proof (Z.mod_pos_bound (26 - k) 26 ltac:(lia)) as Hc.
  pose proof (calculateNewPosition_range i k) as Hr.
  rewrite (calculateNewPosition_exact (calculateNewPosition i k))
    by (unfold two53; lia).
  rewrite (calculateNewPosition_exact i k) by (unfold two53; lia).
  rewrite Zminus_mod_idemp_l, Zminus_mod_idemp_r.
  replace (i - k - (26 - k)) with (i + (-1) * 26) by lia.
  rewrite Z_mod_plus_full. apply Z.mod_small; lia.
Qed.

Lemma is_letter_cases (c : N) :
  is_letter c = true ->
  exists i, 0 <= i <= 25 /\ (c = Z.to_N (97 + i) \/ c = Z.to_N (65 + i)).
Proof.
  unfold is_letter, in_range. intros H.
  apply orb_true_iff in H as [H|H]; apply andb_true_iff in H as [H1 H2];
    apply N.leb_le in H1, H2.
  - exists (Z.of_N c - 97). split; [lia|]. left; lia.
  - exists (Z.of_N c - 65). split; [lia|]. right; lia.
Qed.

(** One decoding of a letter, by its index and case. *)
Lemma decryptChar_lower (i key : Z) (preserveCase : bool) :
  0 <= i <= 25 ->
  decryptChar (Z.to_N (97 + i)) key preserveCase =
    Some (mkResult false [Z.to_N (97 + calculateNewPosition i key)] i
            (calculateNewPosition i key) (Some (jssub i key))).
Proof.
  intros Hi. rewrite decryptChar_found; rewrite (index_of_lower _ Hi); [|lia].
  now rewrite (test_AZ_lower _ Hi), andb_false_r.
Qed.

Lemma decryptChar_upper (i key : Z) (preserveCase : bool) :
  0 <= i <= 25 ->
  decryptChar (Z.to_N (65 + i)) key preserveCase =
    Some (mkResult false
            [Z.to_N ((if preserveCase then 65 else 97) + calculateNewPosition i key)]
            i (calculateNewPosition i key) (Some (jssub i key))).
Proof.
  intros Hi. rewrite decryptChar_found; rewrite (index_of_upper _ Hi); [|lia].
  rewrite (test_AZ_upper _ Hi), andb_true_r. now destruct preserveCase.
Qed.

Lemma lower_in_range (n : Z) :
  0 <= n <= 25 -> in_range 97 122 (Z.to_N (97 + n)) = true.
Proof. intros H; each_index H. Qed.

Lemma upper_not_lower (n : Z) :
  0 <= n <= 25 ->
  in_range 97 122 (Z.to_N (65 + n)) = false /\
  toLowerCase (Z.to_N (65 + n)) = [Z.to_N (97 + n)].
Proof. intros H; split; each_index H. Qed.

(** C6. For a key [k] in [0,25] and a letter, decoding with [k] and
    decoding the result with [(26 - k) % 26] gives the letter back: always
    for a letter of the alphabet (lower case), and for an upper-case letter
    when [preserveCase] is on (the default; off, its lower-case form comes
    back).  The sibling version returns the letter in both cases, and on
    indices the new position of the new position is the index itself. *)
Theorem roundtrip_complementary_key (k : Z) (c : N) (preserveCase : bool) :
  0 <= k <= 25 -> is_letter c = true ->
  exists r1 d r2 s1 e s2,
    decryptChar c k preserveCase = Some r1 /\ char r1 = [d] /\
    decryptChar d (jsrem (26 - k) 26) preserveCase = Some r2 /\
    char r2 = (if preserveCase || in_range 97 122 c then [c] else toLowerCase c) /\
    calculateNewPosition (newIndex r1) (jsrem (26 - k) 26) = originalIndex r1 /\
    Sibling.decryptChar c k = Some s1 /\ char s1 = [e] /\
    Sibling.decryptChar e (jsrem (26 - k) 26) = Some s2 /\ char s2 = [c].
Proof.
  intros Hk Hc.
  destruct (is_letter_cases c Hc) as (i & Hi & [-> | ->]);
    pose proof (calculateNewPosition_range i k) as Hr;
    pose proof (complementary_index i k Hi Hk) as Hrt.
  - exists (mkResult false [Z.to_N (97 + calculateNewPosition i k)] i
              (calculateNewPosition i k) (Some (jssub i k))),
           (Z.to_N (97 + calculateNewPosition i k)),
           (mkResult false [Z.to_N (97 + i)] (calculateNewPosition i k) i
              (Some (jssub (calculateNewPosition i k) (jsrem (26 - k) 26)))),
           (mkResult false [Z.to_N (97 + calculateNewPosition i k)] i
              (calculateNewPosition i k) (Some (jssub i k))),
           (Z.to_N (97 + calculateNewPosition i k)),
           (mkResult false [Z.to_N (97 + i)] (calculateNewPosition i k) i
              (Some (jssub (calculateNewPosition i k) (jsrem (26 - k) 26)))).
    rewrite !sibling_decryptChar_eq, !(decryptChar_lower i k _ Hi),
            !(decryptChar_lower _ (jsrem (26 - k) 26) _ Hr), Hrt,
            (lower_in_range i Hi), orb_true_r.
    cbn [char newIndex originalIndex].
    repeat split; solve [reflexivity | exact Hrt].
  - destruct (upper_not_lower i Hi) as (Hnl & Hlow).
    exists (mkResult false
              [Z.to_N ((if preserveCase then 65 else 97) + calculateNewPosition i k)] i
              (calculateNewPosition i k) (Some (jssub i k))),
           (Z.to_N ((if preserveCase then 65 else 97) + calculateNewPosition i k)),
           (mkResult false [Z.to_N ((if preserveCase then 65 else 97) + i)]
              (calculateNewPosition i k) i
              (Some (jssub (calculateNewPosition i k) (jsrem (26 - k) 26)))),
           (mkResult false [Z.to_N (65 + calculateNewPosition i k)] i
              (calculateNewPosition i k) (Some (jssub i k))),
           (Z.to_N (65 + calculateNewPosition i k)),
           (mkResult false [Z.to_N (65 + i)] (calculateNewPosition i k) i
              (Some (jssub (calculateNewPosition i k) (jsrem (26 - k) 26)))).
    rewrite !sibling_decryptChar_eq, !(decryptChar_upper i k _ Hi),
            (decryptChar_upper _ (jsrem (26 - k) 26) true Hr), Hrt, Hnl, Hlow.
    cbn [char newIndex originalIndex].
    destruct preserveCase; cbn [orb].
    + rewrite (decryptChar_upper _ (jsrem (26 - k) 26) true Hr), Hrt.
      repeat split; solve [reflexivity | exact Hrt].
    + rewrite (decryptChar_lower _ (jsrem (26 - k) 26) false Hr), Hrt.
      repeat split; solve [reflexivity | exact Hrt].
Qed.

Lemma roundtrip_complementary_key_witness :
  0 <= 3 <= 25 /\ is_letter 75 = true /\
  exists r1 d r2 s1 e s2,
    decryptChar 75 3 true = Some r1 /\ char r1 = [d] /\
    decryptChar d (jsrem (26 - 3) 26) true = Some r2 /\
    char r2 = (if true || in_range 97 122 75 then [75%N] else toLowerCase 75) /\
    calculateNewPosition (newIndex r1) (jsrem (26 - 3) 26) = originalIndex r1 /\
    Sibling.decryptChar 75 3 = Some s1 /\ char s1 = [e] /\
    Sibling.decryptChar e (jsrem (26 - 3) 26) = Some s2 /\ char s2 = [75%N].
Proof.
  assert (Hk : 0 <= 3 <= 25) by lia.
  split; [exact Hk|]. split; [reflexivity|].
  exact (roundtrip_complementary_key 3 75 true Hk eq_refl).
Defined.

(** Key [0] is the identity shift on the alphabet. *)
Lemma key_zero_identity (i : Z) (preserveCase : bool) :
  0 <= i <= 25 ->
  option_map char (decryptChar (Z.to_N (97 + i)) 0 preserveCase)
    = Some [Z.to_N (97 + i)].
Proof.
  intros Hi. rewrite (decryptChar_lower i 0 preserveCase Hi).
  rewrite calculateNewPosition_exact by (unfold two53; lia).
  rewrite Z.sub_0_r, Z.mod_small by lia. reflexivity.
Qed.

(** ** LoopEngine: cursor, history and accumulated output *)

Lemma output_of_snoc (h : list Snapshot) (x : Snapshot) :
  output_of (h ++ [x]) = accumulated x.
Proof.
  destruct h as [|y h]; simpl; [reflexivity|].
  now rewrite last_last.
Qed.

Lemma array_get_in_range {A : Type} (a : list A) (i : Z) :
  0 <= i < Z.of_nat (length a) -> exists x, array_get a i = Some x.
Proof.
  intros H. unfold array_get.
  destruct (Z.ltb_spec i 0); [lia|].
  destruct (nth_error a (Z.to_nat i)) eqn:E; [eauto|].
  apply nth_error_None in E. lia.
Qed.

Lemma pause_state (w : World) :
  state (pause w) =
    mkState (encryptedText (state w)) (key (state w)) (currentIndex (state w))
            (history (state w)) false None (accumulatedText (state w))
            (waitingForReveal (state w)).
Proof. reflexivity. Qed.

Lemma consistent_pause (w : World) :
  consistent (state w) -> consistent (state (pause w)).
Proof. intros H; exact H. Qed.

(** A forward step in the middle of the text: the cursor moves by one, one
    snapshot is pushed, one decoded character is added. *)
Lemma nextStep_advance (w : World) :
  consistent (state w) ->
  currentIndex (state w) < len (encryptedText (state w)) - 1 ->
  exists w' c r,
    nextStep w = Some w' /\
    array_get (encryptedText (state w)) (currentIndex (state w) + 1) = Some c /\
    decryptChar c (key (state w)) (checked true (preserveCaseToggle (dom w))) = Some r /\
    encryptedText (state w') = encryptedText (state w) /\
    key (state w') = key (state w) /\
    currentIndex (state w') = currentIndex (state w) + 1 /\
    history (state w') =
      history (state w) ++
        [mkSnapshot (currentIndex (state w) + 1) c (key (state w)) r
                    (accumulatedText (state w) ++ char r)] /\
    accumulatedText (state w') = accumulatedText (state w) ++ char r /\
    missionComplete w' = missionComplete w.
Proof.
  intros (Hci & Hlen & Hacc & Hk) Hlt.
  destruct (array_get_in_range (encryptedText (state w)) (currentIndex (state w) + 1))
    as [c Hc]; [unfold len in Hlt; lia|].
  destruct (decryptChar_total c (key (state w))
              (checked true (preserveCaseToggle (dom w)))) as [r Hr].
  unfold nextStep.
  destruct (Z.geb_spec (currentIndex (state w)) (len (encryptedText (state w)) - 1));
    [lia|].
  rewrite Hc, Hr.
  destruct (checked false (thinkModeToggle (dom w)) && isPlaying (state w));
    eexists _, c, r; repeat split; solve [reflexivity | assumption].
Qed.

(** A forward step at or past the last index: nothing moves, and at the last
    index the completion is signalled. *)
Lemma nextStep_at_end (w : World) :
  currentIndex (state w) >= len (encryptedText (state w)) - 1 ->
  exists w',
    nextStep w = Some w' /\
    encryptedText (state w') = encryptedText (state w) /\
    key (state w') = key (state w) /\
    currentIndex (state w') = currentIndex (state w) /\
    history (state w') = history (state w) /\
    accumulatedText (state w') = accumulatedText (state w) /\
    missionComplete w' =
      if currentIndex (state w) =? len (encryptedText (state w)) - 1
      then S (missionComplete w) else missionComplete w.
Proof.
  intros Hge. unfold nextStep.
  destruct (Z.geb_spec (currentIndex (state w)) (len (encryptedText (state w)) - 1));
    [|lia].
  destruct (currentIndex (state w) =? len (encryptedText (state w)) - 1);
    eexists; repeat split; reflexivity.
Qed.

Lemma nextStep_consistent (w : World) :
  consistent (state w) ->
  exists w', nextStep w = Some w' /\ consistent (state w').
Proof.
  intros Hc.
  destruct (Z_lt_ge_dec (currentIndex (state w)) (len (encryptedText (state w)) - 1))
    as [Hlt|Hge].
  - destruct (nextStep_advance w Hc Hlt)
      as (w' & c & r & Hn & _ & _ & Ht & Hk & Hi & Hh & Ha & _).
    exists w'. split; [exact Hn|].
    destruct Hc as (Hci & Hlen & Hacc & Hkey).
    unfold consistent. rewrite Ht, Hk, Hi, Hh, Ha, output_of_snoc.
    rewrite length_app. simpl. repeat split; try lia.
  - destruct (nextStep_at_end w Hge) as (w' & Hn & Ht & Hk & Hi & Hh & Ha & _).
    exists w'. split; [exact Hn|].
    unfold consistent. now rewrite Ht, Hk, Hi, Hh, Ha.
Qed.

Lemma prevStep_back (w : World) :
  consistent (state w) -> 0 <= currentIndex (state w) ->
  encryptedText (state (prevStep w)) = encryptedText (state w) /\
  key (state (prevStep w)) = key (state w) /\
  currentIndex (state (prevStep w)) = currentIndex (state w) - 1 /\
  history (state (prevStep w)) = removelast (history (state w)) /\
  accumulatedText (state (prevStep w)) = output_of (removelast (history (state w))).
Proof.
  intros _ Hge. unfold prevStep. rewrite pause_state. cbn [currentIndex].
  destruct (Z.ltb_spec (currentIndex (state w)) 0); [lia|].
  repeat split; reflexivity.
Qed.

Lemma prevStep_idle (w : World) :
  currentIndex (state w) < 0 ->
  encryptedText (state (prevStep w)) = encryptedText (state w) /\
  key (state (prevStep w)) = key (state w) /\
  currentIndex (state (prevStep w)) = currentIndex (state w) /\
  history (state (prevStep w)) = history (state w) /\
  accumulatedText (state (prevStep w)) = accumulatedText (state w).
Proof.
  intros Hlt. unfold prevStep. rewrite pause_state. cbn [currentIndex].
  destruct (Z.ltb_spec (currentIndex (state w)) 0); [|lia].
  repeat split; reflexivity.
Qed.

Lemma removelast_shorter {A : Type} (l : list A) :
  l <> [] -> S (length (removelast l)) = length l.
Proof.
  intros H. destruct (exists_last H) as (l' & a & ->).
  rewrite removelast_last, length_app. simpl. lia.
Qed.

Lemma prevStep_consistent (w : World) :
  consistent (state w) -> consistent (state (prevStep w)).
Proof.
  intros Hc.
  destruct (Z_lt_ge_dec (currentIndex (state w)) 0) as [Hlt|Hge].
  - destruct (prevStep_idle w Hlt) as (Ht & Hk & Hi & Hh & Ha).
    unfold consistent. now rewrite Ht, Hk, Hi, Hh, Ha.
  - destruct (prevStep_back w Hc ltac:(lia)) as (Ht & Hk & Hi & Hh & Ha).
    destruct Hc as (Hci & Hlen & Hacc & Hkey).
    unfold consistent. rewrite Ht, Hk, Hi, Hh, Ha.
    assert (Hne : history (state w) <> []).
    { intros E. rewrite E in Hlen. simpl in Hlen. lia. }
    pose proof (removelast_shorter _ Hne). repeat split; lia.
Qed.

Lemma clamp_range (n lo hi : Z) : lo <= hi -> lo <= clamp n lo hi <= hi.
Proof. unfold clamp; lia. Qed.

Lemma init_consistent (text : jsstring) (k : number) (w : World) :
  consistent (state (init text k w)).
Proof.
  unfold consistent, init. cbn [state encryptedText key currentIndex history accumulatedText].
  pose proof (clamp_range (key_or_default k) 0 25 ltac:(lia)).
  unfold len. simpl. repeat split; lia.
Qed.

Lemma step_consistent (e : event) (w : World) :
  consistent (state w) ->
  exists w', step e w = Some w' /\ consistent (state w').
Proof.
  intros Hc. destruct e; cbn [step];
    try (eexists; split; [reflexivity|]).
  - apply init_consistent.
  - now apply nextStep_consistent.
  - now apply prevStep_consistent.
  - unfold play.
    destruct (currentIndex (state w) >=? len (encryptedText (state w)) - 1);
      exact Hc.
  - exact Hc.
  - apply init_consistent.
  - exact Hc.
  - exact Hc.
  - destruct (find _ _) as [t|]; [|eexists; split; [reflexivity|exact Hc]].
    unfold tick. destruct (waitingForReveal (closed_over w t)).
    + eexists; split; [reflexivity|exact Hc].
    + now apply nextStep_consistent.
  - exact Hc.
Qed.

Lemma run_consistent (es : list event) (w : World) :
  consistent (state w) ->
  exists w', run es w = Some w' /\ consistent (state w').
Proof.
  revert w; induction es as [|e es IH]; intros w Hc; cbn [run].
  - eauto.
  - destruct (step_consistent e w Hc) as (w1 & -> & Hc1). now apply IH.
Qed.

Lemma boot_consistent (d : Dom) : consistent (state (boot d)).
Proof. unfold consistent, boot, len, DEFAULT_KEY; simpl. repeat split; lia. Qed.

(** C4. From the page as loaded, after every sequence of events (calls of
    any entry point, among them [nextStep] at the last index and [prevStep]
    at [-1], timer ticks, changes of the controls) the engine has run
    without raising and [history.length] equals [currentIndex + 1], with the
    cursor between [-1] and the last index. *)
Theorem history_length_invariant (d : Dom) (es : list event) :
  exists w,
    run es (boot d) = Some w /\
    Z.of_nat (length (history (state w))) = currentIndex (state w) + 1 /\
    -1 <= currentIndex (state w) <= len (encryptedText (state w)) - 1.
Proof.
  destruct (run_consistent es (boot d) (boot_consistent d))
    as (w & Hr & Hci & Hlen & _).
  exists w. repeat split; try assumption; lia.
Qed.

(** ** Stepping forward and back *)

Lemma run_forward (m : nat) (w : World) :
  consistent (state w) ->
  exists w1,
    run (repeat NextStep m) w = Some w1 /\ consistent (state w1) /\
    encryptedText (state w1) = encryptedText (state w) /\
    currentIndex (state w1) =
      Z.min (currentIndex (state w) + Z.of_nat m) (len (encryptedText (state w)) - 1).
Proof.
  revert w; induction m as [|m IH]; intros w Hc.
  - exists w. cbn [repeat run]. split; [reflexivity|]. split; [exact Hc|].
    split; [reflexivity|]. destruct Hc as (Hci & _). lia.
  - cbn [repeat run step].
    destruct (Z_lt_ge_dec (currentIndex (state w)) (len (encryptedText (state w)) - 1))
      as [Hlt|Hge].
    + destruct (nextStep_advance w Hc Hlt)
        as (w' & c & r & Hn & _ & _ & Ht & _ & Hi & _).
      destruct (nextStep_consistent w Hc) as (w'' & Hn' & Hc').
      rewrite Hn in Hn'. injection Hn' as <-. rewrite Hn.
      destruct (IH w' Hc') as (w1 & Hr & Hc1 & Ht1 & Hi1).
      exists w1. rewrite Ht1, Hi1, Ht, Hi.
      split; [exact Hr|]. split; [exact Hc1|]. split; [reflexivity|]. lia.
    + destruct (nextStep_at_end w Hge) as (w' & Hn & Ht & _ & Hi & _).
      destruct (nextStep_consistent w Hc) as (w'' & Hn' & Hc').
      rewrite Hn in Hn'. injection Hn' as <-. rewrite Hn.
      destruct (IH w' Hc') as (w1 & Hr & Hc1 & Ht1 & Hi1).
      destruct Hc as ((_ & Hup) & _).
      exists w1. rewrite Ht1, Hi1, Ht, Hi.
      split; [exact Hr|]. split; [exact Hc1|]. split; [reflexivity|]. lia.
Qed.

Lemma run_backward (m : nat) (w : World) :
  consistent (state w) ->
  exists w2,
    run (repeat PrevStep m) w = Some w2 /\ consistent (state w2) /\
    currentIndex (state w2) = Z.max (currentIndex (state w) - Z.of_nat m) (-1).
Proof.
  revert w; induction m as [|m IH]; intros w Hc.
  - exists w. cbn [repeat run]. split; [reflexivity|]. split; [exact Hc|].
    destruct Hc as (Hci & _). lia.
  - cbn [repeat run step].
    pose proof (prevStep_consistent w Hc) as Hc'.
    destruct (IH _ Hc') as (w2 & Hr & Hc2 & Hi2).
    exists w2. split; [exact Hr|]. split; [exact Hc2|].
    rewrite Hi2.
    destruct (Z_lt_ge_dec (currentIndex (state w)) 0) as [Hlt|Hge].
    + destruct (prevStep_idle w Hlt) as (_ & _ & Hi & _). rewrite Hi.
      destruct Hc as ((Hlo & _) & _). lia.
    + destruct (prevStep_back w Hc ltac:(lia)) as (_ & _ & Hi & _). rewrite Hi. lia.
Qed.

Lemma idle_of_consistent (s : State) :
  consistent s -> currentIndex s = -1 ->
  history s = [] /\ accumulatedText s = [].
Proof.
  intros (_ & Hlen & Hacc & _) Hi. rewrite Hi in Hlen.
  assert (E : history s = []) by (destruct (history s); [reflexivity | simpl in Hlen; lia]).
  split; [exact E|]. now rewrite Hacc, E.
Qed.

(** [prevStep] undoes one [nextStep] on cursor, history and output. *)
Lemma prevStep_nextStep (w w' : World) :
  consistent (state w) ->
  currentIndex (state w) < len (encryptedText (state w)) - 1 ->
  nextStep w = Some w' ->
  currentIndex (state (prevStep w')) = currentIndex (state w) /\
  history (state (prevStep w')) = history (state w) /\
  accumulatedText (state (prevStep w')) = accumulatedText (state w).
Proof.
  intros Hc Hlt Hn.
  destruct (nextStep_advance w Hc Hlt)
    as (w1 & c & r & Hn1 & _ & _ & _ & _ & Hi & Hh & _).
  rewrite Hn in Hn1. injection Hn1 as <-.
  destruct (nextStep_consistent w Hc) as (w2 & Hn2 & Hc').
  rewrite Hn in Hn2. injection Hn2 as <-.
  destruct Hc as ((Hlo & _) & _ & Hacc & _).
  destruct (prevStep_back w' Hc' ltac:(lia)) as (_ & _ & Hi' & Hh' & Ha').
  rewrite Hi', Hh', Ha', Hh, Hi, removelast_last, Hacc.
  repeat split; lia.
Qed.

(** C3. After [init] (called in any world), [m] forward steps bring the
    cursor to [min(m, length) - 1], so to the last index once [m] reaches
    the length of the ciphertext, and [m] backward steps then leave the
    cursor at [-1], the history empty and the accumulated output empty, for
    every ciphertext, key and [m].  And in every world reached from the
    loaded page, unless the cursor is at the last index, [prevStep] after
    [nextStep] restores cursor, history and accumulated output. *)
Theorem forward_then_backward
  (w0 : World) (text : jsstring) (k : number) (m : nat) (d : Dom) (es : list event) :
  (exists w1 w2,
     run (Init text k :: repeat NextStep m) w0 = Some w1 /\
     currentIndex (state w1) = Z.min (Z.of_nat m) (len text) - 1 /\
     Z.of_nat (length (history (state w1))) = Z.min (Z.of_nat m) (len text) /\
     run (repeat PrevStep m) w1 = Some w2 /\
     currentIndex (state w2) = -1 /\
     history (state w2) = [] /\
     accumulatedText (state w2) = []) /\
  (exists w,
     run es (boot d) = Some w /\
     (currentIndex (state w) = len (encryptedText (state w)) - 1 \/
      exists w',
        nextStep w = Some w' /\
        currentIndex (state (prevStep w')) = currentIndex (state w) /\
        history (state (prevStep w')) = history (state w) /\
        accumulatedText (state (prevStep w')) = accumulatedText (state w))).
Proof.
  split.
  - cbn [run step].
    destruct (run_forward m (init text k w0) (init_consistent text k w0))
      as (w1 & Hr1 & Hc1 & Ht1 & Hi1).
    destruct (run_backward m w1 Hc1) as (w2 & Hr2 & Hc2 & Hi2).
    cbn [init state encryptedText currentIndex] in Ht1, Hi1.
    assert (Hidle : currentIndex (state w2) = -1).
    { rewrite Hi2, Hi1. unfold len. lia. }
    destruct (idle_of_consistent _ Hc2 Hidle) as (Hh & Ha).
    exists w1, w2. destruct Hc1 as (_ & Hlen & _).
    unfold len in *.
    split; [exact Hr1|]. split; [lia|]. split; [lia|]. split; [exact Hr2|].
    split; [exact Hidle|]. split; assumption.
  - destruct (run_consistent es (boot d) (boot_consistent d)) as (w & Hr & Hc).
    exists w. split; [exact Hr|].
    destruct (Z_lt_ge_dec (currentIndex (state w)) (len (encryptedText (state w)) - 1))
      as [Hlt|Hge].
    + right. destruct (nextStep_consistent w Hc) as (w' & Hn & _).
      exists w'. split; [exact Hn|]. now apply prevStep_nextStep.
    + left. destruct Hc as ((_ & Hup) & _). lia.
Qed.

(** The first scenario of the design document. *)
Example khoor_zruog :
  option_map (fun w => accumulatedText (state w))
    (run (Init (str "khoor zruog") (Int 3) :: repeat NextStep 11) (boot bare))
  = Some (str "hello world").
Proof. vm_compute. reflexivity. Qed.

(** ** The completion signal *)

(** Counting the signals: of [m] forward steps, those taken once the cursor
    is at the last index each call [showMissionComplete]. *)
Lemma run_forward_signals (m : nat) (w : World) :
  consistent (state w) ->
  exists w1,
    run (repeat NextStep m) w = Some w1 /\
    missionComplete w1 =
      (missionComplete w +
       (m - Z.to_nat (len (encryptedText (state w)) - 1 - currentIndex (state w))))%nat.
Proof.
  revert w; induction m as [|m IH]; intros w Hc.
  - exists w. cbn [repeat run]. split; [reflexivity | lia].
  - cbn [repeat run step].
    destruct (nextStep_consistent w Hc) as (w' & Hn & Hc'). rewrite Hn.
    destruct (IH w' Hc') as (w1 & Hr & Hm). exists w1. split; [exact Hr|].
    rewrite Hm.
    destruct (Z_lt_ge_dec (currentIndex (state w)) (len (encryptedText (state w)) - 1))
      as [Hlt|Hge].
    + destruct (nextStep_advance w Hc Hlt)
        as (w2 & c & r & Hn2 & _ & _ & Ht & _ & Hi & _ & _ & Hmc).
      rewrite Hn in Hn2. injection Hn2 as <-. rewrite Ht, Hi, Hmc. lia.
    + destruct (nextStep_at_end w Hge) as (w2 & Hn2 & Ht & _ & Hi & _ & _ & Hmc).
      rewrite Hn in Hn2. injection Hn2 as <-. rewrite Ht, Hi, Hmc.
      destruct Hc as ((_ & Hup) & _).
      destruct (Z.eqb_spec (currentIndex (state w)) (len (encryptedText (state w)) - 1));
        lia.
Qed.

(** X7. Every call of [nextStep] made with the cursor at the last index signals
    again: [n] calls past the end give [n] signals. *)
Lemma completion_signalled_on_every_call
  (w0 : World) (text : jsstring) (k : number) (n : nat) :
  exists w,
    run (Init text k :: repeat NextStep (length text + n)) w0 = Some w /\
    currentIndex (state w) = len text - 1 /\
    missionComplete w = (missionComplete w0 + n)%nat.
Proof.
  cbn [run step].
  destruct (run_forward_signals (length text + n) (init text k w0)
              (init_consistent text k w0)) as (w & Hr & Hm).
  destruct (run_forward (length text + n) (init text k w0)
              (init_consistent text k w0)) as (w' & Hr' & _ & _ & Hi).
  rewrite Hr in Hr'. injection Hr' as <-.
  exists w. split; [exact Hr|].
  cbn [init state encryptedText currentIndex missionComplete pause] in Hm, Hi.
  unfold len in *. split; lia.
Qed.

(** On the empty ciphertext the first [nextStep] signals at once, with an
    empty output. *)
Lemma empty_ciphertext_completes (w0 : World) (k : number) :
  exists w,
    run [Init [] k; NextStep] w0 = Some w /\
    accumulatedText (state w) = [] /\
    missionComplete w = S (missionComplete w0).
Proof. eexists. repeat split. Qed.

(** C2, evaluated: on the ciphertext [a] the first [nextStep] consumes the
    letter, the second finds the cursor at the last index, leaves it there
    and signals, and the third signals again; both versions of the engine
    count two signals in the one run. *)
Theorem completion_signalled_twice :
  (exists w,
     run [Init (str "a") (Int 3); NextStep; NextStep; NextStep] (boot bare) = Some w /\
     currentIndex (state w) = 0 /\ missionComplete w = 2%nat) /\
  (exists w,
     Sibling.run [Sibling.Init (str "a") 3; Sibling.NextStep; Sibling.NextStep;
                  Sibling.NextStep] (Sibling.boot None None) = Some w /\
     Sibling.currentIndex (Sibling.state w) = 0 /\
     Sibling.missionComplete w = 2%nat).
Proof.
  split; eexists; (split; [vm_compute; reflexivity|]); split; reflexivity.
Qed.

(** ** The key stored by [init] *)

(** Below 10^21 [parseInt] gives the number back. *)
Lemma key_or_default_below (z : Z) :
  Z.abs (round_double z) < ten21 ->
  key_or_default (Int z) = if z =? 0 then DEFAULT_KEY else round_double z.
Proof.
  intros H. unfold key_or_default, parseInt10. cbv zeta.
  destruct (Z.ltb_spec (Z.abs (round_double z)) ten21); [|lia].
  now rewrite round_double_zero.
Qed.

Lemma key_or_default_small (z : Z) :
  Z.abs z <= two53 ->
  key_or_default (Int z) = if z =? 0 then DEFAULT_KEY else z.
Proof.
  intros H. rewrite key_or_default_below; rewrite (round_double_exact z H).
  - reflexivity.
  - unfold two53, ten21 in *. lia.
Qed.

(** Every non-zero key whose double is below 10^21 in magnitude is stored
    clamped. *)
Lemma init_key_clamped (text : jsstring) (z : Z) (w : World) :
  z <> 0 -> Z.abs (round_double z) < ten21 ->
  key (state (init text (Int z) w)) = clamp z 0 25 /\
  0 <= key (state (init text (Int z) w)) <= 25.
Proof.
  intros Hz Hb. cbn [init state key]. rewrite (key_or_default_below z Hb).
  destruct (Z.eqb_spec z 0); [contradiction|].
  rewrite clamp_round_double.
  split; [reflexivity | apply clamp_range; lia].
Qed.

Lemma sibling_init_key (text : jsstring) (z : Z) (w : Sibling.World) :
  Sibling.key (Sibling.state (Sibling.init text z w)) = z.
Proof. reflexivity. Qed.

(** C5, evaluated: [init] called with the key [0] stores the default key
    [3], for every ciphertext and in every world: [0] is in range, and is
    replaced rather than kept. *)
Theorem init_key_zero_defaults (text : jsstring) (w : World) :
  clamp 0 0 25 = 0 /\ key (state (init text (Int 0) w)) = 3.
Proof. split; reflexivity. Qed.

(** ** The CSV export *)

Lemma read_quoted_body_doubled (s rest : jsstring) :
  (forall rest', rest <> 34%N :: rest') ->
  read_quoted_body (double_quotes s ++ 34%N :: rest) = Some (s, rest).
Proof.
  intros Hrest. induction s as [|c s IH].
  - simpl. destruct rest as [|d rest']; [reflexivity|].
    destruct (N.eqb_spec d 34) as [->|_]; [|reflexivity].
    exfalso. now apply (Hrest rest').
  - unfold double_quotes in *. cbn [flat_map].
    destruct (N.eqb_spec c 34) as [->|Hc].
    + cbn [app read_quoted_body N.eqb Pos.eqb]. now rewrite IH.
    + cbn [app read_quoted_body].
      destruct (N.eqb_spec c 34); [contradiction|]. now rewrite IH.
Qed.

(** The sibling version's row: the five fields in order, joined by commas,
    with student id, ciphertext and final output in quotes and every quote
    embedded in the last two doubled. *)
Lemma sibling_row_fields (r : Sibling.Attempt) :
  Sibling.csv_row r =
    Script.join (str ",")
      [ Sibling.timestamp r;
        Sibling.quote ++ Sibling.studentId r ++ Sibling.quote;
        Sibling.quote ++ double_quotes (Sibling.encrypted r) ++ Sibling.quote;
        string_of_Z (Sibling.attemptKey r);
        Sibling.quote ++ double_quotes (Sibling.finalDecrypted r) ++ Sibling.quote ].
Proof.
  unfold Sibling.csv_row, Sibling.comma. cbn [Script.join].
  change (str ",") with [44%N].
  repeat rewrite <- app_assoc. reflexivity.
Qed.

(** A CSV reader gets an escaped field back, whatever it holds. *)
Lemma sibling_field_read_back (s rest : jsstring) :
  (forall rest', rest <> 34%N :: rest') ->
  read_quoted_field (Sibling.quote ++ double_quotes s ++ Sibling.quote ++ rest)
    = Some (s, rest).
Proof.
  intros Hrest. unfold Sibling.quote. cbn [app read_quoted_field N.eqb Pos.eqb].
  now apply read_quoted_body_doubled.
Qed.

(** C9, evaluated on [script.js]: for a stored attempt whose ciphertext is
    [a], a double quote, [b], the third field of the row is the ciphertext
    between quotes with the embedded quote left single, which a CSV reader
    ends after [a]; and the row has a sixth field. *)
Theorem script_row_quote_not_doubled :
  let r := mkAttempt (str "2026-01-01T00:00:00.000Z") (str "agent")
             [97; 34; 98]%N 3 [120; 34; 121]%N (str "[]") in
  nth 2 (csv_fields r) [] = [34; 97; 34; 98; 34]%N /\
  read_quoted_field (nth 2 (csv_fields r) []) = Some ([97%N], [98; 34]%N) /\
  nth 4 (csv_fields r) [] = [34; 120; 34; 121; 34]%N /\
  length (csv_fields r) = 6%nat.
Proof. repeat split; reflexivity. Qed.

(** The same attempt in the sibling version: both fields come back whole. *)
Example sibling_row_quote_doubled :
  let r := Sibling.mkAttempt (str "2026-01-01T00:00:00.000Z") (str "agent")
             [97; 34; 98]%N 3 [120; 34; 121]%N in
  Sibling.csv_row r =
    str "2026-01-01T00:00:00.000Z" ++ [44%N] ++ [34; 97; 103; 101; 110; 116; 34; 44]%N
      ++ [34; 97; 34; 34; 98; 34; 44]%N ++ [51; 44]%N
      ++ [34; 120; 34; 34; 121; 34]%N.
Proof. reflexivity. Qed.

(** ** Timers *)

Lemma tracked_same (w w' : World) :
  nextHandle w' = nextHandle w ->
  timer (state w') = timer (state w) ->
  isPlaying (state w') = isPlaying (state w) ->
  intervals w' = intervals w ->
  length (retired w') = length (retired w) ->
  timers_tracked w -> timers_tracked w'.
Proof.
  unfold timers_tracked. intros -> -> -> -> ->. exact (fun H => H).
Qed.

(** [pause] cancels the timer the state records. *)
Lemma pause_tracked (w : World) :
  timers_tracked w -> timers_tracked (pause w) /\ intervals (pause w) = [].
Proof.
  unfold timers_tracked, pause. cbn [state timer isPlaying intervals nextHandle].
  intros (Hn & H). destruct (timer (state w)) as [h|].
  - destruct H as (_ & Hh & _ & ms & ->).
    destruct (Nat.eqb_spec h 0); [contradiction|].
    unfold clearInterval. cbn [filter handle]. rewrite Nat.eqb_refl. cbn [negb].
    repeat split; assumption.
  - destruct H as (_ & ->). repeat split; assumption.
Qed.

Lemma showMissionComplete_tracked (w : World) :
  timers_tracked w -> timers_tracked (showMissionComplete w).
Proof. exact (fun H => H). Qed.

Lemma nextStep_tracked (w w' : World) :
  timers_tracked w -> nextStep w = Some w' -> timers_tracked w'.
Proof.
  intros Ht. unfold nextStep.
  destruct (currentIndex (state w) >=? len (encryptedText (state w)) - 1).
  - intros [= <-]. destruct (pause_tracked w Ht) as (Hp & _).
    destruct (currentIndex (state w) =? len (encryptedText (state w)) - 1);
      [apply showMissionComplete_tracked|]; exact Hp.
  - destruct (array_get _ _) as [c|]; [|discriminate].
    destruct (decryptChar _ _ _) as [r|]; [|discriminate].
    intros [= <-].
    match goal with
    | |- timers_tracked (if _ then pause ?x else ?x) =>
        assert (Hx : timers_tracked x) by (apply (tracked_same w); auto)
    end.
    destruct (checked false (thinkModeToggle (dom w)) && isPlaying (state w));
      [apply pause_tracked|]; exact Hx.
Qed.

(** [nextStep] called at or past the last index cancels the timer. *)
Lemma nextStep_at_end_cancels (w w' : World) :
  timers_tracked w ->
  currentIndex (state w) >= len (encryptedText (state w)) - 1 ->
  nextStep w = Some w' -> intervals w' = [].
Proof.
  intros Ht Hge. unfold nextStep.
  destruct (Z.geb_spec (currentIndex (state w)) (len (encryptedText (state w)) - 1));
    [|lia].
  destruct (pause_tracked w Ht) as (_ & Hp).
  intros [= <-].
  destruct (currentIndex (state w) =? len (encryptedText (state w)) - 1); exact Hp.
Qed.

Lemma prevStep_tracked (w : World) :
  timers_tracked w -> timers_tracked (prevStep w) /\ intervals (prevStep w) = [].
Proof.
  intros Ht. destruct (pause_tracked w Ht) as (Hp & Hi). unfold prevStep.
  destruct (currentIndex (state (pause w)) <? 0); [split; assumption|].
  split; [apply (tracked_same (pause w)); auto | exact Hi].
Qed.

Lemma init_tracked (text : jsstring) (k : number) (w : World) :
  timers_tracked w ->
  timers_tracked (init text k w) /\ intervals (init text k w) = [].
Proof.
  intros Ht. destruct (pause_tracked w Ht) as ((Hn & _) & Hi).
  unfold timers_tracked, init. cbn [state timer isPlaying intervals nextHandle].
  repeat split; assumption.
Qed.

(** [play] called while nothing plays leaves exactly its own timer. *)
Lemma play_tracked (w : World) :
  timers_tracked w -> isPlaying (state w) = false -> timers_tracked (play w).
Proof.
  intros Ht Hp. unfold play.
  destruct (currentIndex (state w) >=? len (encryptedText (state w)) - 1);
    [exact Ht|].
  destruct Ht as (Hn & H). unfold timers_tracked.
  cbn [state timer isPlaying intervals nextHandle retired].
  destruct (timer (state w)) as [h|].
  - destruct H as (Hq & _). congruence.
  - destruct H as (_ & ->). cbn [app].
    repeat split; try lia; try assumption. eexists; reflexivity.
Qed.

Lemma step_tracked (e : event) (w w' : World) :
  timers_tracked w ->
  match e with Play => isPlaying (state w) = false | _ => True end ->
  step e w = Some w' -> timers_tracked w'.
Proof.
  intros Ht Hg. destruct e; cbn [step].
  - intros [= <-]. now apply init_tracked.
  - now apply nextStep_tracked.
  - intros [= <-]. now apply prevStep_tracked.
  - intros [= <-]. now apply play_tracked.
  - intros [= <-]. now apply pause_tracked.
  - intros [= <-]. now apply init_tracked.
  - intros [= <-]. now apply (tracked_same w).
  - intros [= <-]. now apply (tracked_same w).
  - destruct (find _ _) as [t|]; [|now intros [= <-]].
    unfold tick. destruct (waitingForReveal (closed_over w t)).
    + intros [= <-]. now apply pause_tracked.
    + now apply nextStep_tracked.
  - intros [= <-]. now apply (tracked_same w).
Qed.

Lemma run_tracked (es : list event) (w : World) :
  consistent (state w) -> timers_tracked w -> play_guarded es w = true ->
  exists w', run es w = Some w' /\ consistent (state w') /\ timers_tracked w'.
Proof.
  revert w; induction es as [|e es IH]; intros w Hc Ht Hg; cbn [run].
  - eauto.
  - cbn [play_guarded] in Hg. apply andb_true_iff in Hg as (Hg1 & Hg2).
    destruct (step_consistent e w Hc) as (w1 & Hs & Hc1).
    rewrite Hs in *. apply (IH w1 Hc1); [|exact Hg2].
    apply (step_tracked e w w1 Ht); [|exact Hs].
    destruct e; try exact I. now apply negb_true_iff.
Qed.

Lemma boot_tracked (d : Dom) : timers_tracked (boot d).
Proof. unfold timers_tracked, boot; simpl. repeat split; lia. Qed.

Lemma tracked_at_most_one (w : World) :
  timers_tracked w -> (length (intervals w) <= 1)%nat.
Proof.
  intros (_ & H). destruct (timer (state w)).
  - destruct H as (_ & _ & _ & ms & ->). simpl; lia.
  - destruct H as (_ & ->). simpl; lia.
Qed.

(** C8, as the code has it.  In every sequence of events from the loaded
    page in which [play] is called only while [isPlaying] is false, the
    engine runs without raising, at most one interval is live and it is the
    one [state.timer] records; [pause], [prevStep] and [init] cancel it
    before anything else, and [nextStep] cancels it when the cursor is at or
    past the last index. *)
Theorem guarded_play_one_timer (d : Dom) (es : list event) :
  play_guarded es (boot d) = true ->
  exists w,
    run es (boot d) = Some w /\
    (length (intervals w) <= 1)%nat /\
    timers_tracked w /\
    intervals (pause w) = [] /\
    intervals (prevStep w) = [] /\
    (forall text k, intervals (init text k w) = []) /\
    (forall w', currentIndex (state w) >= len (encryptedText (state w)) - 1 ->
                nextStep w = Some w' -> intervals w' = []).
Proof.
  intros Hg.
  destruct (run_tracked es (boot d) (boot_consistent d) (boot_tracked d) Hg)
    as (w & Hr & _ & Ht).
  exists w. split; [exact Hr|]. split; [now apply tracked_at_most_one|].
  split; [exact Ht|]. split; [now apply pause_tracked|].
  split; [now apply prevStep_tracked|].
  split; [intros text k; now apply init_tracked|].
  intros w'. now apply nextStep_at_end_cancels.
Qed.

Lemma guarded_play_one_timer_witness :
  play_guarded [Init (str "ab") (Int 3); Play; Tick 1; PrevStep; Play; NextStep]
               (boot bare) = true /\
  exists w,
    run [Init (str "ab") (Int 3); Play; Tick 1; PrevStep; Play; NextStep]
        (boot bare) = Some w /\
    (length (intervals w) <= 1)%nat /\
    timers_tracked w /\
    intervals (pause w) = [] /\
    intervals (prevStep w) = [] /\
    (forall text k, intervals (init text k w) = []) /\
    (forall w', currentIndex (state w) >= len (encryptedText (state w)) - 1 ->
                nextStep w = Some w' -> intervals w' = []).
Proof.
  assert (H : play_guarded
                [Init (str "ab") (Int 3); Play; Tick 1; PrevStep; Play; NextStep]
                (boot bare) = true) by (vm_compute; reflexivity).
  split; [exact H | exact (guarded_play_one_timer bare _ H)].
Defined.

(** C8 as stated fails: [play] does not cancel the interval of an earlier
    [play], so two calls leave two live intervals, of which [state.timer]
    records the second only; and in the second run below, with think mode
    off, a [nextStep] in the middle of the text leaves the running interval
    in place.  The sibling version does the same on two calls of [play]. *)
Lemma play_twice_two_timers :
  (exists w,
     run [Init (str "ab") (Int 3); Play; Play] (boot bare) = Some w /\
     map handle (intervals w) = [1%nat; 2%nat] /\
     timer (state w) = Some 2%nat /\
     ~ (length (intervals w) <= 1)%nat) /\
  (exists w,
     run [Init (str "ab") (Int 3); Play; NextStep] (boot bare) = Some w /\
     currentIndex (state w) = 0 /\ map handle (intervals w) = [1%nat]) /\
  (exists w,
     Sibling.run [Sibling.Init (str "ab") 3; Sibling.Play; Sibling.Play]
                 (Sibling.boot None None) = Some w /\
     map fst (Sibling.intervals w) = [1%nat; 2%nat] /\
     ~ (length (Sibling.intervals w) <= 1)%nat).
Proof.
  split; [|split]; eexists; (split; [vm_compute; reflexivity|]);
    repeat split; try reflexivity; simpl; lia.
Qed.

(** * Further properties of the code *)

(** ** CipherEngine: shifts compose *)

(** The properties of this section are about keys for which the host
    subtracts exactly.  Beyond, they fail: position 0 shifted by 2^60 twice
    is 12, shifted once by 2^61 it is 24; and 2^60 is 14 + 26 j, yet position
    1 is shifted to 12 by the one and to 13 by the other. *)
Example calculateNewPosition_large_keys :
  calculateNewPosition (calculateNewPosition 0 1152921504606846976)
                       1152921504606846976 = 12 /\
  calculateNewPosition 0 (1152921504606846976 + 1152921504606846976) = 24 /\
  1152921504606846976 = 14 + 26 * 44343134792571037 /\
  calculateNewPosition 1 (14 + 26 * 44343134792571037) = 12 /\
  calculateNewPosition 1 14 = 13.
Proof. repeat split; vm_compute; reflexivity. Qed.

Lemma shift_compose (position k1 k2 : Z) :
  Z.abs position <= two53 -> Z.abs k1 <= two53 -> Z.abs (k1 + k2) <= two53 ->
  Z.abs (position - k1) <= two53 -> Z.abs k2 <= two53 - 25 ->
  Z.abs (position - (k1 + k2)) <= two53 ->
  calculateNewPosition (calculateNewPosition position k1) k2
    = calculateNewPosition position (k1 + k2).
Proof.
  intros Hp Hk1 Hk H1 H2 H3.
  pose proof (calculateNewPosition_range position k1) as Hr.
  rewrite (calculateNewPosition_exact (calculateNewPosition position k1) k2)
    by (unfold two53 in *; lia).
  rewrite (calculateNewPosition_exact position k1 Hp Hk1 H1),
          (calculateNewPosition_exact position (k1 + k2) Hp Hk H3),
          Zminus_mod_idemp_l.
  f_equal. lia.
Qed.

(** X1. Two shifts in a row are the shift by the sum of the keys, for all
    integer positions and keys (negative ones included) whose magnitudes add
    up to at most 2^53 - 25, where the host subtracts exactly; in both
    versions; the result lies in [0,25]. *)
Theorem calculateNewPosition_compose (position k1 k2 : Z) :
  Z.abs position + Z.abs k1 + Z.abs k2 <= two53 - 25 ->
  calculateNewPosition (calculateNewPosition position k1) k2
    = calculateNewPosition position (k1 + k2) /\
  Sibling.calculateNewPosition (Sibling.calculateNewPosition position k1) k2
    = Sibling.calculateNewPosition position (k1 + k2) /\
  0 <= calculateNewPosition position (k1 + k2) <= 25.
Proof.
  intros H. split; [|split].
  - apply shift_compose; unfold two53 in *; lia.
  - change Sibling.calculateNewPosition with calculateNewPosition.
    apply shift_compose; unfold two53 in *; lia.
  - apply calculateNewPosition_range.
Qed.

Lemma calculateNewPosition_compose_witness :
  Z.abs 3 + Z.abs (-40) + Z.abs 9007199254740000 <= two53 - 25 /\
  calculateNewPosition (calculateNewPosition 3 (-40)) 9007199254740000
    = calculateNewPosition 3 ((-40) + 9007199254740000) /\
  Sibling.calculateNewPosition (Sibling.calculateNewPosition 3 (-40)) 9007199254740000
    = Sibling.calculateNewPosition 3 ((-40) + 9007199254740000) /\
  0 <= calculateNewPosition 3 ((-40) + 9007199254740000) <= 25.
Proof.
  assert (H : Z.abs 3 + Z.abs (-40) + Z.abs 9007199254740000 <= two53 - 25)
    by (vm_compute; discriminate).
  split; [exact H | exact (calculateNewPosition_compose 3 (-40) 9007199254740000 H)].
Defined.

(** Keys that differ by a multiple of 26 shift alike. *)
Lemma calculateNewPosition_period (position key j : Z) :
  Z.abs position <= two53 -> Z.abs key <= two53 -> Z.abs (key + 26 * j) <= two53 ->
  Z.abs (position - key) <= two53 -> Z.abs (position - (key + 26 * j)) <= two53 ->
  calculateNewPosition position (key + 26 * j) = calculateNewPosition position key.
Proof.
  intros Hp Hk Hj H1 H2. rewrite !calculateNewPosition_exact by assumption.
  replace (position - (key + 26 * j)) with (position - key + (- j) * 26) by lia.
  apply Z_mod_plus_full.
Qed.

(** X2. Within the keys of magnitude up to 2^53 - 25 the decoder sees a key
    only modulo 26: character, flag and both indices are those of any
    congruent key in that range (the raw shift alone differs). *)
Theorem decryptChar_key_period (c : N) (key j : Z) (preserveCase : bool) :
  Z.abs key <= two53 - 25 -> Z.abs (key + 26 * j) <= two53 - 25 ->
  exists r r',
    decryptChar c key preserveCase = Some r /\
    decryptChar c (key + 26 * j) preserveCase = Some r' /\
    char r' = char r /\ isSpecial r' = isSpecial r /\
    originalIndex r' = originalIndex r /\ newIndex r' = newIndex r.
Proof.
  intros H1 H2.
  destruct (Z.eq_dec (indexOf ALPHABET (toLowerCase c)) (-1)) as [E|E].
  - rewrite !(decryptChar_special _ _ _ E). eexists _, _. repeat split.
  - destruct (indexOf_found ALPHABET _ E) as [Hi _]. simpl in Hi.
    rewrite !(decryptChar_found _ _ _ E).
    rewrite calculateNewPosition_period by (unfold two53 in *; lia).
    eexists _, _. repeat split.
Qed.

Lemma decryptChar_key_period_witness :
  Z.abs 14 <= two53 - 25 /\ Z.abs (14 + 26 * (-3000000)) <= two53 - 25 /\
  exists r r',
    decryptChar 98 14 false = Some r /\
    decryptChar 98 (14 + 26 * (-3000000)) false = Some r' /\
    char r' = char r /\ isSpecial r' = isSpecial r /\
    originalIndex r' = originalIndex r /\ newIndex r' = newIndex r.
Proof.
  assert (H1 : Z.abs 14 <= two53 - 25) by (vm_compute; discriminate).
  assert (H2 : Z.abs (14 + 26 * (-3000000)) <= two53 - 25)
    by (vm_compute; discriminate).
  split; [exact H1|]. split; [exact H2|].
  exact (decryptChar_key_period 98 14 (-3000000) false H1 H2).
Defined.

(** The unit a decoding returns: one unit, a letter of the case the result
    was given. *)
Lemma decryptChar_shape (c : N) (key : Z) (preserveCase : bool) :
  (indexOf ALPHABET (toLowerCase c) = -1 /\
   decryptChar c key preserveCase = Some (mkResult true [c] (-1) (-1) None)) \/
  (exists i, 0 <= i <= 25 /\ indexOf ALPHABET (toLowerCase c) = i /\
     decryptChar c key preserveCase =
       Some (mkResult false
               [Z.to_N ((if preserveCase && test_AZ c then 65 else 97)
                        + calculateNewPosition i key)]
               i (calculateNewPosition i key) (Some (jssub i key)))).
Proof.
  destruct (Z.eq_dec (indexOf ALPHABET (toLowerCase c)) (-1)) as [E|E].
  - left. split; [exact E | now apply decryptChar_special].
  - right. exists (indexOf ALPHABET (toLowerCase c)).
    destruct (indexOf_found ALPHABET _ E) as [Hi _]. simpl in Hi.
    split; [lia|]. split; [reflexivity|].
    rewrite (decryptChar_found _ _ _ E).
    now destruct (preserveCase && test_AZ c).
Qed.

(** Every decoding yields exactly one code unit. *)
Lemma decryptChar_one_unit (c : N) (key : Z) (preserveCase : bool) (r : DecodeResult) :
  decryptChar c key preserveCase = Some r -> length (char r) = 1%nat.
Proof.
  destruct (decryptChar_shape c key preserveCase) as [(_ & ->) | (i & _ & _ & ->)];
    intros [= <-]; reflexivity.
Qed.

(** X3. Decoding with [k1] and decoding the result with [k2] gives the
    character that decoding with [k1 + k2] gives: for every code unit
    (letters of either case, and units passed through), both settings of
    [preserveCase], and all integer keys such that [k1], [k2] and their sum
    are at most 2^53 - 25 in magnitude. *)
Theorem decryptChar_compose (c : N) (k1 k2 : Z) (preserveCase : bool) :
  Z.abs k1 <= two53 - 25 -> Z.abs k2 <= two53 - 25 ->
  Z.abs (k1 + k2) <= two53 - 25 ->
  exists r1 d r2 r,
    decryptChar c k1 preserveCase = Some r1 /\ char r1 = [d] /\
    decryptChar d k2 preserveCase = Some r2 /\
    decryptChar c (k1 + k2) preserveCase = Some r /\
    char r2 = char r.
Proof.
  intros B1 B2 B3.
  destruct (decryptChar_shape c k1 preserveCase) as [(E & H1) | (i & Hi & E & H1)].
  - exists (mkResult true [c] (-1) (-1) None), c,
           (mkResult true [c] (-1) (-1) None), (mkResult true [c] (-1) (-1) None).
    rewrite !(decryptChar_special _ _ _ E). repeat split.
  - assert (Hne : indexOf ALPHABET (toLowerCase c) <> -1) by lia.
    pose proof (calculateNewPosition_range i k1) as Hr.
    assert (Hc : calculateNewPosition (calculateNewPosition i k1) k2
                 = calculateNewPosition i (k1 + k2))
      by (apply shift_compose; unfold two53 in *; lia).
    rewrite H1, (decryptChar_found c (k1 + k2) _ Hne), E.
    destruct (preserveCase && test_AZ c) eqn:Hu.
    + apply andb_true_iff in Hu as (-> & _).
      eexists _, _, _, _. split; [reflexivity|]. split; [reflexivity|].
      rewrite (decryptChar_upper _ k2 true Hr), Hc.
      repeat split.
    + eexists _, _, _, _. split; [reflexivity|]. split; [reflexivity|].
      rewrite (decryptChar_lower _ k2 preserveCase Hr), Hc.
      repeat split.
Qed.

Lemma decryptChar_compose_witness :
  Z.abs (-40) <= two53 - 25 /\ Z.abs 1000003 <= two53 - 25 /\
  Z.abs ((-40) + 1000003) <= two53 - 25 /\
  exists r1 d r2 r,
    decryptChar 75 (-40) true = Some r1 /\ char r1 = [d] /\
    decryptChar d 1000003 true = Some r2 /\
    decryptChar 75 ((-40) + 1000003) true = Some r /\
    char r2 = char r.
Proof.
  assert (H1 : Z.abs (-40) <= two53 - 25) by (vm_compute; discriminate).
  assert (H2 : Z.abs 1000003 <= two53 - 25) by (vm_compute; discriminate).
  assert (H3 : Z.abs ((-40) + 1000003) <= two53 - 25) by (vm_compute; discriminate).
  split; [exact H1|]. split; [exact H2|]. split; [exact H3|].
  exact (decryptChar_compose 75 (-40) 1000003 true H1 H2 H3).
Defined.

Lemma calculateNewPosition_inj (i1 i2 key : Z) :
  Z.abs key <= two53 - 25 ->
  0 <= i1 <= 25 -> 0 <= i2 <= 25 ->
  calculateNewPosition i1 key = calculateNewPosition i2 key -> i1 = i2.
Proof.
  intros B H1 H2 E.
  rewrite !calculateNewPosition_exact in E by (unfold two53 in *; lia).
  assert (E' : (i1 - key + key) mod 26 = (i2 - key + key) mod 26)
    by (rewrite <- (Zplus_mod_idemp_l (i1 - key)), E, Zplus_mod_idemp_l; reflexivity).
  replace (i1 - key + key) with i1 in E' by lia.
  replace (i2 - key + key) with i2 in E' by lia.
  rewrite !Z.mod_small in E' by lia. exact E'.
Qed.

Lemma some_unit_inj (a b : N) : Some [a] = Some [b] -> a = b.
Proof. intros H. now inversion H. Qed.

(** X4. With case preserved, a key of magnitude up to 2^53 - 25 permutes the
    letters: two letters that decode to the same character are the same
    letter. *)
Theorem decryptChar_injective (c1 c2 : N) (key : Z) :
  Z.abs key <= two53 - 25 ->
  is_letter c1 = true -> is_letter c2 = true ->
  option_map char (decryptChar c1 key true) = option_map char (decryptChar c2 key true) ->
  c1 = c2.
Proof.
  intros B L1 L2.
  destruct (is_letter_cases c1 L1) as (i1 & H1 & [-> | ->]);
  destruct (is_letter_cases c2 L2) as (i2 & H2 & [-> | ->]);
    pose proof (calculateNewPosition_range i1 key) as R1;
    pose proof (calculateNewPosition_range i2 key) as R2;
    rewrite ?(decryptChar_lower i1 key true H1), ?(decryptChar_upper i1 key true H1),
            ?(decryptChar_lower i2 key true H2), ?(decryptChar_upper i2 key true H2);
    cbn [option_map char]; cbv iota; intros E; apply some_unit_inj in E;
    try (assert (E' : calculateNewPosition i1 key = calculateNewPosition i2 key) by lia;
         now rewrite (calculateNewPosition_inj i1 i2 key B H1 H2 E'));
    exfalso; lia.
Qed.

Lemma decryptChar_injective_witness :
  Z.abs (-4) <= two53 - 25 /\
  is_letter 75 = true /\ is_letter 75 = true /\
  option_map char (decryptChar 75 (-4) true) = option_map char (decryptChar 75 (-4) true) /\
  75%N = 75%N.
Proof.
  assert (H : Z.abs (-4) <= two53 - 25) by (vm_compute; discriminate).
  split; [exact H|]. split; [reflexivity|]. split; [reflexivity|].
  split; [reflexivity|].
  exact (decryptChar_injective 75 75 (-4) H eq_refl eq_refl eq_refl).
Defined.

(** ** LoopEngine: what a run accumulates *)

Lemma decoded_app (key : Z) (pc : bool) (a b : jsstring) :
  decoded key pc (a ++ b) = decoded key pc a ++ decoded key pc b.
Proof. apply flat_map_app. Qed.

Lemma decoded_length (key : Z) (pc : bool) (text : jsstring) :
  length (decoded key pc text) = length text.
Proof.
  induction text as [|c text IH]; [reflexivity|].
  unfold decoded in *. cbn [flat_map].
  destruct (decryptChar_total c key pc) as [r Hr]. rewrite Hr, length_app, IH.
  now rewrite (decryptChar_one_unit _ _ _ _ Hr).
Qed.

Lemma snapshots_snoc (key : Z) (pc : bool) (a : jsstring) (i : Z) (acc : jsstring)
  (c : N) (r : DecodeResult) :
  decryptChar c key pc = Some r ->
  snapshots key pc i acc (a ++ [c]) =
    snapshots key pc i acc a ++
      [mkSnapshot (i + len a) c key r (acc ++ decoded key pc a ++ char r)].
Proof.
  intros Hr. revert i acc; induction a as [|x a IH]; intros i acc.
  - cbn [app snapshots decoded flat_map len length Z.of_nat]. rewrite Hr, Z.add_0_r.
    reflexivity.
  - cbn [app snapshots]. destruct (decryptChar_total x key pc) as [rx Hx].
    rewrite Hx, IH. cbn [app].
    replace (i + len (x :: a)) with (i + 1 + len a)
      by (unfold len; cbn [length]; lia).
    replace (acc ++ decoded key pc (x :: a) ++ char r)
      with ((acc ++ char rx) ++ decoded key pc a ++ char r); [reflexivity|].
    unfold decoded at 2. cbn [flat_map]. rewrite Hx.
    now rewrite <- !app_assoc.
Qed.

Lemma firstn_snoc {A : Type} (l : list A) (n : nat) (c : A) :
  nth_error l n = Some c -> firstn (S n) l = firstn n l ++ [c].
Proof.
  revert n; induction l as [|x l IH]; intros [|n] H; try discriminate.
  - now injection H as ->.
  - cbn [firstn app]. f_equal. now apply IH.
Qed.

Lemma nextStep_dom (w w' : World) : nextStep w = Some w' -> dom w' = dom w.
Proof.
  unfold nextStep.
  destruct (currentIndex (state w) >=? len (encryptedText (state w)) - 1).
  - intros [= <-].
    now destruct (currentIndex (state w) =? len (encryptedText (state w)) - 1).
  - destruct (array_get _ _); [|discriminate].
    destruct (decryptChar _ _ _); [|discriminate]. intros [= <-].
    now destruct (checked false (thinkModeToggle (dom w)) && isPlaying (state w)).
Qed.

Lemma nextStep_follows (w w' : World) :
  consistent (state w) ->
  follows_text (checked true (preserveCaseToggle (dom w))) (state w) ->
  nextStep w = Some w' ->
  follows_text (checked true (preserveCaseToggle (dom w))) (state w').
Proof.
  intros Hc (Hh & Ha) Hn.
  destruct (Z_lt_ge_dec (currentIndex (state w)) (len (encryptedText (state w)) - 1))
    as [Hlt|Hge].
  - destruct (nextStep_advance w Hc Hlt)
      as (w1 & c & r & Hn1 & Hget & Hr & Ht & Hk & Hi & Hh1 & Ha1 & _).
    rewrite Hn in Hn1. injection Hn1 as <-.
    destruct Hc as ((Hlo & _) & _).
    unfold array_get in Hget.
    destruct (Z.ltb_spec (currentIndex (state w) + 1) 0); [lia|].
    unfold follows_text. rewrite Ht, Hk, Hi, Hh1, Ha1.
    replace (Z.to_nat (currentIndex (state w) + 1 + 1))
      with (S (Z.to_nat (currentIndex (state w) + 1))) by lia.
    rewrite (firstn_snoc _ _ _ Hget), (snapshots_snoc _ _ _ _ _ _ _ Hr), decoded_app.
    rewrite <- Hh, <- Ha. split.
    + do 3 f_equal. unfold len in *. rewrite length_firstn. lia.
    + f_equal. unfold decoded. cbn [flat_map]. now rewrite Hr, app_nil_r.
  - destruct (nextStep_at_end w Hge) as (w1 & Hn1 & Ht & Hk & Hi & Hh1 & Ha1 & _).
    rewrite Hn in Hn1. injection Hn1 as <-.
    unfold follows_text. rewrite Ht, Hk, Hi, Hh1, Ha1. now split.
Qed.

Lemma run_forward_follows (m : nat) (w : World) :
  consistent (state w) ->
  follows_text (checked true (preserveCaseToggle (dom w))) (state w) ->
  exists w1,
    run (repeat NextStep m) w = Some w1 /\
    follows_text (checked true (preserveCaseToggle (dom w))) (state w1) /\
    key (state w1) = key (state w).
Proof.
  revert w; induction m as [|m IH]; intros w Hc Hf.
  - exists w. cbn [repeat run]. repeat split; apply Hf.
  - cbn [repeat run step].
    destruct (nextStep_consistent w Hc) as (w' & Hn & Hc'). rewrite Hn.
    pose proof (nextStep_follows w w' Hc Hf Hn) as Hf'.
    pose proof (nextStep_dom w w' Hn) as Hd.
    assert (Hk : key (state w') = key (state w)).
    { destruct (Z_lt_ge_dec (currentIndex (state w)) (len (encryptedText (state w)) - 1))
        as [Hlt|Hge].
      - destruct (nextStep_advance w Hc Hlt) as (w1 & c & r & Hn1 & _ & _ & _ & Hk & _).
        rewrite Hn in Hn1. now injection Hn1 as <-.
      - destruct (nextStep_at_end w Hge) as (w1 & Hn1 & _ & Hk & _).
        rewrite Hn in Hn1. now injection Hn1 as <-. }
    rewrite <- Hd in Hf'. destruct (IH w' Hc' Hf') as (w1 & Hr & Hf1 & Hk1).
    exists w1. rewrite Hd in Hf1. split; [exact Hr|]. split; [exact Hf1|]. congruence.
Qed.

Lemma forward_output (w0 : World) (text : jsstring) (k : number) (m : nat) :
  exists w,
    run (Init text k :: repeat NextStep m) w0 = Some w /\
    accumulatedText (state w) =
      decoded (key (state w)) (checked true (preserveCaseToggle (dom w0)))
              (firstn m text) /\
    length (accumulatedText (state w)) = Nat.min m (length text) /\
    history (state w) =
      snapshots (key (state w)) (checked true (preserveCaseToggle (dom w0))) 0 []
                (firstn m text) /\
    key (state w) = clamp (key_or_default k) 0 25 /\
    currentIndex (state w) = Z.min (-1 + Z.of_nat m) (len text - 1).
Proof.
  cbn [run step].
  assert (Hf : follows_text (checked true (preserveCaseToggle (dom (init text k w0))))
                 (state (init text k w0))) by (split; reflexivity).
  destruct (run_forward_follows m _ (init_consistent text k w0) Hf)
    as (w & Hr & (Hh & Ha) & Hk).
  destruct (run_forward m _ (init_consistent text k w0)) as (w' & Hr' & _ & Ht & Hi).
  rewrite Hr in Hr'. injection Hr' as <-.
  cbn [init state encryptedText currentIndex dom pause key] in *.
  assert (Hp : firstn (Z.to_nat (currentIndex (state w) + 1)) text = firstn m text).
  { rewrite Hi. unfold len.
    destruct (Nat.le_gt_cases m (length text)) as [Hle|Hgt].
    - f_equal. lia.
    - rewrite !firstn_all2 by lia. reflexivity. }
  rewrite Ht, Hp in Hh, Ha.
  exists w. split; [exact Hr|]. split; [exact Ha|]. split; [|split; [exact Hh|]].
  - rewrite Ha, decoded_length, length_firstn. reflexivity.
  - split; [exact Hk | exact Hi].
Qed.

(** X5. After [init] and [m] forward steps the accumulated output is the
    decoding, unit by unit, of the first [m] units of the ciphertext (of the
    whole ciphertext once [m] reaches its length) under the stored key and
    the case setting of the page; it has one unit per symbol consumed; and
    the history is the list of their snapshots, numbered from 0, each with
    the output accumulated up to it. *)
Theorem output_is_decoded_prefix (w0 : World) (text : jsstring) (k : number) (m : nat) :
  exists w,
    run (Init text k :: repeat NextStep m) w0 = Some w /\
    accumulatedText (state w) =
      decoded (key (state w)) (checked true (preserveCaseToggle (dom w0)))
              (firstn m text) /\
    length (accumulatedText (state w)) = Nat.min m (length text) /\
    history (state w) =
      snapshots (key (state w)) (checked true (preserveCaseToggle (dom w0))) 0 []
                (firstn m text).
Proof.
  destruct (forward_output w0 text k m) as (w & Hr & Ha & Hl & Hh & _).
  exists w. repeat split; assumption.
Qed.

(** ** LoopEngine: the output follows the cursor *)

Lemma output_of_snapshots (key : Z) (pc : bool) (text : jsstring) :
  output_of (snapshots key pc 0 [] text) = decoded key pc text.
Proof.
  destruct text as [|c text] using rev_ind; [reflexivity|].
  destruct (decryptChar_total c key pc) as [r Hr].
  rewrite (snapshots_snoc _ _ _ _ _ _ _ Hr), output_of_snoc, decoded_app.
  cbn [accumulated app]. f_equal. unfold decoded. cbn [flat_map].
  now rewrite Hr, app_nil_r.
Qed.

Lemma prevStep_follows (pc : bool) (w : World) :
  consistent (state w) -> follows_text pc (state w) ->
  follows_text pc (state (prevStep w)).
Proof.
  intros Hc (Hh & Ha).
  destruct (Z_lt_ge_dec (currentIndex (state w)) 0) as [Hlt|Hge].
  - destruct (prevStep_idle w Hlt) as (Ht & Hk & Hi & Hh' & Ha').
    unfold follows_text. rewrite Ht, Hk, Hi, Hh', Ha'. now split.
  - destruct (prevStep_back w Hc ltac:(lia)) as (Ht & Hk & Hi & Hh' & Ha').
    destruct Hc as ((_ & Hup) & _).
    destruct (array_get_in_range (encryptedText (state w)) (currentIndex (state w)))
      as [c Hget]; [unfold len in Hup; lia|].
    unfold array_get in Hget.
    destruct (Z.ltb_spec (currentIndex (state w)) 0); [lia|].
    destruct (decryptChar_total c (key (state w)) pc) as [r Hr].
    replace (Z.to_nat (currentIndex (state w) + 1))
      with (S (Z.to_nat (currentIndex (state w)))) in Hh by lia.
    rewrite (firstn_snoc _ _ _ Hget), (snapshots_snoc _ _ _ _ _ _ _ Hr) in Hh.
    unfold follows_text. rewrite Ht, Hk, Hi, Hh', Ha', Hh, removelast_last.
    replace (currentIndex (state w) - 1 + 1) with (currentIndex (state w)) by lia.
    split; [reflexivity | apply output_of_snapshots].
Qed.

Lemma init_follows (pc : bool) (text : jsstring) (k : number) (w : World) :
  follows_text pc (state (init text k w)).
Proof. split; reflexivity. Qed.

Lemma step_follows (e : event) (w w' : World) :
  consistent (state w) ->
  follows_text (checked true (preserveCaseToggle (dom w))) (state w) ->
  match e with SetDom _ => False | _ => True end ->
  step e w = Some w' ->
  dom w' = dom w /\
  follows_text (checked true (preserveCaseToggle (dom w))) (state w').
Proof.
  intros Hc Hf Hne. destruct e; cbn [step]; try contradiction.
  - intros [= <-]. split; [reflexivity | apply init_follows].
  - intros Hn. split; [now apply nextStep_dom | now apply nextStep_follows].
  - intros [= <-]. split; [|now apply prevStep_follows].
    unfold prevStep. now destruct (currentIndex (state (pause w)) <? 0).
  - intros [= <-]. unfold play.
    destruct (currentIndex (state w) >=? len (encryptedText (state w)) - 1);
      split; solve [reflexivity | exact Hf].
  - intros [= <-]. split; [reflexivity | exact Hf].
  - intros [= <-]. split; [reflexivity | apply init_follows].
  - intros [= <-]. split; [reflexivity | exact Hf].
  - intros [= <-]. split; [reflexivity | exact Hf].
  - destruct (find _ _) as [t|]; [|intros [= <-]; now split].
    unfold tick. destruct (waitingForReveal (closed_over w t)).
    + intros [= <-]. split; [reflexivity | exact Hf].
    + intros Hn. split; [now apply nextStep_dom | now apply nextStep_follows].
Qed.

Lemma run_follows (es : list event) (w : World) :
  consistent (state w) ->
  follows_text (checked true (preserveCaseToggle (dom w))) (state w) ->
  controls_fixed es = true ->
  exists w',
    run es w = Some w' /\ consistent (state w') /\
    history (state w') =
      snapshots (key (state w')) (checked true (preserveCaseToggle (dom w))) 0 []
        (firstn (Z.to_nat (currentIndex (state w') + 1)) (encryptedText (state w'))) /\
    accumulatedText (state w') =
      decoded (key (state w')) (checked true (preserveCaseToggle (dom w)))
        (firstn (Z.to_nat (currentIndex (state w') + 1)) (encryptedText (state w'))).
Proof.
  revert w; induction es as [|e es IH]; intros w Hc Hf Hcf; cbn [run].
  - exists w. split; [reflexivity|]. split; [exact Hc | exact Hf].
  - cbn [controls_fixed forallb] in Hcf. apply andb_true_iff in Hcf as (He & Hcf).
    destruct (step_consistent e w Hc) as (w1 & Hs & Hc1). rewrite Hs.
    destruct (step_follows e w w1 Hc Hf) as (Hd & Hf1); [now destruct e | exact Hs |].
    rewrite <- Hd in Hf1 |- *. now apply IH.
Qed.

(** X6. While the controls of the page are left alone, whatever is called and
    whatever fires (steps in both directions beyond the bounds, play, pause,
    reset, new missions, timers), the accumulated output is at every moment
    the decoding of the ciphertext up to the cursor, one unit per symbol, and
    the history holds the snapshots of exactly those symbols. *)
Theorem output_follows_cursor (d : Dom) (es : list event) :
  controls_fixed es = true ->
  exists w,
    run es (boot d) = Some w /\
    accumulatedText (state w) =
      decoded (key (state w)) (checked true (preserveCaseToggle d))
        (firstn (Z.to_nat (currentIndex (state w) + 1)) (encryptedText (state w))) /\
    Z.of_nat (length (accumulatedText (state w))) = currentIndex (state w) + 1 /\
    history (state w) =
      snapshots (key (state w)) (checked true (preserveCaseToggle d)) 0 []
        (firstn (Z.to_nat (currentIndex (state w) + 1)) (encryptedText (state w))).
Proof.
  intros Hcf.
  destruct (run_follows es (boot d) (boot_consistent d)) as (w & Hr & Hc & Hh & Ha);
    [split; reflexivity | exact Hcf |].
  cbn [boot dom] in Hh, Ha.
  exists w. split; [exact Hr|]. split; [exact Ha|]. split; [|exact Hh].
  rewrite Ha, decoded_length, length_firstn.
  destruct Hc as ((Hlo & Hup) & _). unfold len in Hup. lia.
Qed.

Lemma output_follows_cursor_witness :
  controls_fixed [Init (str "Ab c") (Int 29); NextStep; Play; Tick 1; PrevStep;
                  NextStep; NextStep] = true /\
  exists w,
    run [Init (str "Ab c") (Int 29); NextStep; Play; Tick 1; PrevStep;
         NextStep; NextStep] (boot bare) = Some w /\
    accumulatedText (state w) =
      decoded (key (state w)) (checked true (preserveCaseToggle bare))
        (firstn (Z.to_nat (currentIndex (state w) + 1)) (encryptedText (state w))) /\
    Z.of_nat (length (accumulatedText (state w))) = currentIndex (state w) + 1 /\
    history (state w) =
      snapshots (key (state w)) (checked true (preserveCaseToggle bare)) 0 []
        (firstn (Z.to_nat (currentIndex (state w) + 1)) (encryptedText (state w))).
Proof.
  split; [reflexivity|].
  exact (output_follows_cursor bare
           [Init (str "Ab c") (Int 29); NextStep; Play; Tick 1; PrevStep;
            NextStep; NextStep] eq_refl).
Defined.


(** ** LoopEngine: autoplay *)

(** The firing of the interval the state records runs the callback on the
    current state object. *)
Lemma tick_live (w : World) (h : nat) :
  timers_tracked w -> timer (state w) = Some h ->
  step (Tick h) w =
    if waitingForReveal (state w) then Some (pause w) else nextStep w.
Proof.
  intros (_ & Ht) Hh. rewrite Hh in Ht. destruct Ht as (_ & _ & _ & ms & Hi).
  cbn [step]. rewrite Hi. cbn [find handle]. rewrite Nat.eqb_refl.
  unfold tick, closed_over. cbn [closure].
  now rewrite nth_overflow by lia.
Qed.

(** The firing of an interval that is not live does nothing. *)
Lemma tick_dead (w : World) (h : nat) :
  intervals w = [] -> step (Tick h) w = Some w.
Proof. intros Hi. cbn [step]. now rewrite Hi. Qed.

(** A forward step in the middle of the text with think mode off leaves
    playback as it is. *)
Lemma nextStep_keeps_playing (w w' : World) :
  checked false (thinkModeToggle (dom w)) = false ->
  currentIndex (state w) < len (encryptedText (state w)) - 1 ->
  nextStep w = Some w' ->
  timer (state w') = timer (state w) /\ isPlaying (state w') = isPlaying (state w) /\
  waitingForReveal (state w') = false /\ intervals w' = intervals w.
Proof.
  intros Hth Hlt. unfold nextStep.
  destruct (Z.geb_spec (currentIndex (state w)) (len (encryptedText (state w)) - 1));
    [lia|].
  destruct (array_get _ _); [|discriminate].
  destruct (decryptChar _ _ _); [|discriminate].
  rewrite Hth. cbn [andb]. intros [= <-]. repeat split.
Qed.

(** A forward step with think mode on stops playback and waits. *)
Lemma nextStep_think (w w' : World) :
  timers_tracked w ->
  checked false (thinkModeToggle (dom w)) = true ->
  currentIndex (state w) < len (encryptedText (state w)) - 1 ->
  nextStep w = Some w' ->
  waitingForReveal (state w') = true /\
  (isPlaying (state w) = true -> isPlaying (state w') = false /\ intervals w' = []).
Proof.
  intros Ht Hth Hlt. unfold nextStep.
  destruct (Z.geb_spec (currentIndex (state w)) (len (encryptedText (state w)) - 1));
    [lia|].
  destruct (array_get _ _); [|discriminate].
  destruct (decryptChar _ _ _); [|discriminate].
  rewrite Hth. cbn [andb]. intros [= <-].
  split; [now destruct (isPlaying (state w))|].
  intros Hp. rewrite Hp. split; [reflexivity|].
  match goal with
  | |- intervals (pause ?x) = [] =>
      apply (pause_tracked x); apply (tracked_same w); auto
  end.
Qed.

Lemma autoplay_tick (h : nat) (w : World) :
  autoplaying h w ->
  currentIndex (state w) < len (encryptedText (state w)) - 1 ->
  exists w',
    step (Tick h) w = Some w' /\ autoplaying h w' /\
    encryptedText (state w') = encryptedText (state w) /\
    currentIndex (state w') = currentIndex (state w) + 1 /\
    missionComplete w' = missionComplete w.
Proof.
  intros (Hc & Ht & Hh & Hw & Hth) Hlt.
  rewrite (tick_live w h Ht Hh), Hw.
  destruct (nextStep_advance w Hc Hlt)
    as (w' & c & r & Hn & _ & _ & Htx & _ & Hi & _ & _ & Hm).
  destruct (nextStep_consistent w Hc) as (w2 & Hn2 & Hc').
  rewrite Hn in Hn2. injection Hn2 as <-.
  destruct (nextStep_keeps_playing w w' Hth Hlt Hn) as (Htm & _ & Hw' & _).
  exists w'. split; [exact Hn|]. split; [|auto].
  split; [exact Hc'|]. split; [exact (nextStep_tracked w w' Ht Hn)|].
  split; [congruence|]. split; [exact Hw'|].
  now rewrite (nextStep_dom w w' Hn).
Qed.

Lemma autoplay_last_tick (h : nat) (w : World) :
  autoplaying h w ->
  currentIndex (state w) = len (encryptedText (state w)) - 1 ->
  exists w',
    step (Tick h) w = Some w' /\ consistent (state w') /\
    intervals w' = [] /\ isPlaying (state w') = false /\
    encryptedText (state w') = encryptedText (state w) /\
    currentIndex (state w') = currentIndex (state w) /\
    missionComplete w' = S (missionComplete w).
Proof.
  intros (Hc & Ht & Hh & Hw & Hth) He.
  rewrite (tick_live w h Ht Hh), Hw.
  destruct (nextStep_at_end w ltac:(lia)) as (w' & Hn & Htx & _ & Hi & _ & _ & Hm).
  destruct (nextStep_consistent w Hc) as (w2 & Hn2 & Hc').
  rewrite Hn in Hn2. injection Hn2 as <-.
  rewrite He, Z.eqb_refl in Hm.
  exists w'. split; [exact Hn|]. split; [exact Hc'|].
  split; [exact (nextStep_at_end_cancels w w' Ht ltac:(lia) Hn)|].
  split; [|auto].
  pose proof (nextStep_tracked w w' Ht Hn) as (_ & Ht').
  pose proof (nextStep_at_end_cancels w w' Ht ltac:(lia) Hn) as Hi'.
  destruct (timer (state w')).
  - destruct Ht' as (_ & _ & _ & ms & Hx). congruence.
  - apply Ht'.
Qed.

Lemma dead_ticks (h : nat) (n : nat) (w : World) :
  intervals w = [] -> run (repeat (Tick h) n) w = Some w.
Proof.
  intros Hi. induction n as [|n IH]; [reflexivity|].
  cbn [repeat run]. now rewrite (tick_dead w h Hi).
Qed.

Lemma autoplay_to_the_end (h : nat) (r n : nat) (w : World) :
  autoplaying h w ->
  Z.of_nat r = len (encryptedText (state w)) - 1 - currentIndex (state w) ->
  exists w',
    run (repeat (Tick h) (r + S n)) w = Some w' /\
    currentIndex (state w') = len (encryptedText (state w)) - 1 /\
    encryptedText (state w') = encryptedText (state w) /\
    intervals w' = [] /\ isPlaying (state w') = false /\
    missionComplete w' = S (missionComplete w).
Proof.
  revert w; induction r as [|r IH]; intros w Ha Hr.
  - cbn [Nat.add repeat run].
    destruct (autoplay_last_tick h w Ha ltac:(lia))
      as (w' & -> & _ & Hi & Hp & Ht & Hci & Hm).
    exists w'. rewrite (dead_ticks h n w' Hi).
    repeat split; try assumption. lia.
  - cbn [Nat.add repeat run].
    destruct (autoplay_tick h w Ha ltac:(lia)) as (w1 & -> & Ha1 & Ht & Hci & Hm).
    destruct (IH w1 Ha1 ltac:(rewrite Ht, Hci; lia))
      as (w' & Hrun & Hci' & Ht' & Hi & Hp & Hm').
    exists w'. rewrite Ht in *. repeat split; try assumption; congruence.
Qed.

(** X8. Autoplay with think mode off runs to the end and stops by itself: after
    [init] on a ciphertext that is not empty and [play], the firings of the
    interval consume every symbol, the firing after the last one cancels the
    interval, clears [isPlaying] and signals completion, and whatever fires
    afterwards finds no interval: the signal is given once. *)
Theorem autoplay_completes_once (d : Dom) (text : jsstring) (k : number) (n : nat) :
  text <> [] -> checked false (thinkModeToggle d) = false ->
  exists w,
    run (Init text k :: Play :: repeat (Tick 1) (length text + S n)) (boot d) = Some w /\
    currentIndex (state w) = len text - 1 /\
    length (accumulatedText (state w)) = length text /\
    intervals w = [] /\ isPlaying (state w) = false /\
    missionComplete w = 1%nat.
Proof.
  intros Hne Hth. cbn [run step].
  assert (Hlen : (0 < length text)%nat) by (destruct text; [congruence | simpl; lia]).
  set (w1 := play (init text k (boot d))).
  assert (Hplay : w1 =
    mkWorld (mkState text (clamp (key_or_default k) 0 25) (-1) [] true (Some 1%nat) [] false)
            [mkState [] DEFAULT_KEY (-1) [] false None [] false]
            [mkInterval 1 1 (speed_of (speedSlider d))] 2 d 0).
  { unfold w1, play. cbn [init boot pause state currentIndex encryptedText timer
      intervals retired nextHandle dom missionComplete key history accumulatedText
      waitingForReveal app length].
    destruct (Z.geb_spec (-1) (len text - 1)); [unfold len in *; lia | reflexivity]. }
  assert (Ha : autoplaying 1 w1).
  { rewrite Hplay. unfold autoplaying, consistent, timers_tracked.
    cbn [state currentIndex encryptedText history accumulatedText key timer isPlaying
         nextHandle intervals retired dom waitingForReveal length output_of].
    pose proof (clamp_range (key_or_default k) 0 25 ltac:(lia)).
    unfold len. repeat split; try lia; try assumption. eexists; reflexivity. }
  destruct (autoplay_to_the_end 1 (length text) n w1 Ha) as (w & Hr & Hci & Ht & Hi & Hp & Hm).
  { rewrite Hplay. cbn [state encryptedText currentIndex]. unfold len. lia. }
  rewrite Hplay in Hci, Ht, Hm. cbn [state encryptedText missionComplete] in Hci, Ht, Hm.
  assert (Hcf : controls_fixed (repeat (Tick 1) (length text + S n)) = true).
  { unfold controls_fixed. apply forallb_forall. intros e He.
    now rewrite (repeat_spec _ _ _ He). }
  assert (Hf1 : follows_text (checked true (preserveCaseToggle (dom w1))) (state w1))
    by (rewrite Hplay; split; reflexivity).
  destruct (run_follows _ w1 (proj1 Ha) Hf1 Hcf) as (w2 & Hr2 & _ & _ & Hacc2).
  rewrite Hr in Hr2. injection Hr2 as <-.
  exists w. repeat split; try assumption.
  rewrite Hacc2, decoded_length, length_firstn, Hci, Ht. unfold len. lia.
Qed.

Lemma autoplay_completes_once_witness :
  str "ab" <> [] /\ checked false (thinkModeToggle bare) = false /\
  exists w,
    run (Init (str "ab") (Int 3) :: Play :: repeat (Tick 1) (length (str "ab") + 3))
        (boot bare) = Some w /\
    currentIndex (state w) = len (str "ab") - 1 /\
    length (accumulatedText (state w)) = length (str "ab") /\
    intervals w = [] /\ isPlaying (state w) = false /\
    missionComplete w = 1%nat.
Proof.
  assert (H : str "ab" <> []) by discriminate.
  split; [exact H|]. split; [reflexivity|].
  exact (autoplay_completes_once bare (str "ab") (Int 3) 2 H eq_refl).
Defined.

(** ** LoopEngine: think mode *)

Lemma nextStep_nextHandle (w w' : World) :
  nextStep w = Some w' -> nextHandle w' = nextHandle w.
Proof.
  unfold nextStep.
  destruct (currentIndex (state w) >=? len (encryptedText (state w)) - 1).
  - intros [= <-].
    now destruct (currentIndex (state w) =? len (encryptedText (state w)) - 1).
  - destruct (array_get _ _); [|discriminate].
    destruct (decryptChar _ _ _); [|discriminate]. intros [= <-].
    now destruct (checked false (thinkModeToggle (dom w)) && isPlaying (state w)).
Qed.

(** X9. With think mode on, autoplay takes one step and stops to wait for the
    prediction; started again while it waits, it stops at its first firing
    without moving; revealing clears the wait and moves nothing. *)
Theorem think_mode_gates_autoplay (d : Dom) (text : jsstring) (k : number) :
  text <> [] -> thinkModeToggle d = Some true ->
  exists w1 w2,
    run [Init text k; Play; Tick 1] (boot d) = Some w1 /\
    currentIndex (state w1) = 0 /\ waitingForReveal (state w1) = true /\
    isPlaying (state w1) = false /\ intervals w1 = [] /\
    run [Play; Tick 2] w1 = Some w2 /\
    currentIndex (state w2) = 0 /\ waitingForReveal (state w2) = true /\
    isPlaying (state w2) = false /\ intervals w2 = [] /\
    currentIndex (state (revealPrediction w1)) = 0 /\
    waitingForReveal (state (revealPrediction w1)) = false.
Proof.
  intros Hne Hth.
  assert (Hlen : (0 < length text)%nat) by (destruct text; [congruence | simpl; lia]).
  set (w0 := play (init text k (boot d))).
  assert (Hplay : w0 =
    mkWorld (mkState text (clamp (key_or_default k) 0 25) (-1) [] true (Some 1%nat) [] false)
            [mkState [] DEFAULT_KEY (-1) [] false None [] false]
            [mkInterval 1 1 (speed_of (speedSlider d))] 2 d 0).
  { unfold w0, play. cbn [init boot pause state currentIndex encryptedText timer
      intervals retired nextHandle dom missionComplete key history accumulatedText
      waitingForReveal app length].
    destruct (Z.geb_spec (-1) (len text - 1)); [unfold len in *; lia | reflexivity]. }
  assert (Hc0 : consistent (state w0)).
  { rewrite Hplay. unfold consistent.
    cbn [state currentIndex encryptedText history accumulatedText key length output_of].
    pose proof (clamp_range (key_or_default k) 0 25 ltac:(lia)).
    unfold len. repeat split; lia. }
  assert (Ht0 : timers_tracked w0).
  { rewrite Hplay. unfold timers_tracked.
    cbn [state timer isPlaying nextHandle intervals retired length].
    repeat split; try lia. eexists; reflexivity. }
  assert (Hlt0 : currentIndex (state w0) < len (encryptedText (state w0)) - 1)
    by (rewrite Hplay; cbn [state currentIndex encryptedText]; unfold len; lia).
  assert (Hd0 : checked false (thinkModeToggle (dom w0)) = true)
    by (rewrite Hplay; cbn [dom]; now rewrite Hth).
  assert (Htick : step (Tick 1) w0 = nextStep w0).
  { rewrite (tick_live w0 1 Ht0) by (now rewrite Hplay).
    now replace (waitingForReveal (state w0)) with false by (now rewrite Hplay). }
  destruct (nextStep_advance w0 Hc0 Hlt0)
    as (w1 & c & r & Hn & _ & _ & Htx & _ & Hi & _).
  destruct (nextStep_think w0 w1 Ht0 Hd0 Hlt0 Hn) as (Hw1 & Hp1).
  destruct Hp1 as (Hp1 & Hi1); [now rewrite Hplay|].
  pose proof (nextStep_tracked w0 w1 Ht0 Hn) as Ht1.
  destruct (nextStep_consistent w0 Hc0) as (wx & Hnx & Hc1).
  rewrite Hn in Hnx. injection Hnx as <-.
  assert (Hci1 : currentIndex (state w1) = 0)
    by (rewrite Hi, Hplay; reflexivity).
  assert (Hnh : nextHandle w1 = 2%nat)
    by (rewrite (nextStep_nextHandle w0 w1 Hn), Hplay; reflexivity).
  assert (Hagain : exists w2,
    step (Tick 2) (play w1) = Some w2 /\
    currentIndex (state w2) = 0 /\ waitingForReveal (state w2) = true /\
    isPlaying (state w2) = false /\ intervals w2 = []).
  { pose proof (play_tracked w1 Ht1 Hp1) as Htp.
    unfold play in Htp |- *.
    destruct (currentIndex (state w1) >=? len (encryptedText (state w1)) - 1).
    - exists w1. rewrite (tick_dead w1 2 Hi1). repeat split; assumption.
    - rewrite (tick_live _ 2 Htp) by (cbn [state timer]; now rewrite Hnh).
      cbn [state waitingForReveal]. rewrite Hw1.
      eexists. split; [reflexivity|].
      split; [exact Hci1|]. split; [reflexivity|]. split; [reflexivity|].
      apply pause_tracked. rewrite Hw1 in Htp. exact Htp. }
  destruct Hagain as (w2 & Hr2 & H2).
  exists w1, w2.
  split.
  { cbn [run].
    change (step (Init text k) (boot d)) with (Some (init text k (boot d))).
    cbv beta iota.
    change (step Play (init text k (boot d))) with (Some w0). cbv beta iota.
    now rewrite Htick, Hn. }
  split; [exact Hci1|]. split; [exact Hw1|]. split; [exact Hp1|]. split; [exact Hi1|].
  split.
  { cbn [run]. change (step Play w1) with (Some (play w1)). cbv beta iota.
    now rewrite Hr2. }
  destruct H2 as (? & ? & ? & ?).
  repeat split; assumption.
Qed.



Lemma think_mode_gates_autoplay_witness :
  str "ab" <> [] /\ thinkModeToggle (mkDom None (Some true) None) = Some true /\
  exists w1 w2,
    run [Init (str "ab") (Int 3); Play; Tick 1] (boot (mkDom None (Some true) None))
      = Some w1 /\
    currentIndex (state w1) = 0 /\ waitingForReveal (state w1) = true /\
    isPlaying (state w1) = false /\ intervals w1 = [] /\
    run [Play; Tick 2] w1 = Some w2 /\
    currentIndex (state w2) = 0 /\ waitingForReveal (state w2) = true /\
    isPlaying (state w2) = false /\ intervals w2 = [] /\
    currentIndex (state (revealPrediction w1)) = 0 /\
    waitingForReveal (state (revealPrediction w1)) = false.
Proof.
  assert (H : str "ab" <> []) by discriminate.
  split; [exact H|]. split; [reflexivity|].
  exact (think_mode_gates_autoplay (mkDom None (Some true) None) (str "ab") (Int 3)
           H eq_refl).
Defined.

(** ** LoopEngine: the key [init] and [reset] store *)

(** X10. What [init] stores for a key whose double is below 10^21 in
    magnitude: the default 3 for 0, 0 for a negative key, 25 for a key above
    25, the key itself otherwise; for [NaN] the default 3; and always a key
    in [0,25].  From 10^21 on [parseInt] reads the exponent form of the
    number and stops after its first digit: for 10^21, and for 10^21 - 1,
    which the host holds as 10^21, the key stored is 1; for -2 * 10^21
    it is 0, for 26 * 10^21, printed as 2.6e+22, it is 2. *)
Theorem init_key_cases (text : jsstring) (z : Z) (k : number) (w : World) :
  Z.abs (round_double z) < ten21 ->
  key (state (init text (Int z) w)) =
    (if z =? 0 then 3 else if z <? 0 then 0 else if 25 <? z then 25 else z) /\
  key (state (init text NaN w)) = 3 /\
  0 <= key (state (init text k w)) <= 25 /\
  key (state (init text (Int ten21) w)) = 1 /\
  key (state (init text (Int (ten21 - 1)) w)) = 1 /\
  key (state (init text (Int (-2 * ten21)) w)) = 0 /\
  key (state (init text (Int (26 * ten21)) w)) = 2.
Proof.
  intros Hb.
  split; [|split; [reflexivity|split; [apply init_consistent|]]].
  - cbn [init state key]. rewrite (key_or_default_below z Hb).
    destruct (Z.eqb_spec z 0) as [->|Hz]; [reflexivity|].
    rewrite clamp_round_double. unfold clamp.
    destruct (Z.ltb_spec z 0); [lia|].
    destruct (Z.ltb_spec 25 z); lia.
  - repeat split; vm_compute; reflexivity.
Qed.

Lemma init_key_cases_witness :
  Z.abs (round_double 30) < ten21 /\
  key (state (init (str "ab") (Int 30) (boot bare))) =
    (if 30 =? 0 then 3 else if 30 <? 0 then 0 else if 25 <? 30 then 25 else 30) /\
  key (state (init (str "ab") NaN (boot bare))) = 3 /\
  0 <= key (state (init (str "ab") (Int (-7)) (boot bare))) <= 25 /\
  key (state (init (str "ab") (Int ten21) (boot bare))) = 1 /\
  key (state (init (str "ab") (Int (ten21 - 1)) (boot bare))) = 1 /\
  key (state (init (str "ab") (Int (-2 * ten21)) (boot bare))) = 0 /\
  key (state (init (str "ab") (Int (26 * ten21)) (boot bare))) = 2.
Proof.
  assert (H : Z.abs (round_double 30) < ten21) by reflexivity.
  split; [exact H|].
  exact (init_key_cases (str "ab") 30 (Int (-7)) (boot bare) H).
Defined.

(** X11. [reset] goes back to the start of the same ciphertext, and keeps the
    key unless the stored key is 0, which it replaces by 3; a key 0 is stored
    by [init] for a negative key such as -1. *)
Theorem reset_restarts (d : Dom) (es : list event) (text : jsstring) (w0 : World) :
  (exists w,
     run es (boot d) = Some w /\
     encryptedText (state (reset w)) = encryptedText (state w) /\
     currentIndex (state (reset w)) = -1 /\
     history (state (reset w)) = [] /\
     accumulatedText (state (reset w)) = [] /\
     intervals (reset w) = intervals (pause w) /\
     key (state (reset w)) = (if key (state w) =? 0 then 3 else key (state w))) /\
  key (state (init text (Int (-1)) w0)) = 0 /\
  key (state (reset (init text (Int (-1)) w0))) = 3.
Proof.
  split; [|split; reflexivity].
  destruct (run_consistent es (boot d) (boot_consistent d)) as (w & Hr & Hc).
  exists w. split; [exact Hr|].
  repeat split.
  destruct Hc as (_ & _ & _ & Hk).
  cbn [reset init state key].
  rewrite key_or_default_small by (unfold two53; lia).
  unfold clamp, DEFAULT_KEY.
  destruct (Z.eqb_spec (key (state w)) 0); lia.
Qed.

(** ** The keyboard listener *)

Lemma toggle_tracked (w : World) :
  timers_tracked w ->
  timers_tracked (if isPlaying (state w) then pause w else play w).
Proof.
  intros Ht. destruct (isPlaying (state w)) eqn:E.
  - now apply pause_tracked.
  - now apply play_tracked.
Qed.

Lemma play_consistent (w : World) :
  consistent (state w) -> consistent (state (play w)).
Proof.
  intros Hc. unfold play.
  now destruct (currentIndex (state w) >=? len (encryptedText (state w)) - 1).
Qed.

Lemma handle_input_sound (i : ScriptUI.input) (w : World) :
  consistent (state w) -> timers_tracked w ->
  exists w', ScriptUI.handle_input i w = Some w' /\
             consistent (state w') /\ timers_tracked w'.
Proof.
  intros Hc Ht. destruct i as [k|enc k|h|d0]; cbn [ScriptUI.handle_input].
  - unfold ScriptUI.keydown.
    assert (H1 : exists w1,
      (if jsstring_eqb k (str "ArrowRight") then nextStep w else Some w) = Some w1 /\
      consistent (state w1) /\ timers_tracked w1).
    { destruct (jsstring_eqb k (str "ArrowRight")); [|eauto].
      destruct (nextStep_consistent w Hc) as (w1 & Hn & Hc1).
      exists w1. split; [exact Hn|]. split; [exact Hc1|].
      exact (nextStep_tracked w w1 Ht Hn). }
    destruct H1 as (w1 & -> & Hc1 & Ht1).
    eexists. split; [reflexivity|].
    assert (H2 : consistent (state (if jsstring_eqb k (str "ArrowLeft")
                                    then prevStep w1 else w1)) /\
                 timers_tracked (if jsstring_eqb k (str "ArrowLeft")
                                 then prevStep w1 else w1)).
    { destruct (jsstring_eqb k (str "ArrowLeft")); [|now split].
      split; [now apply prevStep_consistent | now apply prevStep_tracked]. }
    destruct H2 as (Hc2 & Ht2).
    destruct (jsstring_eqb k (str " ") || jsstring_eqb k (str "Spacebar"));
      [|now split].
    split; [|now apply toggle_tracked].
    destruct (isPlaying (state _)); [exact Hc2 | now apply play_consistent].
  - eexists. split; [reflexivity|]. unfold ScriptUI.startMission.
    split; [apply init_consistent | now apply init_tracked].
  - destruct (step_consistent (Tick h) w Hc) as (w' & Hs & Hc').
    exists w'. split; [exact Hs|]. split; [exact Hc'|].
    exact (step_tracked (Tick h) w w' Ht I Hs).
  - eexists. split; [reflexivity|]. split; [exact Hc|].
    now apply (tracked_same w).
Qed.

(** X12. A page driven by the keyboard (arrows to step, space to toggle
    playback), the start-mission button, the controls and the timers, in any
    order and from the moment it loads: no listener raises, at most one
    interval is ever live, it is the one the state records, and the history
    is as long as the cursor says. *)
Theorem keyboard_keeps_one_timer (d : Dom) (ins : list ScriptUI.input) :
  exists w,
    ScriptUI.drive ins (boot d) = Some w /\
    (length (intervals w) <= 1)%nat /\
    timers_tracked w /\
    (isPlaying (state w) = true <-> intervals w <> []) /\
    Z.of_nat (length (history (state w))) = currentIndex (state w) + 1.
Proof.
  assert (H : forall w0, consistent (state w0) -> timers_tracked w0 ->
            exists w, ScriptUI.drive ins w0 = Some w /\
                      consistent (state w) /\ timers_tracked w).
  { induction ins as [|i ins IH]; intros w0 Hc Ht; cbn [ScriptUI.drive]; [eauto|].
    destruct (handle_input_sound i w0 Hc Ht) as (w1 & -> & Hc1 & Ht1).
    now apply IH. }
  destruct (H (boot d) (boot_consistent d) (boot_tracked d)) as (w & Hr & Hc & Ht).
  exists w. split; [exact Hr|]. split; [now apply tracked_at_most_one|].
  split; [exact Ht|]. split; [|apply Hc].
  destruct Ht as (_ & Ht). destruct (timer (state w)).
  - destruct Ht as (-> & _ & _ & ms & ->). split; [discriminate | reflexivity].
  - destruct Ht as (-> & ->). split; [discriminate | congruence].
Qed.

(** ** The sibling engine *)

Lemma sibling_output_snoc (h : list Sibling.Snapshot) (x : Sibling.Snapshot) :
  sibling_output_of (h ++ [x]) = Sibling.accumulated x.
Proof.
  destruct h as [|y h]; simpl; [reflexivity|]. now rewrite last_last.
Qed.

Lemma sibling_decryptChar_decoded (c : N) (key : Z) :
  exists r, Sibling.decryptChar c key = Some r /\ decoded key true [c] = char r.
Proof.
  rewrite sibling_decryptChar_eq.
  destruct (decryptChar_total c key true) as [r Hr]. exists r. split; [exact Hr|].
  unfold decoded. cbn [flat_map]. now rewrite Hr, app_nil_r.
Qed.

Lemma sibling_pause_sound (w : Sibling.World) :
  sibling_sound w ->
  sibling_sound (Sibling.pause w) /\ Sibling.intervals (Sibling.pause w) = [] /\
  Sibling.isPlaying (Sibling.state (Sibling.pause w)) = false.
Proof.
  intros (Hc & Hf & Hn & Ht).
  assert (Hi : Sibling.intervals (Sibling.pause w) = []).
  { unfold Sibling.pause. cbn [Sibling.intervals].
    destruct (Sibling.isPlaying (Sibling.state w)).
    - destruct Ht as (h & -> & Hh & _ & ->).
      destruct (Nat.eqb_spec h 0); [contradiction|].
      unfold Sibling.clearInterval. cbn [filter fst]. now rewrite Nat.eqb_refl.
    - rewrite Ht. destruct (Sibling.timer (Sibling.state w)) as [h|]; [|reflexivity].
      now destruct (Nat.eqb h 0). }
  split; [|split; [exact Hi | reflexivity]].
  split; [exact Hc|]. split; [exact Hf|]. split; [exact Hn|].
  cbn [Sibling.pause Sibling.state Sibling.isPlaying]. exact Hi.
Qed.

(** Worlds that differ in nothing the soundness looks at. *)
Lemma sibling_sound_same (w w' : Sibling.World) :
  Sibling.encryptedText (Sibling.state w') = Sibling.encryptedText (Sibling.state w) ->
  Sibling.key (Sibling.state w') = Sibling.key (Sibling.state w) ->
  Sibling.currentIndex (Sibling.state w') = Sibling.currentIndex (Sibling.state w) ->
  Sibling.history (Sibling.state w') = Sibling.history (Sibling.state w) ->
  Sibling.accumulatedText (Sibling.state w') = Sibling.accumulatedText (Sibling.state w) ->
  Sibling.isPlaying (Sibling.state w') = Sibling.isPlaying (Sibling.state w) ->
  Sibling.timer (Sibling.state w') = Sibling.timer (Sibling.state w) ->
  Sibling.intervals w' = Sibling.intervals w ->
  Sibling.nextHandle w' = Sibling.nextHandle w ->
  Sibling.speedSlider w' = Sibling.speedSlider w ->
  sibling_sound w -> sibling_sound w'.
Proof.
  unfold sibling_sound, sibling_consistent, sibling_follows, sibling_tracked.
  intros -> -> -> -> -> -> -> -> -> ->. exact (fun H => H).
Qed.

Lemma sibling_nextStep_sound (w : Sibling.World) :
  sibling_sound w ->
  exists w', Sibling.nextStep w = Some w' /\ sibling_sound w' /\
    (Sibling.currentIndex (Sibling.state w)
       >= len (Sibling.encryptedText (Sibling.state w)) - 1 ->
     Sibling.intervals w' = [] /\
     Sibling.isPlaying (Sibling.state w') = false /\
     Sibling.currentIndex (Sibling.state w') = Sibling.currentIndex (Sibling.state w)).
Proof.
  intros Hs. pose proof Hs as (Hc & Hf & Ht).
  destruct (sibling_pause_sound w Hs) as (Hps & Hpi & Hpp).
  unfold Sibling.nextStep.
  destruct (Z.geb_spec (Sibling.currentIndex (Sibling.state w))
              (len (Sibling.encryptedText (Sibling.state w)) - 1)) as [Hge|Hlt].
  - eexists. split; [reflexivity|].
    destruct (Sibling.currentIndex (Sibling.state w) =?
              len (Sibling.encryptedText (Sibling.state w)) - 1).
    + split; [|intros _; split; [exact Hpi | split; reflexivity]].
      now apply (sibling_sound_same (Sibling.pause w)).
    + split; [exact Hps | intros _; split; [exact Hpi | split; reflexivity]].
  - destruct Hc as ((Hlo & Hup) & Hlen & Hacc).
    destruct (array_get_in_range (Sibling.encryptedText (Sibling.state w))
                (Sibling.currentIndex (Sibling.state w) + 1)) as [c Hget];
      [unfold len in Hlt; lia|].
    rewrite Hget.
    destruct (sibling_decryptChar_decoded c (Sibling.key (Sibling.state w)))
      as (r & Hr & Hdec).
    rewrite Hr.
    set (s' := Sibling.mkState _ _ _ _ _ _ _).
    assert (Hs' : sibling_sound (Sibling.with_state w s')).
    { unfold array_get in Hget.
      destruct (Z.ltb_spec (Sibling.currentIndex (Sibling.state w) + 1) 0); [lia|].
      assert (Hn : Z.to_nat (Sibling.currentIndex (Sibling.state w) + 1)
                   = length (Sibling.history (Sibling.state w))) by lia.
      rewrite Hn in Hget.
      assert (Hprev : Sibling.accumulatedText (Sibling.state w) =
                decoded (Sibling.key (Sibling.state w)) true
                  (firstn (length (Sibling.history (Sibling.state w)))
                          (Sibling.encryptedText (Sibling.state w)))).
      { rewrite Hacc. unfold sibling_follows in Hf.
        destruct (Sibling.history (Sibling.state w)) as [|x h] using rev_ind;
          [reflexivity|].
        rewrite sibling_output_snoc. rewrite length_app in Hf |- *.
        cbn [length] in Hf |- *. rewrite Nat.add_1_r in Hf |- *.
        rewrite seq_S, !map_app in Hf. cbn [map Nat.add] in Hf.
        apply app_inj_tail in Hf as (_ & Hx). exact Hx. }
      split; [|split].
      - unfold sibling_consistent, s'.
        cbn [Sibling.with_state Sibling.state Sibling.currentIndex Sibling.encryptedText
             Sibling.history Sibling.accumulatedText].
        rewrite length_app, sibling_output_snoc. cbn [length Sibling.accumulated].
        repeat split; lia.
      - unfold sibling_follows, s'.
        cbn [Sibling.with_state Sibling.state Sibling.key Sibling.encryptedText
             Sibling.history].
        rewrite length_app. cbn [length]. rewrite Nat.add_1_r, seq_S, !map_app.
        cbn [map Nat.add Sibling.accumulated]. f_equal; [exact Hf|]. f_equal.
        rewrite (firstn_snoc _ _ _ Hget), decoded_app, <- Hprev. now rewrite Hdec.
      - exact Ht. }
    eexists. split; [reflexivity|]. split; [|intros; lia].
    destruct (checked false (Sibling.thinkModeToggle w)
              && Sibling.isPlaying (Sibling.state w)); [|exact Hs'].
    now apply sibling_pause_sound.
Qed.

Lemma sibling_prevStep_sound (w : Sibling.World) :
  sibling_sound w ->
  sibling_sound (Sibling.prevStep w) /\ Sibling.intervals (Sibling.prevStep w) = [].
Proof.
  intros Hs. destruct (sibling_pause_sound w Hs) as (Hps & Hpi & Hpp).
  unfold Sibling.prevStep.
  destruct (Z.ltb_spec (Sibling.currentIndex (Sibling.state (Sibling.pause w))) 0)
    as [Hlt|Hge]; [split; assumption|].
  split; [|exact Hpi].
  destruct Hps as (((Hlo & Hup) & Hlen & Hacc) & Hf & Ht).
  set (p := Sibling.pause w) in *.
  assert (Hne : Sibling.history (Sibling.state p) <> []).
  { intros E. rewrite E in Hlen. cbn [length] in Hlen. lia. }
  destruct (exists_last Hne) as (h0 & x & Hx).
  split; [|split].
  - unfold sibling_consistent.
    cbn [Sibling.with_state Sibling.state Sibling.currentIndex Sibling.encryptedText
         Sibling.history Sibling.accumulatedText].
    pose proof (removelast_shorter _ Hne).
    repeat split; solve [lia | reflexivity].
  - unfold sibling_follows in *.
    cbn [Sibling.with_state Sibling.state Sibling.key Sibling.encryptedText
         Sibling.history].
    rewrite Hx in Hf |- *. rewrite removelast_last.
    rewrite length_app in Hf. cbn [length] in Hf.
    rewrite Nat.add_1_r, seq_S, !map_app in Hf.
    now apply app_inj_tail in Hf as (Hf & _).
  - destruct Ht as (Hn & Ht). split; [exact Hn|].
    cbn [Sibling.with_state Sibling.state Sibling.isPlaying Sibling.intervals].
    replace (Sibling.isPlaying (Sibling.state p)) with false by (symmetry; exact Hpp).
    exact Hpi.
Qed.

Lemma sibling_init_sound (text : jsstring) (k : Z) (w : Sibling.World) :
  sibling_sound w -> sibling_sound (Sibling.init text k w).
Proof.
  intros Hs. destruct (sibling_pause_sound w Hs) as ((_ & _ & Hn & _) & Hpi & _).
  unfold Sibling.init. split; [|split].
  - unfold sibling_consistent, len. simpl. repeat split; lia.
  - reflexivity.
  - split; [exact Hn | exact Hpi].
Qed.

Lemma sibling_play_sound (w : Sibling.World) :
  sibling_sound w -> Sibling.isPlaying (Sibling.state w) = false ->
  sibling_sound (Sibling.play w).
Proof.
  intros Hs Hp. unfold Sibling.play.
  destruct (Sibling.currentIndex (Sibling.state w) >=?
            len (Sibling.encryptedText (Sibling.state w)) - 1); [exact Hs|].
  destruct Hs as (Hc & Hf & Hn & Ht). rewrite Hp in Ht.
  split; [exact Hc|]. split; [exact Hf|]. split; [cbn; lia|].
  cbn [Sibling.state Sibling.isPlaying Sibling.timer Sibling.intervals
       Sibling.nextHandle Sibling.speedSlider].
  exists (Sibling.nextHandle w). rewrite Ht. repeat split; lia.
Qed.

Lemma sibling_step_sound (e : Sibling.event) (w : Sibling.World) :
  sibling_sound w ->
  match e with
  | Sibling.Play => Sibling.isPlaying (Sibling.state w) = false
  | _ => True
  end ->
  exists w', Sibling.step e w = Some w' /\ sibling_sound w'.
Proof.
  intros Hs Hg. destruct e; cbn [Sibling.step].
  - eexists; split; [reflexivity | now apply sibling_init_sound].
  - destruct (sibling_nextStep_sound w Hs) as (w' & Hn & Hs' & _). eauto.
  - eexists; split; [reflexivity | now apply sibling_prevStep_sound].
  - eexists; split; [reflexivity | now apply sibling_play_sound].
  - eexists; split; [reflexivity | now apply sibling_pause_sound].
  - destruct (existsb _ _); [|eauto].
    destruct (sibling_nextStep_sound w Hs) as (w' & Hn & Hs' & _). eauto.
Qed.

Lemma sibling_output_decoded (s : Sibling.State) :
  sibling_consistent s -> sibling_follows s ->
  Sibling.accumulatedText s =
    decoded (Sibling.key s) true
      (firstn (Z.to_nat (Sibling.currentIndex s + 1)) (Sibling.encryptedText s)).
Proof.
  intros (_ & Hlen & Hacc) Hf.
  replace (Z.to_nat (Sibling.currentIndex s + 1)) with (length (Sibling.history s))
    by lia.
  rewrite Hacc. unfold sibling_follows in Hf.
  destruct (Sibling.history s) as [|x h] using rev_ind; [reflexivity|].
  rewrite sibling_output_snoc. rewrite length_app in Hf |- *.
  cbn [length] in Hf |- *. rewrite Nat.add_1_r in Hf |- *.
  rewrite seq_S, !map_app in Hf. cbn [map Nat.add] in Hf.
  now apply app_inj_tail in Hf as (_ & Hx).
Qed.

(** Moving the slider of a page that is not playing changes no timer. *)
Lemma sibling_slider_idle (v : option number) (w : Sibling.World) :
  sibling_sound w -> Sibling.isPlaying (Sibling.state w) = false ->
  sibling_sound (Sibling.mkWorld (Sibling.state w) (Sibling.intervals w)
                   (Sibling.nextHandle w) (Sibling.thinkModeToggle w) v
                   (Sibling.missionComplete w)).
Proof.
  intros (Hc & Hf & Hn & Ht) Hp. split; [exact Hc|]. split; [exact Hf|].
  split; [exact Hn|]. cbn [Sibling.state Sibling.intervals].
  rewrite Hp in Ht |- *. exact Ht.
Qed.

Lemma sibling_speedInput_sound (v : option number) (w : Sibling.World) :
  sibling_sound w -> sibling_sound (SiblingUI.speedInput v w).
Proof.
  intros Hs. unfold SiblingUI.speedInput. cbn [Sibling.state].
  destruct (Sibling.isPlaying (Sibling.state w)) eqn:Hp.
  - destruct (sibling_pause_sound w Hs) as (Hps & Hpi & Hpp).
    apply sibling_play_sound; [|reflexivity].
    pose proof (sibling_slider_idle v (Sibling.pause w) Hps Hpp) as Hx.
    cbn [Sibling.pause Sibling.state Sibling.intervals Sibling.nextHandle
         Sibling.thinkModeToggle Sibling.missionComplete Sibling.timer
         Sibling.encryptedText Sibling.key Sibling.currentIndex Sibling.history
         Sibling.accumulatedText] in Hx |- *.
    exact Hx.
  - now apply sibling_slider_idle.
Qed.

Lemma sibling_handle_input_sound (i : SiblingUI.input) (w : Sibling.World) :
  sibling_sound w ->
  match i with
  | SiblingUI.Engine Sibling.Play => Sibling.isPlaying (Sibling.state w) = false
  | _ => True
  end ->
  exists w', SiblingUI.handle_input i w = Some w' /\ sibling_sound w'.
Proof.
  intros Hs Hg. destruct i as [e|v| |t]; cbn [SiblingUI.handle_input].
  - apply sibling_step_sound; [exact Hs|]. now destruct e.
  - eexists; split; [reflexivity | now apply sibling_speedInput_sound].
  - eexists; split; [reflexivity|]. unfold SiblingUI.togglePlay.
    destruct (Sibling.isPlaying (Sibling.state w)) eqn:Hp.
    + now apply sibling_pause_sound.
    + now apply sibling_play_sound.
  - eexists; split; [reflexivity|]. now apply (sibling_sound_same w).
Qed.

Lemma sibling_drive_sound (ins : list SiblingUI.input) (w : Sibling.World) :
  sibling_sound w -> SiblingUI.play_guarded ins w = true ->
  exists w', SiblingUI.drive ins w = Some w' /\ sibling_sound w'.
Proof.
  revert w; induction ins as [|i ins IH]; intros w Hs Hg; cbn [SiblingUI.drive].
  - eauto.
  - cbn [SiblingUI.play_guarded] in Hg. apply andb_true_iff in Hg as (Hg1 & Hg2).
    destruct (sibling_handle_input_sound i w Hs) as (w1 & Hh & Hs1).
    { destruct i as [[]| | |]; try exact I. now apply negb_true_iff. }
    rewrite Hh in *. now apply IH.
Qed.

Lemma sibling_boot_sound (think : option bool) (slider : option number) :
  sibling_sound (Sibling.boot think slider).
Proof.
  split; [|split].
  - unfold sibling_consistent, len. simpl. repeat split; lia.
  - reflexivity.
  - split; [simpl; lia | reflexivity].
Qed.

(** X13. The sibling engine, driven from the loaded page by any calls of its
    entry points, timer firings, the space bar, the speed slider and the
    think-mode toggle, with [play] itself called only while nothing plays:
    nothing raises, the history is as long as the cursor says, the
    accumulated output is the decoding (case preserved) of the ciphertext up
    to the cursor under the key as stored, each unit decoded as the host
    computes it for that key, and what is live is at most one interval,
    present exactly while [isPlaying], with the period the slider now
    selects. *)
Theorem sibling_engine_sound
  (think : option bool) (slider : option number) (ins : list SiblingUI.input) :
  SiblingUI.play_guarded ins (Sibling.boot think slider) = true ->
  exists w,
    SiblingUI.drive ins (Sibling.boot think slider) = Some w /\
    -1 <= Sibling.currentIndex (Sibling.state w)
       <= len (Sibling.encryptedText (Sibling.state w)) - 1 /\
    Z.of_nat (length (Sibling.history (Sibling.state w)))
      = Sibling.currentIndex (Sibling.state w) + 1 /\
    Sibling.accumulatedText (Sibling.state w) =
      decoded (Sibling.key (Sibling.state w)) true
        (firstn (Z.to_nat (Sibling.currentIndex (Sibling.state w) + 1))
                (Sibling.encryptedText (Sibling.state w))) /\
    Sibling.intervals w =
      (if Sibling.isPlaying (Sibling.state w)
       then match Sibling.timer (Sibling.state w) with
            | Some h => [(h, Sibling.speed_of (Sibling.speedSlider w))]
            | None => []
            end
       else []) /\
    (Sibling.isPlaying (Sibling.state w) = true ->
     Sibling.timer (Sibling.state w) <> None).
Proof.
  intros Hg.
  destruct (sibling_drive_sound ins _ (sibling_boot_sound think slider) Hg)
    as (w & Hr & Hc & Hf & _ & Ht).
  exists w. split; [exact Hr|]. split; [apply Hc|]. split; [apply Hc|].
  split; [now apply sibling_output_decoded|].
  destruct (Sibling.isPlaying (Sibling.state w)).
  - destruct Ht as (h & -> & _ & _ & ->). split; [reflexivity | discriminate].
  - split; [exact Ht | discriminate].
Qed.

Lemma sibling_engine_sound_witness :
  SiblingUI.play_guarded
    [SiblingUI.Engine (Sibling.Init (str "Ab") 29); SiblingUI.Space;
     SiblingUI.Engine (Sibling.Tick 1); SiblingUI.SpeedInput (Some (Int 5));
     SiblingUI.Engine Sibling.PrevStep; SiblingUI.Engine Sibling.Play]
    (Sibling.boot None None) = true /\
  exists w,
    SiblingUI.drive
      [SiblingUI.Engine (Sibling.Init (str "Ab") 29); SiblingUI.Space;
       SiblingUI.Engine (Sibling.Tick 1); SiblingUI.SpeedInput (Some (Int 5));
       SiblingUI.Engine Sibling.PrevStep; SiblingUI.Engine Sibling.Play]
      (Sibling.boot None None) = Some w /\
    -1 <= Sibling.currentIndex (Sibling.state w)
       <= len (Sibling.encryptedText (Sibling.state w)) - 1 /\
    Z.of_nat (length (Sibling.history (Sibling.state w)))
      = Sibling.currentIndex (Sibling.state w) + 1 /\
    Sibling.accumulatedText (Sibling.state w) =
      decoded (Sibling.key (Sibling.state w)) true
        (firstn (Z.to_nat (Sibling.currentIndex (Sibling.state w) + 1))
                (Sibling.encryptedText (Sibling.state w))) /\
    Sibling.intervals w =
      (if Sibling.isPlaying (Sibling.state w)
       then match Sibling.timer (Sibling.state w) with
            | Some h => [(h, Sibling.speed_of (Sibling.speedSlider w))]
            | None => []
            end
       else []) /\
    (Sibling.isPlaying (Sibling.state w) = true ->
     Sibling.timer (Sibling.state w) <> None).
Proof.
  split; [reflexivity|].
  exact (sibling_engine_sound None None
    [SiblingUI.Engine (Sibling.Init (str "Ab") 29); SiblingUI.Space;
     SiblingUI.Engine (Sibling.Tick 1); SiblingUI.SpeedInput (Some (Int 5));
     SiblingUI.Engine Sibling.PrevStep; SiblingUI.Engine Sibling.Play]
    eq_refl).
Defined.

(** The key is not clamped and the decoding is the host's: with the key 2^60
    the ciphertext [ab] accumulates [mm]; with -30 it accumulates [ef]. *)
Example sibling_unclamped_keys :
  option_map (fun w => (Sibling.key (Sibling.state w),
                        Sibling.accumulatedText (Sibling.state w)))
    (SiblingUI.drive
       [SiblingUI.Engine (Sibling.Init (str "ab") 1152921504606846976);
        SiblingUI.Engine Sibling.NextStep; SiblingUI.Engine Sibling.NextStep]
       (Sibling.boot None None))
    = Some (1152921504606846976, str "mm") /\
  option_map (fun w => Sibling.accumulatedText (Sibling.state w))
    (SiblingUI.drive
       [SiblingUI.Engine (Sibling.Init (str "ab") (-30));
        SiblingUI.Engine Sibling.NextStep; SiblingUI.Engine Sibling.NextStep]
       (Sibling.boot None None))
    = Some (str "ef").
Proof. split; vm_compute; reflexivity. Qed.

(** X14. Moving the speed slider: the engine state is untouched; a playback
    under way before the last index is restarted with one interval of the
    new period; a playback that had reached the last index is stopped and
    not restarted, without a completion signal.  The last case is reached:
    autoplay on a one-letter ciphertext, slider moved after its first
    firing. *)
Theorem speed_change_restarts
  (think : option bool) (slider : option number) (ins : list SiblingUI.input)
  (v : option number) :
  SiblingUI.play_guarded ins (Sibling.boot think slider) = true ->
  (exists w,
     SiblingUI.drive ins (Sibling.boot think slider) = Some w /\
     Sibling.speedSlider (SiblingUI.speedInput v w) = v /\
     Sibling.currentIndex (Sibling.state (SiblingUI.speedInput v w))
       = Sibling.currentIndex (Sibling.state w) /\
     Sibling.accumulatedText (Sibling.state (SiblingUI.speedInput v w))
       = Sibling.accumulatedText (Sibling.state w) /\
     Sibling.missionComplete (SiblingUI.speedInput v w) = Sibling.missionComplete w /\
     if Sibling.isPlaying (Sibling.state w)
        && (Sibling.currentIndex (Sibling.state w)
              <? len (Sibling.encryptedText (Sibling.state w)) - 1)
     then Sibling.isPlaying (Sibling.state (SiblingUI.speedInput v w)) = true /\
          Sibling.intervals (SiblingUI.speedInput v w)
            = [(Sibling.nextHandle w, Sibling.speed_of v)]
     else Sibling.isPlaying (Sibling.state (SiblingUI.speedInput v w)) = false /\
          Sibling.intervals (SiblingUI.speedInput v w) = []) /\
  (exists w,
     SiblingUI.drive
       [SiblingUI.Engine (Sibling.Init (str "a") 3); SiblingUI.Space;
        SiblingUI.Engine (Sibling.Tick 1); SiblingUI.SpeedInput v]
       (Sibling.boot think slider) = Some w /\
     Sibling.currentIndex (Sibling.state w) = 0 /\
     Sibling.isPlaying (Sibling.state w) = false /\
     Sibling.intervals w = [] /\ Sibling.missionComplete w = 0%nat).
Proof.
  intros Hg. split.
  - destruct (sibling_drive_sound ins _ (sibling_boot_sound think slider) Hg)
      as (w & Hr & Hs).
    exists w. split; [exact Hr|].
    destruct (sibling_pause_sound w Hs) as (_ & Hpi & _).
    destruct Hs as (_ & _ & _ & Ht).
    assert (Hp0 :
      Sibling.pause (Sibling.mkWorld (Sibling.state w) (Sibling.intervals w)
                       (Sibling.nextHandle w) (Sibling.thinkModeToggle w) v
                       (Sibling.missionComplete w))
      = Sibling.mkWorld (Sibling.state (Sibling.pause w)) []
          (Sibling.nextHandle w) (Sibling.thinkModeToggle w) v
          (Sibling.missionComplete w)) by (rewrite <- Hpi; reflexivity).
    unfold SiblingUI.speedInput. cbn [Sibling.state].
    destruct (Sibling.isPlaying (Sibling.state w)) eqn:Hp; cbn [andb].
    + rewrite Hp0. unfold Sibling.play.
      cbn [Sibling.pause Sibling.state Sibling.currentIndex Sibling.encryptedText
           Sibling.intervals Sibling.nextHandle Sibling.speedSlider].
      destruct (Z.ltb_spec (Sibling.currentIndex (Sibling.state w))
                  (len (Sibling.encryptedText (Sibling.state w)) - 1));
      destruct (Z.geb_spec (Sibling.currentIndex (Sibling.state w))
                  (len (Sibling.encryptedText (Sibling.state w)) - 1)); try lia;
        repeat split.
    + cbn [Sibling.state Sibling.isPlaying Sibling.intervals Sibling.speedSlider
           Sibling.currentIndex Sibling.accumulatedText Sibling.missionComplete].
      repeat split; assumption.
  - destruct think as [[|]|], v as [[|z]|]; eexists;
      (split; [vm_compute; reflexivity|]); repeat split.
Qed.

Lemma speed_change_restarts_witness :
  SiblingUI.play_guarded
    [SiblingUI.Engine (Sibling.Init (str "abc") 3); SiblingUI.Space]
    (Sibling.boot None None) = true /\
  (exists w,
     SiblingUI.drive 
       [SiblingUI.Engine (Sibling.Init (str "abc") 3); SiblingUI.Space] (Sibling.boot None None) = Some w /\
     Sibling.speedSlider (SiblingUI.speedInput (Some (Int 5)) w) = Some (Int 5) /\
     Sibling.currentIndex (Sibling.state (SiblingUI.speedInput (Some (Int 5)) w))
       = Sibling.currentIndex (Sibling.state w) /\
     Sibling.accumulatedText (Sibling.state (SiblingUI.speedInput (Some (Int 5)) w))
       = Sibling.accumulatedText (Sibling.state w) /\
     Sibling.missionComplete (SiblingUI.speedInput (Some (Int 5)) w)
       = Sibling.missionComplete w /\
     if Sibling.isPlaying (Sibling.state w)
        && (Sibling.currentIndex (Sibling.state w)
              <? len (Sibling.encryptedText (Sibling.state w)) - 1)
     then Sibling.isPlaying (Sibling.state (SiblingUI.speedInput (Some (Int 5)) w)) = true /\
          Sibling.intervals (SiblingUI.speedInput (Some (Int 5)) w)
            = [(Sibling.nextHandle w, Sibling.speed_of (Some (Int 5)))]
     else Sibling.isPlaying (Sibling.state (SiblingUI.speedInput (Some (Int 5)) w)) = false /\
          Sibling.intervals (SiblingUI.speedInput (Some (Int 5)) w) = []) /\
  (exists w,
     SiblingUI.drive
       [SiblingUI.Engine (Sibling.Init (str "a") 3); SiblingUI.Space;
        SiblingUI.Engine (Sibling.Tick 1); SiblingUI.SpeedInput (Some (Int 5))]
       (Sibling.boot None None) = Some w /\
     Sibling.currentIndex (Sibling.state w) = 0 /\
     Sibling.isPlaying (Sibling.state w) = false /\
     Sibling.intervals w = [] /\ Sibling.missionComplete w = 0%nat).
Proof.
  split; [reflexivity|].
  exact (speed_change_restarts None None
           [SiblingUI.Engine (Sibling.Init (str "abc") 3); SiblingUI.Space]
           (Some (Int 5)) eq_refl).
Defined.

(** ** The speed levels *)

Ltac level_index n :=
  match goal with
  | |- context [array_get _ ?i] =>
      replace i with n by (unfold clamp; cbn; lia); reflexivity
  end.

Lemma script_speed_of_int (v : Z) :
  speed_of (Some (Int v)) =
    if v <=? 1 then 2000 else if v <=? 2 then 1500 else if v <=? 3 then 1000
    else if v <=? 4 then 600 else 300.
Proof.
  unfold speed_of, len_levels, SPEED_LEVELS.
  destruct (Z.leb_spec v 1); [level_index 0|].
  destruct (Z.leb_spec v 2); [level_index 1|].
  destruct (Z.leb_spec v 3); [level_index 2|].
  destruct (Z.leb_spec v 4); [level_index 3|].
  level_index 4.
Qed.

Lemma sibling_speed_of_int (v : Z) :
  Sibling.speed_of (Some (Int v)) =
    if v <=? 1 then 2000 else if v <=? 2 then 1500 else if v <=? 3 then 1000
    else if v <=? 4 then 500 else 200.
Proof.
  unfold Sibling.speed_of, Sibling.SPEED_LEVELS.
  destruct (Z.leb_spec v 1); [level_index 0|].
  destruct (Z.leb_spec v 2); [level_index 1|].
  destruct (Z.leb_spec v 3); [level_index 2|].
  destruct (Z.leb_spec v 4); [level_index 3|].
  level_index 4.
Qed.

(** X15. Whatever the slider holds (any integer, an unparsable value, no slider
    at all), the period [play] resolves is one of the five speed levels, so
    the fallback of 1000 ms is never what decides it; a missing or unparsable
    slider gives the middle level; and a higher slider value never gives a
    longer period.  In both versions. *)
Theorem speed_is_a_level (slider : option number) (v1 v2 : Z) :
  In (speed_of slider) SPEED_LEVELS /\
  In (Sibling.speed_of slider) Sibling.SPEED_LEVELS /\
  speed_of None = 1000 /\ speed_of (Some NaN) = 1000 /\
  Sibling.speed_of None = 1000 /\ Sibling.speed_of (Some NaN) = 1000 /\
  speed_of (Some (Int (Z.max v1 v2))) <= speed_of (Some (Int v1)) /\
  Sibling.speed_of (Some (Int (Z.max v1 v2))) <= Sibling.speed_of (Some (Int v1)).
Proof.
  split; [|split].
  - destruct slider as [[|v]|]; try (simpl; tauto).
    rewrite script_speed_of_int.
    repeat match goal with |- context [?a <=? ?b] => destruct (a <=? b) end;
      simpl; tauto.
  - destruct slider as [[|v]|]; try (simpl; tauto).
    rewrite sibling_speed_of_int.
    repeat match goal with |- context [?a <=? ?b] => destruct (a <=? b) end;
      simpl; tauto.
  - repeat split; try reflexivity.
    + rewrite !script_speed_of_int.
      repeat match goal with |- context [?a <=? ?b] => destruct (Z.leb_spec a b) end;
        lia.
    + rewrite !sibling_speed_of_int.
      repeat match goal with |- context [?a <=? ?b] => destruct (Z.leb_spec a b) end;
        lia.
Qed.

(** ** ClassSync: the CSV text *)

Lemma join_snoc (sep : jsstring) (l : list jsstring) (x : jsstring) :
  l <> [] -> join sep (l ++ [x]) = join sep l ++ sep ++ x.
Proof.
  induction l as [|y l IH]; [congruence|]. intros _.
  destruct l as [|z l]; [reflexivity|].
  change (join sep ((y :: z :: l) ++ [x])) with (y ++ sep ++ join sep ((z :: l) ++ [x])).
  rewrite IH by discriminate.
  change (join sep (y :: z :: l)) with (y ++ sep ++ join sep (z :: l)).
  now rewrite <- !app_assoc.
Qed.

(** X16. The export is append-only in its text: there is no text for an empty
    log, and the text for a log with one more attempt is the text so far (the
    header, for the first attempt), a line feed and the row of the new
    attempt.  In both versions. *)
Theorem export_appends_rows
  (data : list Attempt) (r : Attempt)
  (data' : list Sibling.Attempt) (r' : Sibling.Attempt) :
  exportClassCSV [] = None /\ Sibling.exportClassCSV [] = None /\
  exportClassCSV (data ++ [r]) =
    Some (match exportClassCSV data with
          | Some csv => csv
          | None => join (str ",") csv_header
          end ++ [10%N] ++ join (str ",") (csv_fields r)) /\
  Sibling.exportClassCSV (data' ++ [r']) =
    Some (match Sibling.exportClassCSV data' with
          | Some csv => csv
          | None => Sibling.csv_header
          end ++ [10%N] ++ Sibling.csv_row r').
Proof.
  split; [reflexivity|]. split; [reflexivity|]. split.
  - destruct data as [|a data]; [reflexivity|].
    cbn [app exportClassCSV]. f_equal.
    assert (E : map (join (str ",")) (csv_header :: map csv_fields (a :: data ++ [r]))
                = map (join (str ",")) (csv_header :: map csv_fields (a :: data))
                  ++ [join (str ",") (csv_fields r)]).
    { cbn [map]. rewrite !map_app. reflexivity. }
    rewrite E. apply join_snoc. discriminate.
  - destruct data' as [|a data']; [reflexivity|].
    cbn [app Sibling.exportClassCSV]. f_equal.
    assert (E : Sibling.csv_header :: map Sibling.csv_row (a :: data' ++ [r'])
                = (Sibling.csv_header :: map Sibling.csv_row (a :: data'))
                  ++ [Sibling.csv_row r']).
    { cbn [map]. rewrite !map_app. reflexivity. }
    rewrite E. apply join_snoc. discriminate.
Qed.

(** X17. In the sibling version's row a CSV reader finds the ciphertext and the
    final output again, whatever they contain (quotes, commas, line
    feeds): the row is the timestamp, the student id in quotes, then the
    ciphertext field, the key and the final-output field, and both fields
    read back to the stored texts. *)
Theorem sibling_row_reads_back (r : Sibling.Attempt) :
  let ciphertext_field :=
    Sibling.quote ++ double_quotes (Sibling.encrypted r) ++ Sibling.quote in
  let output_field :=
    Sibling.quote ++ double_quotes (Sibling.finalDecrypted r) ++ Sibling.quote in
  let middle := str "," ++ string_of_Z (Sibling.attemptKey r) ++ str "," in
  Sibling.csv_row r =
    (Sibling.timestamp r ++ str "," ++ Sibling.quote ++ Sibling.studentId r
       ++ Sibling.quote ++ str ",")
    ++ ciphertext_field ++ middle ++ output_field /\
  read_quoted_field (ciphertext_field ++ middle ++ output_field)
    = Some (Sibling.encrypted r, middle ++ output_field) /\
  read_quoted_field output_field = Some (Sibling.finalDecrypted r, []).
Proof.
  cbv zeta. split; [|split].
  - unfold Sibling.csv_row, Sibling.comma. change (str ",") with [44%N].
    now rewrite <- !app_assoc.
  - rewrite <- !app_assoc. apply sibling_field_read_back.
    intros rest'. change (str ",") with [44%N]. cbn [app]. discriminate.
  - rewrite <- (app_nil_r (Sibling.quote ++ _ ++ Sibling.quote)), <- !app_assoc.
    apply sibling_field_read_back. discriminate.
Qed.

(** X18. In [script.js] the history column is escaped: a CSV reader gets the
    JSON of the history back from the sixth field, quotes included. *)
Theorem script_history_field_reads_back (r : Attempt) :
  exists f1 f2 f3 f4 f5 f6,
    csv_fields r = [f1; f2; f3; f4; f5; f6] /\
    read_quoted_field f6 = Some (historyJSON r, []).
Proof.
  eexists _, _, _, _, _, _. split; [reflexivity|].
  change (read_quoted_field
            (Sibling.quote ++ double_quotes (historyJSON r) ++ Sibling.quote)
          = Some (historyJSON r, [])).
  rewrite <- (app_nil_r (Sibling.quote ++ _ ++ Sibling.quote)), <- !app_assoc.
  apply sibling_field_read_back. discriminate.
Qed.

(** ** ClassSync: the class logs in storage *)

Lemma jsstring_eqb_refl (a : jsstring) : jsstring_eqb a a = true.
Proof. now apply jsstring_eqb_eq. Qed.

Lemma jsstring_eqb_neq (a b : jsstring) : a <> b -> jsstring_eqb a b = false.
Proof.
  intros H. destruct (jsstring_eqb a b) eqn:E; [|reflexivity].
  apply jsstring_eqb_eq in E. contradiction.
Qed.

Lemma getItem_setItem_same (k : jsstring) (v : SiblingSync.item)
  (l : list (jsstring * SiblingSync.item)) :
  SiblingSync.getItem k (SiblingSync.setItem k v l) = Some v.
Proof.
  unfold SiblingSync.setItem. cbn [SiblingSync.getItem]. now rewrite jsstring_eqb_refl.
Qed.

Lemma getItem_setItem_other (k k' : jsstring) (v : SiblingSync.item)
  (l : list (jsstring * SiblingSync.item)) :
  k' <> k ->
  SiblingSync.getItem k' (SiblingSync.setItem k v l) = SiblingSync.getItem k' l.
Proof.
  intros Hne. unfold SiblingSync.setItem. cbn [SiblingSync.getItem].
  rewrite (jsstring_eqb_neq k k') by congruence.
  induction l as [|[k0 v0] l IH]; [reflexivity|].
  cbn [filter fst SiblingSync.getItem].
  destruct (jsstring_eqb k0 k) eqn:E0; cbn [negb SiblingSync.getItem].
  - apply jsstring_eqb_eq in E0. subst k0.
    now rewrite (jsstring_eqb_neq k k') by congruence.
  - now rewrite IH.
Qed.

Lemma storageKey_not_lastClassId (c : jsstring) :
  SiblingSync.storageKey c <> str "lastClassId".
Proof. discriminate. Qed.

(** X19. Which class ids share a log: those with the same id once the empty id
    is read as [default]. *)
Theorem class_logs_by_id (c1 c2 : jsstring) :
  (SiblingSync.storageKey c1 = SiblingSync.storageKey c2 <->
   SiblingSync.or_string c1 (str "default") = SiblingSync.or_string c2 (str "default")) /\
  SiblingSync.storageKey [] = SiblingSync.storageKey (str "default") /\
  SiblingSync.storageKey c1 <> str "lastClassId".
Proof.
  split; [|split; [reflexivity | apply storageKey_not_lastClassId]].
  unfold SiblingSync.storageKey. split.
  - apply app_inv_head.
  - now intros ->.
Qed.

Lemma read_log_setItem_same (k : jsstring) (entries : list Sibling.Attempt)
  (l : list (jsstring * SiblingSync.item)) :
  SiblingSync.read_log k (SiblingSync.setItem k (SiblingSync.Log entries) l)
    = Some entries.
Proof. unfold SiblingSync.read_log. now rewrite getItem_setItem_same. Qed.

Lemma read_log_setItem_other (k k' : jsstring) (v : SiblingSync.item)
  (l : list (jsstring * SiblingSync.item)) :
  k' <> k ->
  SiblingSync.read_log k' (SiblingSync.setItem k v l) = SiblingSync.read_log k' l.
Proof.
  intros Hne. unfold SiblingSync.read_log. now rewrite getItem_setItem_other.
Qed.

Lemma perform_keeps_logs (c : SiblingSync.call) (s : SiblingSync.Sync) :
  logs_readable (SiblingSync.storage s) ->
  logs_readable (SiblingSync.storage (SiblingSync.perform c s)) /\
  SiblingSync.denied (SiblingSync.perform c s) = SiblingSync.denied s.
Proof.
  intros Hl. destruct c as [classId studentId accepts | now accepts a];
    cbn [SiblingSync.perform].
  - split; [|reflexivity].
    unfold SiblingSync.setIdentity. cbn [SiblingSync.storage].
    destruct (SiblingSync.denied s || negb accepts); [exact Hl|].
    intros c. rewrite read_log_setItem_other by apply storageKey_not_lastClassId.
    apply Hl.
  - unfold SiblingSync.saveAttempt.
    destruct (SiblingSync.denied s) eqn:Hd; [now split|].
    destruct (Hl (SiblingSync.currentClassId s)) as (entries & ->).
    destruct accepts; [|now split].
    split; [|now cbn].
    cbn [SiblingSync.storage]. intros c.
    destruct (list_eq_dec N.eq_dec (SiblingSync.storageKey c)
                (SiblingSync.storageKey (SiblingSync.currentClassId s))) as [E|E].
    + rewrite E, read_log_setItem_same. eauto.
    + rewrite read_log_setItem_other by exact E. apply Hl.
Qed.

Lemma perform_all_keeps_logs (cs : list SiblingSync.call) (s : SiblingSync.Sync) :
  logs_readable (SiblingSync.storage s) ->
  logs_readable (SiblingSync.storage (SiblingSync.perform_all cs s)) /\
  SiblingSync.denied (SiblingSync.perform_all cs s) = SiblingSync.denied s.
Proof.
  revert s; induction cs as [|c cs IH]; intros s Hl; cbn [SiblingSync.perform_all].
  - now split.
  - destruct (perform_keeps_logs c s Hl) as (Hl1 & Hd1).
    destruct (IH _ Hl1) as (Hl' & Hd'). split; [exact Hl' | congruence].
Qed.

Lemma fresh_logs_readable : logs_readable (SiblingSync.storage SiblingSync.fresh).
Proof. intros c. exists []. reflexivity. Qed.

(** X20. After any identities set and attempts saved since the storage was
    empty, whichever of those writes the storage took or refused, the log of
    the current class is readable, and saving one more attempt does this.  If
    the storage takes the write, the attempt is appended, with the current
    student id, to the log of the current class, no warning is alerted, and
    the export that follows downloads that log, the new attempt last.  If the
    storage refuses the write, the exception is caught: the warning is
    alerted once, the storage is as it was and the export gives what it gave
    before.  In both cases the current class stays and the logs of the other
    classes are as they were. *)
Theorem saved_attempt_is_exported
  (cs : list SiblingSync.call) (now : jsstring) (accepts : bool)
  (a : SiblingSync.AttemptData) :
  let s := SiblingSync.perform_all cs SiblingSync.fresh in
  let s' := SiblingSync.saveAttempt now accepts a s in
  let entry := Sibling.mkAttempt now (SiblingSync.currentStudentId s)
                 (SiblingSync.encrypted a) (SiblingSync.key a)
                 (SiblingSync.finalDecrypted a) in
  exists entries,
    SiblingSync.read_log (SiblingSync.storageKey (SiblingSync.currentClassId s))
      (SiblingSync.storage s) = Some entries /\
    SiblingSync.currentClassId s' = SiblingSync.currentClassId s /\
    (forall c,
       SiblingSync.storageKey c
         <> SiblingSync.storageKey (SiblingSync.currentClassId s) ->
       SiblingSync.read_log (SiblingSync.storageKey c) (SiblingSync.storage s')
         = SiblingSync.read_log (SiblingSync.storageKey c) (SiblingSync.storage s)) /\
    if accepts then
      SiblingSync.read_log (SiblingSync.storageKey (SiblingSync.currentClassId s))
        (SiblingSync.storage s') = Some (entries ++ [entry]) /\
      SiblingSync.warnings s' = SiblingSync.warnings s /\
      exists csv,
        Sibling.exportClassCSV (entries ++ [entry]) = Some csv /\
        SiblingSync.exportClassCSV s' = SiblingSync.Download csv
    else
      SiblingSync.storage s' = SiblingSync.storage s /\
      SiblingSync.warnings s' = S (SiblingSync.warnings s) /\
      SiblingSync.exportClassCSV s' = SiblingSync.exportClassCSV s.
Proof.
  intros s s' entry.
  destruct (perform_all_keeps_logs cs SiblingSync.fresh fresh_logs_readable)
    as (Hl & Hd).
  fold s in Hl, Hd. cbn [SiblingSync.fresh SiblingSync.denied] in Hd.
  destruct (Hl (SiblingSync.currentClassId s)) as (entries & He).
  exists entries. split; [exact He|].
  subst s'. unfold SiblingSync.saveAttempt. rewrite Hd, He.
  destruct accepts.
  - cbn [SiblingSync.currentClassId SiblingSync.storage SiblingSync.warnings].
    split; [reflexivity|].
    split; [intros c Hc; now apply read_log_setItem_other|].
    split; [apply read_log_setItem_same|]. split; [reflexivity|].
    fold entry.
    destruct (Sibling.exportClassCSV (entries ++ [entry])) as [csv|] eqn:Hcsv;
      [|destruct entries; discriminate].
    exists csv. split; [reflexivity|].
    unfold SiblingSync.exportClassCSV.
    cbn [SiblingSync.denied SiblingSync.currentClassId SiblingSync.storage].
    now rewrite read_log_setItem_same, Hcsv.
  - repeat split.
Qed.

(** The same on a storage that holds a log: a second attempt is refused by
    the storage, then taken. *)
Example saved_attempt_refused_then_taken :
  let a := SiblingSync.mkAttemptData (str "zruog") 3 (str "world") in
  let s1 := SiblingSync.saveAttempt (str "t1") false a demo_sync in
  let s2 := SiblingSync.saveAttempt (str "t2") true a s1 in
  SiblingSync.storage s1 = SiblingSync.storage demo_sync /\
  SiblingSync.warnings demo_sync = 1%nat /\ SiblingSync.warnings s1 = 2%nat /\
  SiblingSync.warnings s2 = 2%nat /\
  SiblingSync.read_log (SiblingSync.storageKey (str "7b")) (SiblingSync.storage s2)
    = Some [Sibling.mkAttempt (str "2026-01-01T00:00:00.000Z") (str "ada")
              (str "khoor") 3 (str "hello");
            Sibling.mkAttempt (str "t2") (str "ada") (str "zruog") 3 (str "world")].
Proof. repeat split; vm_compute; reflexivity. Qed.

(** ** The sibling version: completion and the class log *)

(** X21. A [nextStep] made with the cursor at the last index signals
    completion and saves the whole attempt: the ciphertext, the key and the
    decoding of the whole ciphertext as the engine computes it, under the
    current student and class.  When the storage is accessible and takes the
    write, the attempt is appended to the log of the current class; when the
    storage is denied or refuses the write, the log stays as it was and the
    warning is alerted.  The engine is left at the last index, so that the
    next such call does the same again. *)
Theorem completion_logs_attempt
  (now : jsstring) (accepts : bool) (w : Sibling.World) (s : SiblingSync.Sync)
  (entries : list Sibling.Attempt) :
  sibling_sound w ->
  Sibling.currentIndex (Sibling.state w)
    = len (Sibling.encryptedText (Sibling.state w)) - 1 ->
  SiblingSync.read_log (SiblingSync.storageKey (SiblingSync.currentClassId s))
    (SiblingSync.storage s) = Some entries ->
  let text := Sibling.encryptedText (Sibling.state w) in
  let k := Sibling.key (Sibling.state w) in
  let stored := accepts && negb (SiblingSync.denied s) in
  exists w' s',
    SiblingPage.nextStep now accepts w s = Some (w', s') /\
    Sibling.nextStep w = Some w' /\
    s' = SiblingSync.saveAttempt now accepts
           (SiblingSync.mkAttemptData text k (decoded k true text)) s /\
    SiblingSync.read_log (SiblingSync.storageKey (SiblingSync.currentClassId s))
      (SiblingSync.storage s')
      = Some (if stored
              then entries ++
                   [Sibling.mkAttempt now (SiblingSync.currentStudentId s)
                      text k (decoded k true text)]
              else entries) /\
    SiblingSync.warnings s'
      = (if stored then SiblingSync.warnings s else S (SiblingSync.warnings s)) /\
    Sibling.missionComplete w' = S (Sibling.missionComplete w) /\
    sibling_sound w' /\
    Sibling.currentIndex (Sibling.state w')
      = len (Sibling.encryptedText (Sibling.state w')) - 1 /\
    Sibling.encryptedText (Sibling.state w') = text /\
    Sibling.key (Sibling.state w') = k /\
    SiblingSync.denied s' = SiblingSync.denied s /\
    SiblingSync.currentClassId s' = SiblingSync.currentClassId s /\
    SiblingSync.currentStudentId s' = SiblingSync.currentStudentId s.
Proof.
  intros Hs He Hrd text k stored.
  destruct (sibling_pause_sound w Hs) as (Hps & _ & _).
  pose proof Hs as (Hc & Hf & _).
  pose proof (sibling_output_decoded _ Hc Hf) as Hacc.
  rewrite He in Hacc.
  replace (Z.to_nat (len (Sibling.encryptedText (Sibling.state w)) - 1 + 1))
    with (length (Sibling.encryptedText (Sibling.state w))) in Hacc
    by (unfold len; lia).
  rewrite firstn_all in Hacc. fold text k in Hacc.
  assert (Hdata : SiblingSync.attemptData (Sibling.state (Sibling.pause w))
                  = SiblingSync.mkAttemptData text k (decoded k true text)).
  { unfold SiblingSync.attemptData.
    cbn [Sibling.pause Sibling.state Sibling.encryptedText Sibling.key
         Sibling.accumulatedText].
    now rewrite Hacc. }
  exists (Sibling.showMissionComplete (Sibling.pause w)),
         (SiblingSync.saveAttempt now accepts
            (SiblingSync.mkAttemptData text k (decoded k true text)) s).
  split.
  { unfold SiblingPage.nextStep. rewrite He, Z.eqb_refl.
    destruct (Z.geb_spec (len (Sibling.encryptedText (Sibling.state w)) - 1)
                (len (Sibling.encryptedText (Sibling.state w)) - 1)); [|lia].
    unfold SiblingPage.showMissionComplete. now rewrite Hdata. }
  split.
  { unfold Sibling.nextStep. rewrite He, Z.eqb_refl.
    now destruct (Z.geb_spec (len (Sibling.encryptedText (Sibling.state w)) - 1)
                    (len (Sibling.encryptedText (Sibling.state w)) - 1)); [|lia]. }
  split; [reflexivity|].
  assert (Hrest :
    Sibling.missionComplete (Sibling.showMissionComplete (Sibling.pause w))
      = S (Sibling.missionComplete w) /\
    sibling_sound (Sibling.showMissionComplete (Sibling.pause w)) /\
    Sibling.currentIndex (Sibling.state (Sibling.showMissionComplete (Sibling.pause w)))
      = len (Sibling.encryptedText
               (Sibling.state (Sibling.showMissionComplete (Sibling.pause w)))) - 1 /\
    Sibling.encryptedText (Sibling.state (Sibling.showMissionComplete (Sibling.pause w)))
      = text /\
    Sibling.key (Sibling.state (Sibling.showMissionComplete (Sibling.pause w))) = k).
  { split; [reflexivity|].
    split; [now apply (sibling_sound_same (Sibling.pause w))|].
    split; [exact He|]. split; reflexivity. }
  destruct Hrest as (R1 & R2 & R3 & R4 & R5).
  subst stored. unfold SiblingSync.saveAttempt.
  cbn [SiblingSync.encrypted SiblingSync.key SiblingSync.finalDecrypted].
  destruct (SiblingSync.denied s) eqn:Hd.
  - rewrite andb_false_r.
    cbn [SiblingSync.warned SiblingSync.storage SiblingSync.warnings
         SiblingSync.denied SiblingSync.currentClassId SiblingSync.currentStudentId].
    repeat (split; [solve [reflexivity | assumption]|]). reflexivity.
  - rewrite Hrd, andb_true_r. destruct accepts;
      cbn [SiblingSync.warned SiblingSync.storage SiblingSync.warnings
           SiblingSync.denied SiblingSync.currentClassId
           SiblingSync.currentStudentId].
    + split; [apply read_log_setItem_same|].
      repeat (split; [solve [reflexivity | assumption]|]). reflexivity.
    + repeat (split; [solve [reflexivity | assumption]|]). reflexivity.
Qed.

Lemma demo_world_sound : sibling_sound demo_world.
Proof.
  unfold sibling_sound, sibling_consistent, sibling_follows, sibling_tracked.
  vm_compute. repeat split; discriminate.
Qed.

Lemma completion_logs_attempt_witness :
  sibling_sound demo_world /\
  Sibling.currentIndex (Sibling.state demo_world)
    = len (Sibling.encryptedText (Sibling.state demo_world)) - 1 /\
  SiblingSync.read_log
    (SiblingSync.storageKey (SiblingSync.currentClassId demo_sync))
    (SiblingSync.storage demo_sync)
    = Some [Sibling.mkAttempt (str "2026-01-01T00:00:00.000Z") (str "ada")
              (str "khoor") 3 (str "hello")] /\
  exists w' s',
    SiblingPage.nextStep (str "2026-01-02T00:00:00.000Z") true demo_world demo_sync
      = Some (w', s') /\
    Sibling.nextStep demo_world = Some w' /\
    s' = SiblingSync.saveAttempt (str "2026-01-02T00:00:00.000Z") true
           (SiblingSync.mkAttemptData
              (Sibling.encryptedText (Sibling.state demo_world))
              (Sibling.key (Sibling.state demo_world))
              (decoded (Sibling.key (Sibling.state demo_world)) true
                       (Sibling.encryptedText (Sibling.state demo_world))))
           demo_sync /\
    SiblingSync.read_log
      (SiblingSync.storageKey (SiblingSync.currentClassId demo_sync))
      (SiblingSync.storage s')
      = Some (if true && negb (SiblingSync.denied demo_sync)
              then [Sibling.mkAttempt (str "2026-01-01T00:00:00.000Z") (str "ada")
                      (str "khoor") 3 (str "hello")] ++
                   [Sibling.mkAttempt (str "2026-01-02T00:00:00.000Z")
                      (SiblingSync.currentStudentId demo_sync)
                      (Sibling.encryptedText (Sibling.state demo_world))
                      (Sibling.key (Sibling.state demo_world))
                      (decoded (Sibling.key (Sibling.state demo_world)) true
                               (Sibling.encryptedText (Sibling.state demo_world)))]
              else [Sibling.mkAttempt (str "2026-01-01T00:00:00.000Z") (str "ada")
                      (str "khoor") 3 (str "hello")]) /\
    SiblingSync.warnings s'
      = (if true && negb (SiblingSync.denied demo_sync)
         then SiblingSync.warnings demo_sync
         else S (SiblingSync.warnings demo_sync)) /\
    Sibling.missionComplete w' = S (Sibling.missionComplete demo_world) /\
    sibling_sound w' /\
    Sibling.currentIndex (Sibling.state w')
      = len (Sibling.encryptedText (Sibling.state w')) - 1 /\
    Sibling.encryptedText (Sibling.state w')
      = Sibling.encryptedText (Sibling.state demo_world) /\
    Sibling.key (Sibling.state w') = Sibling.key (Sibling.state demo_world) /\
    SiblingSync.denied s' = SiblingSync.denied demo_sync /\
    SiblingSync.currentClassId s' = SiblingSync.currentClassId demo_sync /\
    SiblingSync.currentStudentId s' = SiblingSync.currentStudentId demo_sync.
Proof.
  split; [exact demo_world_sound|]. split; [reflexivity|].
  split; [reflexivity|].
  exact (completion_logs_attempt (str "2026-01-02T00:00:00.000Z") true
           demo_world demo_sync _ demo_world_sound eq_refl eq_refl).
Defined.

(** What the demonstration run is and what its completion logs: the
    ciphertext [Ab c] under the stored key 29 reads [Xy z], and the log of
    class 7b, which held one attempt, holds two. *)
Example demo_values :
  Sibling.accumulatedText (Sibling.state demo_world) = str "Xy z" /\
  Sibling.key (Sibling.state demo_world) = 29 /\
  Sibling.missionComplete demo_world = 0%nat /\
  SiblingSync.read_log (SiblingSync.storageKey (str "7b"))
    (SiblingSync.storage demo_sync)
    = Some [Sibling.mkAttempt (str "2026-01-01T00:00:00.000Z") (str "ada")
              (str "khoor") 3 (str "hello")] /\
  option_map (fun p => SiblingSync.read_log (SiblingSync.storageKey (str "7b"))
                         (SiblingSync.storage (snd p)))
    (SiblingPage.nextStep (str "2026-01-02T00:00:00.000Z") true demo_world demo_sync)
    = Some (Some [Sibling.mkAttempt (str "2026-01-01T00:00:00.000Z") (str "ada")
                    (str "khoor") 3 (str "hello");
                  Sibling.mkAttempt (str "2026-01-02T00:00:00.000Z") (str "ada")
                    (str "Ab c") 29 (str "Xy z")]).
Proof. repeat split; vm_compute; reflexivity. Qed.

(** ** The two engines side by side *)

Lemma sibling_nextStep_cursor (w w' : Sibling.World) :
  Sibling.nextStep w = Some w' ->
  Sibling.encryptedText (Sibling.state w') = Sibling.encryptedText (Sibling.state w) /\
  Sibling.key (Sibling.state w') = Sibling.key (Sibling.state w) /\
  Sibling.currentIndex (Sibling.state w') =
    (if Sibling.currentIndex (Sibling.state w)
          >=? len (Sibling.encryptedText (Sibling.state w)) - 1
     then Sibling.currentIndex (Sibling.state w)
     else Sibling.currentIndex (Sibling.state w) + 1).
Proof.
  unfold Sibling.nextStep.
  destruct (Sibling.currentIndex (Sibling.state w) >=?
            len (Sibling.encryptedText (Sibling.state w)) - 1).
  - intros [= <-].
    now destruct (Sibling.currentIndex (Sibling.state w) =?
                  len (Sibling.encryptedText (Sibling.state w)) - 1).
  - destruct (array_get _ _); [|discriminate].
    destruct (Sibling.decryptChar _ _); [|discriminate]. intros [= <-].
    now destruct (checked false (Sibling.thinkModeToggle w)
                  && Sibling.isPlaying (Sibling.state w)).
Qed.

Lemma sibling_run_forward (m : nat) (w : Sibling.World) :
  sibling_sound w ->
  exists w1,
    Sibling.run (repeat Sibling.NextStep m) w = Some w1 /\ sibling_sound w1 /\
    Sibling.encryptedText (Sibling.state w1) = Sibling.encryptedText (Sibling.state w) /\
    Sibling.key (Sibling.state w1) = Sibling.key (Sibling.state w) /\
    Sibling.currentIndex (Sibling.state w1) =
      Z.min (Sibling.currentIndex (Sibling.state w) + Z.of_nat m)
            (len (Sibling.encryptedText (Sibling.state w)) - 1).
Proof.
  revert w; induction m as [|m IH]; intros w Hs.
  - exists w. cbn [repeat Sibling.run]. split; [reflexivity|]. split; [exact Hs|].
    split; [reflexivity|]. split; [reflexivity|].
    destruct Hs as (((_ & Hup) & _) & _). lia.
  - cbn [repeat Sibling.run Sibling.step].
    destruct (sibling_nextStep_sound w Hs) as (w' & Hn & Hs' & _). rewrite Hn.
    destruct (sibling_nextStep_cursor w w' Hn) as (Ht & Hk & Hi).
    destruct (IH w' Hs') as (w1 & Hr & Hs1 & Ht1 & Hk1 & Hi1).
    exists w1. split; [exact Hr|]. split; [exact Hs1|].
    split; [congruence|]. split; [congruence|].
    rewrite Hi1, Ht, Hi. destruct Hs as (((_ & Hup) & _) & _).
    destruct (Z.geb_spec (Sibling.currentIndex (Sibling.state w))
                (len (Sibling.encryptedText (Sibling.state w)) - 1)); lia.
Qed.

(** X22. Stepped through the same ciphertext with the same key between 1
    and 25, the two versions of the engine agree at every step on the cursor
    and on the accumulated output, provided the page of [script.js] preserves
    case (the toggle is missing or checked). *)
Theorem engines_agree
  (w0 : World) (think : option bool) (slider : option number)
  (text : jsstring) (z : Z) (m : nat) :
  1 <= z <= 25 -> checked true (preserveCaseToggle (dom w0)) = true ->
  exists w ws,
    run (Init text (Int z) :: repeat NextStep m) w0 = Some w /\
    Sibling.run (Sibling.Init text z :: repeat Sibling.NextStep m)
                (Sibling.boot think slider) = Some ws /\
    currentIndex (state w) = Sibling.currentIndex (Sibling.state ws) /\
    accumulatedText (state w) = Sibling.accumulatedText (Sibling.state ws) /\
    key (state w) = Sibling.key (Sibling.state ws) /\
    accumulatedText (state w) = decoded z true (firstn m text).
Proof.
  intros Hz Hpc.
  destruct (forward_output w0 text (Int z) m) as (w & Hr & Ha & _ & _ & Hk & Hci).
  cbn [Sibling.run Sibling.step].
  pose proof (sibling_init_sound text z _ (sibling_boot_sound think slider)) as Hs0.
  destruct (sibling_run_forward m _ Hs0) as (ws & Hrs & Hss & Hts & Hks & Hcs).
  cbn [Sibling.init Sibling.with_state Sibling.state Sibling.encryptedText
       Sibling.key Sibling.currentIndex] in Hts, Hks, Hcs.
  destruct Hss as (Hc & Hf & _).
  pose proof (sibling_output_decoded _ Hc Hf) as Has.
  rewrite Hts, Hks, Hcs in Has.
  assert (Hkz : key (state w) = z).
  { rewrite Hk, key_or_default_small by (unfold two53; lia). unfold clamp.
    destruct (Z.eqb_spec z 0); lia. }
  assert (Hp : firstn (Z.to_nat (Z.min (-1 + Z.of_nat m) (len text - 1) + 1)) text
               = firstn m text).
  { unfold len. destruct (Nat.le_gt_cases m (length text)) as [Hle|Hgt].
    - f_equal. lia.
    - rewrite !firstn_all2 by lia. reflexivity. }
  rewrite Hp in Has. rewrite Hkz, Hpc in Ha.
  exists w, ws. split; [exact Hr|]. split; [exact Hrs|].
  split; [rewrite Hci, Hcs; unfold len; lia|].
  split; [congruence|]. split; [congruence | exact Ha].
Qed.

Lemma engines_agree_witness :
  1 <= 3 <= 25 /\ checked true (preserveCaseToggle (dom (boot bare))) = true /\
  exists w ws,
    run (Init (str "Khoor") (Int 3) :: repeat NextStep 4) (boot bare) = Some w /\
    Sibling.run (Sibling.Init (str "Khoor") 3 :: repeat Sibling.NextStep 4)
                (Sibling.boot None None) = Some ws /\
    currentIndex (state w) = Sibling.currentIndex (Sibling.state ws) /\
    accumulatedText (state w) = Sibling.accumulatedText (Sibling.state ws) /\
    key (state w) = Sibling.key (Sibling.state ws) /\
    accumulatedText (state w) = decoded 3 true (firstn 4 (str "Khoor")).
Proof.
  assert (Hz : 1 <= 3 <= 25) by lia.
  split; [exact Hz|]. split; [reflexivity|].
  exact (engines_agree (boot bare) None None (str "Khoor") 3 4 Hz eq_refl).
Defined.
